(** * zarr.v3: the batched codec pipeline and the asynchronous array engine

    A shallow embedding of [src/zarr/v3/codecs/batched_pipeline.py] and of
    [src/zarr/v3/array.py].

    Conventions of the embedding.
    - NumPy is an interface ([NumPy]): array contents are values of an
      abstract type [Arr]; an [ndarray] object is a reference into a heap of
      buffers together with the chain of basic-slicing views taken on it, so
      that [copy], [fill] and item assignment have their aliasing behaviour.
    - The key-value store is a finite map from keys to byte strings.
    - Every call that leaves the pipeline (store [get]/[set]/[delete], codec
      batch calls, partial decode and encode dispatches) is appended to a
      log, in program order.
    - Python exceptions are values of [PyError]; the state reached before an
      exception is kept (no rollback).
    - [concurrent_map] runs its items in input order. *)

From stdpp Require Import base option list gmap strings.
From Stdlib.Strings Require Import Byte.
From Stdlib Require Import DecimalString.

(** ** Exceptions and results *)

Inductive PyError : Type :=
| AssertionError
| TypeError
| IndexError
| CodecError (msg : string).

Inductive result (A : Type) : Type :=
| Ok (a : A)
| Raise (e : PyError).

Arguments Ok {A} a.
Arguments Raise {A} e.

Definition is_ok {A} (r : result A) : bool :=
  match r with Ok _ => true | Raise _ => false end.

(** ** A state-and-exception monad

    [Eff W A] is a computation over a world [W] that returns an [A] or
    raises; the world reached is returned in both cases. *)

Definition Eff (W A : Type) : Type := W -> result A * W.

Definition ret {W A} (a : A) : Eff W A := fun w => (Ok a, w).

Definition bind {W A B} (m : Eff W A) (k : A -> Eff W B) : Eff W B :=
  fun w =>
    match m w with
    | (Ok a, w') => k a w'
    | (Raise e, w') => (Raise e, w')
    end.

Definition raise {W A} (e : PyError) : Eff W A := fun w => (Raise e, w).

Definition lift {W A} (r : result A) : Eff W A := fun w => (r, w).

Notation "'let*' p ':=' m 'in' k" := (bind m (fun p => k))
  (at level 10, p pattern, m at level 100, k at level 200).
Notation "m ';;' k" := (bind m (fun _ => k))
  (at level 100, k at level 200, right associativity, only parsing).

(** A list comprehension, or a [for] loop collecting results, whose body
    has effects: elements are visited first to last. *)
Fixpoint mapM {W A B} (f : A -> Eff W B) (l : list A) : Eff W (list B) :=
  match l with
  | [] => ret []
  | x :: l' => let* y := f x in let* ys := mapM f l' in ret (y :: ys)
  end.

(** A [for] loop that threads a variable through its iterations. *)
Fixpoint foldM {W A B} (f : B -> A -> Eff W B) (l : list A) (acc : B) : Eff W B :=
  match l with
  | [] => ret acc
  | x :: l' => let* acc' := f acc x in foldM f l' acc'
  end.

(** [zarr.v3.common.concurrent_map(items, func, limit)]: results come in
    input order; the model also runs the calls in input order. *)
Definition concurrent_map {W A B} (items : list A) (func : A -> Eff W B) (limit : nat)
  : Eff W (list B) :=
  mapM func items.

(** ** Plain data *)

Abbreviation ChunkCoords := (list nat).
Abbreviation StorePath := string.

Definition BytesLike : Type := list byte.

Inductive Order : Type := OrderC | OrderF.

Record RuntimeConfiguration : Type := {
  rc_order : Order;
  rc_concurrency : nat;
}.

(** The key of the metadata document, [zarr.v3.common.ZARR_JSON]. *)
Definition ZARR_JSON : string := "zarr.json".

(** ** The NumPy interface

    [Arr] is the content of an array buffer; the operations are the NumPy
    calls made by the two source files.  Selections are the tuples of slices
    a [BasicIndexer] produces, for which slicing and assignment are total. *)

Class NumPy : Type := {
  Elem : Type;
  Arr : Type;
  DType : Type;
  Sel : Type;
  ArrayLike : Type;
  Arr_inhabited :: Inhabited Arr;
  (* np.empty(shape, dtype=dtype) *)
  np_empty : ChunkCoords -> DType -> Arr;
  (* np.zeros(shape, dtype=dtype, order=order) *)
  np_zeros : ChunkCoords -> DType -> Order -> Arr;
  (* np.asarray(value, dtype) *)
  np_asarray : ArrayLike -> DType -> Arr;
  (* a.shape *)
  arr_shape : Arr -> ChunkCoords;
  (* a.dtype *)
  arr_dtype : Arr -> DType;
  (* dtype.name *)
  dtype_name : DType -> string;
  (* a.astype(dtype, order="A") *)
  arr_astype : Arr -> DType -> Arr;
  (* a.fill(x) *)
  arr_fill : Arr -> Elem -> Arr;
  (* a[sel] *)
  arr_getitem : Arr -> Sel -> Arr;
  (* a[sel] = b *)
  arr_setitem : Arr -> Sel -> Arr -> Arr;
  (* a[sel] = x, x a scalar *)
  arr_setitem_scalar : Arr -> Sel -> Elem -> Arr;
  (* np.all(a == x) *)
  arr_all_eq : Arr -> Elem -> bool;
  (* a[()] on a 0-d array *)
  arr_item : Arr -> Elem;
}.

Section Model.

Context `{np : NumPy}.

(** [zarr.v3.common.ArraySpec], with the attributes the sources read. *)
Record ArraySpec : Type := {
  spec_shape : ChunkCoords;
  spec_dtype : DType;
  spec_fill_value : Elem;
}.

(** An [np.ndarray] object: the buffer it refers to and the slices through
    which it views that buffer (outermost first). *)
Record ndarray : Type := {
  base : nat;
  view : list Sel;
}.

(** What a caller may pass as [value] to [setitem]. [VScalar] is a Python
    scalar ([np.isscalar] holds), [VArrayLike] has no [shape] attribute. *)
Inductive Value : Type :=
| VScalar (x : Elem)
| VArray (a : ndarray)
| VArrayLike (l : ArrayLike).

(** The result of iterating a [zarr.v3.indexing.BasicIndexer]. *)
Record Indexer : Type := {
  indexer_shape : ChunkCoords;
  indexer_items : list (ChunkCoords * Sel * Sel);
}.

(** [zarr.v3.indexing] and [StorePath.__truediv__]: code of the repository
    outside the two files, taken as parameters. *)
Class Indexing : Type := {
  Selection : Type;
  is_total_slice : Sel -> ChunkCoords -> bool;
  BasicIndexer : Selection -> ChunkCoords -> ChunkCoords -> result Indexer;
  all_chunk_coords : ChunkCoords -> ChunkCoords -> list ChunkCoords;
  sp_div : StorePath -> string -> StorePath;
}.

Context `{ix : Indexing}.

(** ** The world: store, heap of array buffers, log of outgoing calls *)

Inductive Stage : Type := StageAA | StageAB | StageBB.

Inductive Event : Type :=
| StoreGet (key : StorePath)
| StoreSet (key : StorePath) (value : BytesLike)
| StoreDelete (key : StorePath)
| EncodeBatch (stage : Stage) (codec : string) (chunk_specs : list ArraySpec)
| DecodeBatch (stage : Stage) (codec : string) (chunk_specs : list ArraySpec)
| DecodePartialBatched (codec : string)
    (batch : list (StorePath * Sel * ArraySpec))
| EncodePartialBatched (codec : string)
    (batch : list (StorePath * ndarray * Sel * ArraySpec)).

Record World : Type := {
  store : gmap string BytesLike;
  heap : list Arr;
  log : list Event;
}.

Definition M : Type -> Type := Eff World.

Definition emit (e : Event) : M unit :=
  fun w => (Ok tt, {| store := store w; heap := heap w; log := log w ++ [e] |}).

(** *** The store: [StorePath.get], [StorePath.set], [StorePath.delete] *)

(** [get] of an absent key returns [None]; it is not an error. *)
Definition store_get (key : StorePath) : M (option BytesLike) :=
  fun w =>
    (Ok (store w !! key),
     {| store := store w; heap := heap w; log := log w ++ [StoreGet key] |}).

Definition store_set (key : StorePath) (value : BytesLike) : M unit :=
  fun w =>
    (Ok tt,
     {| store := <[key := value]> (store w); heap := heap w;
        log := log w ++ [StoreSet key value] |}).

(** [delete] of an absent key is a no-op. *)
Definition store_delete (key : StorePath) : M unit :=
  fun w =>
    (Ok tt,
     {| store := delete key (store w); heap := heap w;
        log := log w ++ [StoreDelete key] |}).

(** *** The heap: array objects *)

(** The content seen through a chain of views. *)
Definition through (path : list Sel) (a : Arr) : Arr :=
  fold_left arr_getitem path a.

(** Writing through a chain of views changes the viewed part of the buffer
    and nothing else of it. *)
Fixpoint update_view (path : list Sel) (f : Arr -> Arr) (a : Arr) : Arr :=
  match path with
  | [] => f a
  | s :: path' => arr_setitem a s (update_view path' f (arr_getitem a s))
  end.

(** The content of the array object [r] in world [w]. *)
Definition peek (w : World) (r : ndarray) : Arr :=
  through (view r) (heap w !!! base r).

Definition load (r : ndarray) : M Arr := fun w => (Ok (peek w r), w).

(** A new array object with a buffer of its own. *)
Definition alloc (a : Arr) : M ndarray :=
  fun w =>
    (Ok {| base := length (heap w); view := [] |},
     {| store := store w; heap := heap w ++ [a]; log := log w |}).

(** An in-place change of the array object [r]. *)
Definition poke (r : ndarray) (f : Arr -> Arr) : M unit :=
  fun w =>
    (Ok tt,
     {| store := store w;
        heap := <[base r := update_view (view r) f (heap w !!! base r)]> (heap w);
        log := log w |}).

(** [r[sel]] for a tuple of slices: a view, no buffer is touched. *)
Definition subscript (r : ndarray) (sel : Sel) : ndarray :=
  {| base := base r; view := view r ++ [sel] |}.

(** [r.copy()] *)
Definition ndarray_copy (r : ndarray) : M ndarray :=
  let* a := load r in alloc a.

(** [r.fill(x)] *)
Definition ndarray_fill (r : ndarray) (x : Elem) : M unit :=
  poke r (fun a => arr_fill a x).

(** [r[sel] = src], [src] an array object *)
Definition ndarray_setitem (r : ndarray) (sel : Sel) (src : ndarray) : M unit :=
  let* x := load src in poke r (fun a => arr_setitem a sel x).

(** [r[sel] = x], [x] a scalar *)
Definition ndarray_setitem_scalar (r : ndarray) (sel : Sel) (x : Elem) : M unit :=
  poke r (fun a => arr_setitem_scalar a sel x).

(** [value[sel]] for what [setitem] hands to the pipeline: a Python scalar
    is not subscriptable, and neither is a list by a tuple of slices. *)
Definition value_getitem (value : Value) (sel : Sel) : M ndarray :=
  match value with
  | VArray a => ret (subscript a sel)
  | VScalar _ => raise TypeError
  | VArrayLike _ => raise TypeError
  end.

Definition load_opt (r : option ndarray) : M (option Arr) :=
  match r with
  | Some r => let* a := load r in ret (Some a)
  | None => ret None
  end.

Definition alloc_opt (a : option Arr) : M (option ndarray) :=
  match a with
  | Some a => let* r := alloc a in ret (Some r)
  | None => ret None
  end.

(** ** Codecs ([zarr.v3.abc.codec])

    A codec is known by its interface.  Its batch functions see chunk
    contents and specs only, so they are functions that may raise; the
    arrays they return are new objects.  The partial decode and encode of the
    mixins are handed store paths and do their own store traffic: they are
    computations on the world.  [None] for a mixin function means the codec
    is not an instance of the mixin. *)

Record ArrayArrayCodec : Type := {
  aa_name : string;
  aa_resolve_metadata : ArraySpec -> ArraySpec;
  aa_encode_batch : list (option Arr * ArraySpec) -> result (list (option Arr));
  aa_decode_batch : list (option Arr * ArraySpec) -> result (list (option Arr));
}.

Record ArrayBytesCodec : Type := {
  ab_name : string;
  ab_resolve_metadata : ArraySpec -> ArraySpec;
  ab_encode_batch : list (option Arr * ArraySpec) -> result (list (option BytesLike));
  ab_decode_batch : list (option BytesLike * ArraySpec) -> result (list (option Arr));
  ab_decode_partial_batched :
    option (list (StorePath * Sel * ArraySpec) -> M (list (option ndarray)));
  ab_encode_partial_batched :
    option (list (StorePath * ndarray * Sel * ArraySpec) -> M unit);
}.

Record BytesBytesCodec : Type := {
  bb_name : string;
  bb_resolve_metadata : ArraySpec -> ArraySpec;
  bb_encode_batch :
    list (option BytesLike * ArraySpec) -> result (list (option BytesLike));
  bb_decode_batch :
    list (option BytesLike * ArraySpec) -> result (list (option BytesLike));
}.

(** The calls [codec.encode_batch(zip(batch, chunk_specs), rc)] and
    [codec.decode_batch(zip(batch, chunk_specs), rc)], logged with the
    [chunk_specs] operand of the [zip]. *)

Definition aa_encode_call (codec : ArrayArrayCodec)
    (chunk_array_batch : list (option ndarray)) (chunk_specs : list ArraySpec)
  : M (list (option ndarray)) :=
  emit (EncodeBatch StageAA (aa_name codec) chunk_specs) ;;
  let* contents := mapM load_opt chunk_array_batch in
  let* out := lift (aa_encode_batch codec (combine contents chunk_specs)) in
  mapM alloc_opt out.

Definition aa_decode_call (codec : ArrayArrayCodec)
    (chunk_array_batch : list (option ndarray)) (chunk_specs : list ArraySpec)
  : M (list (option ndarray)) :=
  emit (DecodeBatch StageAA (aa_name codec) chunk_specs) ;;
  let* contents := mapM load_opt chunk_array_batch in
  let* out := lift (aa_decode_batch codec (combine contents chunk_specs)) in
  mapM alloc_opt out.

Definition ab_encode_call (codec : ArrayBytesCodec)
    (chunk_array_batch : list (option ndarray)) (chunk_specs : list ArraySpec)
  : M (list (option BytesLike)) :=
  emit (EncodeBatch StageAB (ab_name codec) chunk_specs) ;;
  let* contents := mapM load_opt chunk_array_batch in
  lift (ab_encode_batch codec (combine contents chunk_specs)).

Definition ab_decode_call (codec : ArrayBytesCodec)
    (chunk_bytes_batch : list (option BytesLike)) (chunk_specs : list ArraySpec)
  : M (list (option ndarray)) :=
  emit (DecodeBatch StageAB (ab_name codec) chunk_specs) ;;
  let* out := lift (ab_decode_batch codec (combine chunk_bytes_batch chunk_specs)) in
  mapM alloc_opt out.

Definition bb_encode_call (codec : BytesBytesCodec)
    (chunk_bytes_batch : list (option BytesLike)) (chunk_specs : list ArraySpec)
  : M (list (option BytesLike)) :=
  emit (EncodeBatch StageBB (bb_name codec) chunk_specs) ;;
  lift (bb_encode_batch codec (combine chunk_bytes_batch chunk_specs)).

Definition bb_decode_call (codec : BytesBytesCodec)
    (chunk_bytes_batch : list (option BytesLike)) (chunk_specs : list ArraySpec)
  : M (list (option BytesLike)) :=
  emit (DecodeBatch StageBB (bb_name codec) chunk_specs) ;;
  lift (bb_decode_batch codec (combine chunk_bytes_batch chunk_specs)).

(** The part of the [Codec] interface common to the three families. *)
Class Codec (C : Type) : Type := {
  codec_name : C -> string;
  resolve_metadata : C -> ArraySpec -> ArraySpec;
}.

#[export] Instance ArrayArrayCodec_Codec : Codec ArrayArrayCodec :=
  {| codec_name := aa_name; resolve_metadata := aa_resolve_metadata |}.

#[export] Instance ArrayBytesCodec_Codec : Codec ArrayBytesCodec :=
  {| codec_name := ab_name; resolve_metadata := ab_resolve_metadata |}.

#[export] Instance BytesBytesCodec_Codec : Codec BytesBytesCodec :=
  {| codec_name := bb_name; resolve_metadata := bb_resolve_metadata |}.

(** ** [batched_pipeline.py] *)

Definition unzip2 {T U} (iterable : list (T * U)) : list T * list U :=
  fold_left
    (fun '(out0, out1) '(item0, item1) => (out0 ++ [item0], out1 ++ [item1]))
    iterable ([], []).

Definition resolve_batched {C} `{Codec C} (codec : C) (chunk_specs : list ArraySpec)
  : list ArraySpec :=
  map (resolve_metadata codec) chunk_specs.

(** [CodecPipeline] holds the codec list partitioned into its array-array
    prefix, its array-bytes codec and its bytes-bytes suffix. *)
Record BatchedCodecPipeline : Type := {
  array_array_codecs : list ArrayArrayCodec;
  array_bytes_codec : ArrayBytesCodec;
  bytes_bytes_codecs : list BytesBytesCodec;
}.

(** Modelled from the spec: the properties [supports_partial_decode] and
    [supports_partial_encode] of [zarr.v3.codecs.pipeline.CodecPipeline],
    which hold iff the array-bytes codec implements the mixin and there are
    no other codecs. *)
Definition supports_partial_decode (self : BatchedCodecPipeline) : bool :=
  (length (array_array_codecs self) + length (bytes_bytes_codecs self) =? 0)
  && bool_decide (is_Some (ab_decode_partial_batched (array_bytes_codec self))).

Definition supports_partial_encode (self : BatchedCodecPipeline) : bool :=
  (length (array_array_codecs self) + length (bytes_bytes_codecs self) =? 0)
  && bool_decide (is_Some (ab_encode_partial_batched (array_bytes_codec self))).

(** One of the two [for] loops of [_codecs_with_resolved_metadata_batched]:
    each codec is recorded with the specs it sees, then resolves them. *)
Definition codecs_with_spec_loop {C} `{Codec C} (codecs : list C)
    (chunk_specs : list ArraySpec) : list (C * list ArraySpec) * list ArraySpec :=
  fold_left
    (fun '(codecs_with_spec, chunk_specs) codec =>
       (codecs_with_spec ++ [(codec, chunk_specs)],
        map (resolve_metadata codec) chunk_specs))
    codecs ([], chunk_specs).

Definition _codecs_with_resolved_metadata_batched (self : BatchedCodecPipeline)
    (chunk_specs : list ArraySpec)
  : list (ArrayArrayCodec * list ArraySpec)
    * (ArrayBytesCodec * list ArraySpec)
    * list (BytesBytesCodec * list ArraySpec) :=
  let '(aa_codecs_with_spec, chunk_specs) :=
    codecs_with_spec_loop (array_array_codecs self) chunk_specs in
  let ab_codec_with_spec := (array_bytes_codec self, chunk_specs) in
  let chunk_specs := map (resolve_metadata (array_bytes_codec self)) chunk_specs in
  let '(bb_codecs_with_spec, chunk_specs) :=
    codecs_with_spec_loop (bytes_bytes_codecs self) chunk_specs in
  (aa_codecs_with_spec, ab_codec_with_spec, bb_codecs_with_spec).

Definition decode_batched (self : BatchedCodecPipeline)
    (chunk_bytes_and_specs : list (option BytesLike * ArraySpec))
  : M (list (option ndarray)) :=
  let '(chunk_bytes_batch, chunk_specs) := unzip2 chunk_bytes_and_specs in
  let '(aa_codecs_with_spec, ab_codec_with_spec, bb_codecs_with_spec) :=
    _codecs_with_resolved_metadata_batched self chunk_specs in
  let* chunk_bytes_batch :=
    foldM
      (fun chunk_bytes_batch '(bb_codec, chunk_spec_batch) =>
         bb_decode_call bb_codec chunk_bytes_batch chunk_spec_batch)
      (rev bb_codecs_with_spec) chunk_bytes_batch in
  let '(ab_codec, chunk_spec_batch) := ab_codec_with_spec in
  let* chunk_array_batch :=
    ab_decode_call ab_codec chunk_bytes_batch chunk_spec_batch in
  foldM
    (fun chunk_array_batch '(aa_codec, chunk_spec_batch) =>
       aa_decode_call aa_codec chunk_array_batch chunk_spec_batch)
    (rev aa_codecs_with_spec) chunk_array_batch.

Definition decode_partial_batched (self : BatchedCodecPipeline)
    (batch_info : list (StorePath * Sel * ArraySpec))
  : M (list (option ndarray)) :=
  if negb (supports_partial_decode self) then raise AssertionError
  else
    match ab_decode_partial_batched (array_bytes_codec self) with
    | None => raise AssertionError
    | Some decode_partial =>
        emit (DecodePartialBatched (ab_name (array_bytes_codec self)) batch_info) ;;
        decode_partial batch_info
    end.

Definition encode_batched (self : BatchedCodecPipeline)
    (chunk_arrays_and_specs : list (option ndarray * ArraySpec))
  : M (list (option BytesLike)) :=
  let '(chunk_array_batch, chunk_specs) := unzip2 chunk_arrays_and_specs in
  let* (chunk_array_batch, chunk_specs) :=
    foldM
      (fun '(chunk_array_batch, chunk_specs) aa_codec =>
         let* chunk_array_batch :=
           aa_encode_call aa_codec chunk_array_batch chunk_specs in
         ret (chunk_array_batch, resolve_batched aa_codec chunk_specs))
      (array_array_codecs self) (chunk_array_batch, chunk_specs) in
  let* chunk_bytes_batch :=
    ab_encode_call (array_bytes_codec self) chunk_array_batch chunk_specs in
  let chunk_specs := resolve_batched (array_bytes_codec self) chunk_specs in
  let* (chunk_bytes_batch, chunk_specs) :=
    foldM
      (fun '(chunk_bytes_batch, chunk_specs) bb_codec =>
         let* chunk_bytes_batch :=
           bb_encode_call bb_codec chunk_bytes_batch chunk_specs in
         ret (chunk_bytes_batch, resolve_batched bb_codec chunk_specs))
      (bytes_bytes_codecs self) (chunk_bytes_batch, chunk_specs) in
  ret chunk_bytes_batch.

Definition encode_partial_batched (self : BatchedCodecPipeline)
    (batch_info : list (StorePath * ndarray * Sel * ArraySpec)) : M unit :=
  if negb (supports_partial_encode self) then raise AssertionError
  else
    match ab_encode_partial_batched (array_bytes_codec self) with
    | None => raise AssertionError
    | Some encode_partial =>
        emit (EncodePartialBatched (ab_name (array_bytes_codec self)) batch_info) ;;
        encode_partial batch_info
    end.

(** An entry of [batch_info]:
    [(store_path, chunk_spec, chunk_selection, out_selection)]. *)
Definition BatchItem : Type := StorePath * ArraySpec * Sel * Sel.

(** The last loop of [read_batched] on the partial-decode path. *)
Definition write_out_partial (out : ndarray)
    (item : option ndarray * BatchItem) : M unit :=
  let '(chunk_array, (_, chunk_spec, _, out_selection)) := item in
  match chunk_array with
  | Some chunk_array => ndarray_setitem out out_selection chunk_array
  | None => ndarray_setitem_scalar out out_selection (spec_fill_value chunk_spec)
  end.

(** The last loop of [read_batched] on the full-decode path. *)
Definition write_out (out : ndarray) (item : option ndarray * BatchItem) : M unit :=
  let '(chunk_array, (_, chunk_spec, chunk_selection, out_selection)) := item in
  match chunk_array with
  | Some chunk_array =>
      let tmp := subscript chunk_array chunk_selection in
      ndarray_setitem out out_selection tmp
  | None => ndarray_setitem_scalar out out_selection (spec_fill_value chunk_spec)
  end.

Definition read_batched (self : BatchedCodecPipeline) (batch_info : list BatchItem)
    (out : ndarray) (runtime_configuration : RuntimeConfiguration) : M unit :=
  if supports_partial_decode self then
    let* chunk_array_batch :=
      decode_partial_batched self
        (map
           (fun '(store_path, chunk_spec, chunk_selection, _) =>
              (store_path, chunk_selection, chunk_spec))
           batch_info) in
    foldM (fun _ item => write_out_partial out item)
      (combine chunk_array_batch batch_info) tt
  else
    let* chunk_bytes_batch :=
      concurrent_map
        (map (fun '(store_path, _, _, _) => store_path) batch_info)
        store_get
        (rc_concurrency runtime_configuration) in
    let* chunk_array_batch :=
      decode_batched self
        (map
           (fun '(chunk_bytes, (_, chunk_spec, _, _)) => (chunk_bytes, chunk_spec))
           (combine chunk_bytes_batch batch_info)) in
    foldM (fun _ item => write_out out item)
      (combine chunk_array_batch batch_info) tt.

(** The local functions of [write_batched]. *)

Definition _read_key (store_path : option StorePath) : M (option BytesLike) :=
  match store_path with
  | None => ret None
  | Some store_path => store_get store_path
  end.

Definition _merge_chunk_array (existing_chunk_array : option ndarray)
    (new_chunk_array_slice : ndarray) (chunk_spec : ArraySpec)
    (chunk_selection : Sel) : M ndarray :=
  if is_total_slice chunk_selection (spec_shape chunk_spec) then
    ret new_chunk_array_slice
  else
    let* chunk_array :=
      match existing_chunk_array with
      | None =>
          let* chunk_array :=
            alloc (np_empty (spec_shape chunk_spec) (spec_dtype chunk_spec)) in
          ndarray_fill chunk_array (spec_fill_value chunk_spec) ;;
          ret chunk_array
      | Some existing_chunk_array => ndarray_copy existing_chunk_array
      end in
    ndarray_setitem chunk_array chunk_selection new_chunk_array_slice ;;
    ret chunk_array.

Definition _write_key (store_path : StorePath) (chunk_bytes : option BytesLike)
  : M unit :=
  match chunk_bytes with
  | None => store_delete store_path
  | Some chunk_bytes => store_set store_path chunk_bytes
  end.

(** The statements of the read-modify-write branch of [write_batched], in
    program order; each is named after the variable it assigns. *)

(** Lines 215-222: read existing bytes if not total slice. *)
Definition rmw_chunk_bytes_batch (batch_info : list BatchItem)
    (runtime_configuration : RuntimeConfiguration) : M (list (option BytesLike)) :=
  concurrent_map
    (map
       (fun '(store_path, chunk_spec, chunk_selection, _) =>
          if is_total_slice chunk_selection (spec_shape chunk_spec)
          then None else Some store_path)
       batch_info)
    _read_key
    (rc_concurrency runtime_configuration).

(** Lines 223-229. *)
Definition rmw_decode (self : BatchedCodecPipeline) (batch_info : list BatchItem)
    (chunk_bytes_batch : list (option BytesLike)) : M (list (option ndarray)) :=
  decode_batched self
    (map
       (fun '(chunk_bytes, (_, chunk_spec, _, _)) => (chunk_bytes, chunk_spec))
       (combine chunk_bytes_batch batch_info)).

(** Lines 250-255. *)
Definition rmw_merge (batch_info : list BatchItem) (value : Value)
    (chunk_array_batch : list (option ndarray)) : M (list ndarray) :=
  mapM
    (fun '(chunk_array, (_, chunk_spec, chunk_selection, out_selection)) =>
       let* new_chunk_array_slice := value_getitem value out_selection in
       _merge_chunk_array chunk_array new_chunk_array_slice chunk_spec
         chunk_selection)
    (combine chunk_array_batch batch_info).

(** Lines 257-260. *)
Definition rmw_elide (batch_info : list BatchItem)
    (chunk_array_batch : list ndarray) : M (list (option ndarray)) :=
  mapM
    (fun '(chunk_array, (_, chunk_spec, _, _)) =>
       let* content := load chunk_array in
       ret (if arr_all_eq content (spec_fill_value chunk_spec)
            then None else Some chunk_array))
    (combine chunk_array_batch batch_info).

(** Lines 262-268. *)
Definition rmw_encode (self : BatchedCodecPipeline) (batch_info : list BatchItem)
    (chunk_array_batch : list (option ndarray)) : M (list (option BytesLike)) :=
  encode_batched self
    (map
       (fun '(chunk_array, (_, chunk_spec, _, _)) => (chunk_array, chunk_spec))
       (combine chunk_array_batch batch_info)).

(** Lines 276-283. *)
Definition rmw_write (batch_info : list BatchItem)
    (chunk_bytes_batch : list (option BytesLike))
    (runtime_configuration : RuntimeConfiguration) : M unit :=
  concurrent_map
    (map
       (fun '(chunk_bytes, (store_path, _, _, _)) => (store_path, chunk_bytes))
       (combine chunk_bytes_batch batch_info))
    (fun '(store_path, chunk_bytes) => _write_key store_path chunk_bytes)
    (rc_concurrency runtime_configuration) ;;
  ret tt.

Definition write_batched (self : BatchedCodecPipeline) (batch_info : list BatchItem)
    (value : Value) (runtime_configuration : RuntimeConfiguration) : M unit :=
  if supports_partial_encode self then
    let* batch :=
      mapM
        (fun '(store_path, chunk_spec, chunk_selection, out_selection) =>
           let* new_chunk_array_slice := value_getitem value out_selection in
           ret (store_path, new_chunk_array_slice, chunk_selection, chunk_spec))
        batch_info in
    encode_partial_batched self batch
  else
    let* chunk_bytes_batch :=
      rmw_chunk_bytes_batch batch_info runtime_configuration in
    let* chunk_array_batch := rmw_decode self batch_info chunk_bytes_batch in
    let* chunk_array_batch := rmw_merge batch_info value chunk_array_batch in
    let* chunk_array_batch := rmw_elide batch_info chunk_array_batch in
    let* chunk_bytes_batch := rmw_encode self batch_info chunk_array_batch in
    rmw_write batch_info chunk_bytes_batch runtime_configuration.

(** ** [array.py] *)

(** [zarr.v3.chunk_grids]: the engine supports the regular grid only. *)
Inductive ChunkGrid : Type :=
| RegularChunkGrid (chunk_shape : ChunkCoords)
| OtherChunkGrid.

(** [zarr.v3.chunk_key_encodings]: an object with an [encode_chunk_key]
    method, a function from chunk coordinates to a relative key. *)
Record ChunkKeyEncoding : Type := {
  encode_chunk_key : ChunkCoords -> string;
}.

Record ArrayMetadata : Type := {
  md_shape : ChunkCoords;
  md_dtype : DType;
  chunk_grid : ChunkGrid;
  chunk_key_encoding : ChunkKeyEncoding;
  md_fill_value : Elem;
  md_codecs : BatchedCodecPipeline;
  dimension_names : option (list string);
  attributes : list (string * string);
}.

(** [dataclasses.replace(metadata, shape=new_shape)] *)
Definition replace_shape (metadata : ArrayMetadata) (new_shape : ChunkCoords)
  : ArrayMetadata :=
  {| md_shape := new_shape;
     md_dtype := md_dtype metadata;
     chunk_grid := chunk_grid metadata;
     chunk_key_encoding := chunk_key_encoding metadata;
     md_fill_value := md_fill_value metadata;
     md_codecs := md_codecs metadata;
     dimension_names := dimension_names metadata;
     attributes := attributes metadata |}.

(** [dataclasses.replace(metadata, attributes=new_attributes)] *)
Definition replace_attributes (metadata : ArrayMetadata)
    (new_attributes : list (string * string)) : ArrayMetadata :=
  {| md_shape := md_shape metadata;
     md_dtype := md_dtype metadata;
     chunk_grid := chunk_grid metadata;
     chunk_key_encoding := chunk_key_encoding metadata;
     md_fill_value := md_fill_value metadata;
     md_codecs := md_codecs metadata;
     dimension_names := dimension_names metadata;
     attributes := new_attributes |}.

(** Modelled from the spec: [ArrayMetadata.get_chunk_spec], which is in
    [zarr.v3.metadata].  Every chunk, also one at the trailing edge, has the
    chunk shape of the grid, and the dtype and fill value of the array. *)
Definition get_chunk_spec (metadata : ArrayMetadata) (chunk_coords : ChunkCoords)
  : ArraySpec :=
  {| spec_shape :=
       match chunk_grid metadata with
       | RegularChunkGrid chunk_shape => chunk_shape
       | OtherChunkGrid => []
       end;
     spec_dtype := md_dtype metadata;
     spec_fill_value := md_fill_value metadata |}.

(** [ArrayMetadata.to_bytes], the serialiser of the metadata document. *)
Class MetadataDocument : Type := {
  to_bytes : ArrayMetadata -> BytesLike;
}.

Context `{doc : MetadataDocument}.

Record AsyncArray : Type := {
  metadata : ArrayMetadata;
  store_path : StorePath;
  runtime_configuration : RuntimeConfiguration;
}.

(** [dataclasses.replace(self, metadata=new_metadata)] *)
Definition replace_metadata (self : AsyncArray) (new_metadata : ArrayMetadata)
  : AsyncArray :=
  {| metadata := new_metadata;
     store_path := store_path self;
     runtime_configuration := runtime_configuration self |}.

Definition codecs (self : AsyncArray) : BatchedCodecPipeline :=
  md_codecs (metadata self).

Definition ndim (self : AsyncArray) : nat := length (md_shape (metadata self)).

Definition shape (self : AsyncArray) : ChunkCoords := md_shape (metadata self).

(** The [batch_info] list that [getitem] and [setitem] build from the
    indexer. *)
Definition batch_info_of (self : AsyncArray) (indexer : Indexer) : list BatchItem :=
  map
    (fun '(chunk_coords, chunk_selection, out_selection) =>
       (sp_div (store_path self)
          (encode_chunk_key (chunk_key_encoding (metadata self)) chunk_coords),
        get_chunk_spec (metadata self) chunk_coords,
        chunk_selection,
        out_selection))
    (indexer_items indexer).

Definition getitem (self : AsyncArray) (selection : Selection) : M Value :=
  match chunk_grid (metadata self) with
  | OtherChunkGrid => raise AssertionError
  | RegularChunkGrid chunk_shape =>
      let* indexer :=
        lift (BasicIndexer selection (md_shape (metadata self)) chunk_shape) in
      let* out :=
        alloc
          (np_zeros (indexer_shape indexer) (md_dtype (metadata self))
             (rc_order (runtime_configuration self))) in
      read_batched (codecs self) (batch_info_of self indexer) out
        (runtime_configuration self) ;;
      let* content := load out in
      match arr_shape content with
      | _ :: _ => ret (VArray out)
      | [] => ret (VScalar (arr_item content))
      end
  end.

Definition _save_metadata (self : AsyncArray) : M unit :=
  store_set (sp_div (store_path self) ZARR_JSON) (to_bytes (metadata self)).

(** The normalisation of [value] in [setitem] (lines 243-252). *)
Definition normalize_value (self : AsyncArray) (sel_shape : ChunkCoords)
    (value : Value) : M Value :=
  match value with
  | VScalar x =>
      (* setting a scalar value *)
      ret (VScalar x)
  | _ =>
      let* value :=
        match value with
        | VArrayLike l => alloc (np_asarray l (md_dtype (metadata self)))
        | VArray a => ret a
        | VScalar _ => raise TypeError
        end in
      let* content := load value in
      if negb (bool_decide (arr_shape content = sel_shape)) then
        raise AssertionError
      else if
        negb
          (String.eqb (dtype_name (arr_dtype content))
             (dtype_name (md_dtype (metadata self))))
      then
        let* value := alloc (arr_astype content (md_dtype (metadata self))) in
        ret (VArray value)
      else ret (VArray value)
  end.

Definition setitem (self : AsyncArray) (selection : Selection) (value : Value)
  : M unit :=
  match chunk_grid (metadata self) with
  | OtherChunkGrid => raise AssertionError
  | RegularChunkGrid chunk_shape =>
      let* indexer :=
        lift (BasicIndexer selection (md_shape (metadata self)) chunk_shape) in
      let sel_shape := indexer_shape indexer in
      let* value := normalize_value self sel_shape value in
      write_batched (codecs self) (batch_info_of self indexer) value
        (runtime_configuration self)
  end.

(** The local function of [resize]. *)
Definition _delete_key (self : AsyncArray) (key : string) : M unit :=
  store_delete (sp_div (store_path self) key).

Definition resize (self : AsyncArray) (new_shape : ChunkCoords)
    (delete_outside_chunks : bool) : M AsyncArray :=
  if negb (length new_shape =? length (md_shape (metadata self))) then
    raise AssertionError
  else
    let new_metadata := replace_shape (metadata self) new_shape in
    match chunk_grid (metadata self) with
    | OtherChunkGrid => raise AssertionError
    | RegularChunkGrid chunk_shape =>
        let chunk_key_encoding := chunk_key_encoding (metadata self) in
        let old_chunk_coords : gset ChunkCoords :=
          list_to_set (all_chunk_coords (md_shape (metadata self)) chunk_shape) in
        let new_chunk_coords : gset ChunkCoords :=
          list_to_set (all_chunk_coords new_shape chunk_shape) in
        (if delete_outside_chunks then
           concurrent_map
             (map (encode_chunk_key chunk_key_encoding)
                (elements (old_chunk_coords ∖ new_chunk_coords)))
             (_delete_key self)
             (rc_concurrency (runtime_configuration self)) ;;
           ret tt
         else ret tt) ;;
        store_set (sp_div (store_path self) ZARR_JSON) (to_bytes new_metadata) ;;
        ret (replace_metadata self new_metadata)
    end.

Definition update_attributes (self : AsyncArray)
    (new_attributes : list (string * string)) : M AsyncArray :=
  let new_metadata := replace_attributes (metadata self) new_attributes in
  store_set (sp_div (store_path self) ZARR_JSON) (to_bytes new_metadata) ;;
  ret (replace_metadata self new_metadata).

End Model.

(** * Reference definitions

    What the statements below are phrased with: observations of a run, and
    the value-level reading of encode and decode. *)

Section Reference.

Context {np : NumPy} {ix : Indexing}.

Inductive Direction : Type := Encode | Decode.

(** The codec a logged batch call went to. *)
Definition codec_call (e : Event) : option (Direction * Stage * string) :=
  match e with
  | EncodeBatch stage codec _ => Some (Encode, stage, codec)
  | DecodeBatch stage codec _ => Some (Decode, stage, codec)
  | _ => None
  end.


(** The store operation a logged call is, if it is one. *)
Definition store_op (e : Event) : option Event :=
  match e with
  | StoreGet _ | StoreSet _ _ | StoreDelete _ => Some e
  | _ => None
  end.

(** A logged call that changes the store. *)
Definition is_store_write (e : Event) : bool :=
  match e with
  | StoreSet _ _ | StoreDelete _ => true
  | _ => false
  end.

(** The codec list in list order: the array-array prefix, the array-bytes
    codec, the bytes-bytes suffix. *)
Definition codec_list (self : BatchedCodecPipeline) : list (Stage * string) :=
  map (fun codec => (StageAA, aa_name codec)) (array_array_codecs self)
  ++ [(StageAB, ab_name (array_bytes_codec self))]
  ++ map (fun codec => (StageBB, bb_name codec)) (bytes_bytes_codecs self).

(** Encode order: array-array codecs forward, the array-bytes codec,
    bytes-bytes codecs forward. *)
Definition encode_order (self : BatchedCodecPipeline)
  : list (Direction * Stage * string) :=
  map (fun '(stage, codec) => (Encode, stage, codec)) (codec_list self).

(** Decode order: bytes-bytes codecs backward, the array-bytes codec,
    array-array codecs backward. *)
Definition decode_order (self : BatchedCodecPipeline)
  : list (Direction * Stage * string) :=
  map (fun codec => (Decode, StageBB, bb_name codec)) (rev (bytes_bytes_codecs self))
  ++ [(Decode, StageAB, ab_name (array_bytes_codec self))]
  ++ map (fun codec => (Decode, StageAA, aa_name codec)) (rev (array_array_codecs self)).

(** The specs threaded forward through a list of codecs: each codec with
    the specs it sees. *)
Fixpoint spec_chain {C} `{Codec C} (codecs : list C) (chunk_specs : list ArraySpec)
  : list (C * list ArraySpec) :=
  match codecs with
  | [] => []
  | codec :: codecs' =>
      (codec, chunk_specs)
      :: spec_chain codecs' (map (resolve_metadata codec) chunk_specs)
  end.

(** The specs that leave a list of codecs. *)
Fixpoint resolve_all {C} `{Codec C} (codecs : list C) (chunk_specs : list ArraySpec)
  : list ArraySpec :=
  match codecs with
  | [] => chunk_specs
  | codec :: codecs' => resolve_all codecs' (map (resolve_metadata codec) chunk_specs)
  end.


(** The batch calls of a complete [encode_batched], and of a complete
    [decode_batched]. *)
Definition encode_events (self : BatchedCodecPipeline) (chunk_specs : list ArraySpec)
  : list Event :=
  let '(aa_codecs_with_spec, ab_codec_with_spec, bb_codecs_with_spec) :=
    _codecs_with_resolved_metadata_batched self chunk_specs in
  map (fun '(codec, specs) => EncodeBatch StageAA (aa_name codec) specs)
    aa_codecs_with_spec
  ++ [EncodeBatch StageAB (ab_name ab_codec_with_spec.1) ab_codec_with_spec.2]
  ++ map (fun '(codec, specs) => EncodeBatch StageBB (bb_name codec) specs)
       bb_codecs_with_spec.

Definition decode_events (self : BatchedCodecPipeline) (chunk_specs : list ArraySpec)
  : list Event :=
  let '(aa_codecs_with_spec, ab_codec_with_spec, bb_codecs_with_spec) :=
    _codecs_with_resolved_metadata_batched self chunk_specs in
  map (fun '(codec, specs) => DecodeBatch StageBB (bb_name codec) specs)
    (rev bb_codecs_with_spec)
  ++ [DecodeBatch StageAB (ab_name ab_codec_with_spec.1) ab_codec_with_spec.2]
  ++ map (fun '(codec, specs) => DecodeBatch StageAA (aa_name codec) specs)
       (rev aa_codecs_with_spec).

(** A loop over a list whose body may raise. *)
Fixpoint fold_result {A B} (f : B -> A -> result B) (l : list A) (acc : B)
  : result B :=
  match l with
  | [] => Ok acc
  | x :: l' =>
      match f acc x with
      | Ok acc' => fold_result f l' acc'
      | Raise e => Raise e
      end
  end.

(** [decode_batched] on chunk contents: what the codecs compute, without
    the array objects and the log. *)
Definition decode_values (self : BatchedCodecPipeline)
    (chunk_bytes_and_specs : list (option BytesLike * ArraySpec))
  : result (list (option Arr)) :=
  let '(aa_codecs_with_spec, ab_codec_with_spec, bb_codecs_with_spec) :=
    _codecs_with_resolved_metadata_batched self (map snd chunk_bytes_and_specs) in
  match
    fold_result
      (fun chunk_bytes_batch '(bb_codec, chunk_spec_batch) =>
         bb_decode_batch bb_codec (combine chunk_bytes_batch chunk_spec_batch))
      (rev bb_codecs_with_spec) (map fst chunk_bytes_and_specs)
  with
  | Raise e => Raise e
  | Ok chunk_bytes_batch =>
      match
        ab_decode_batch ab_codec_with_spec.1
          (combine chunk_bytes_batch ab_codec_with_spec.2)
      with
      | Raise e => Raise e
      | Ok chunk_array_batch =>
          fold_result
            (fun chunk_array_batch '(aa_codec, chunk_spec_batch) =>
               aa_decode_batch aa_codec (combine chunk_array_batch chunk_spec_batch))
            (rev aa_codecs_with_spec) chunk_array_batch
      end
  end.

(** [encode_batched] on chunk contents. *)
Definition encode_values (self : BatchedCodecPipeline)
    (chunk_arrays_and_specs : list (option Arr * ArraySpec))
  : result (list (option BytesLike)) :=
  match
    fold_result
      (fun '(chunk_array_batch, chunk_specs) aa_codec =>
         match aa_encode_batch aa_codec (combine chunk_array_batch chunk_specs) with
         | Ok chunk_array_batch =>
             Ok (chunk_array_batch, resolve_batched aa_codec chunk_specs)
         | Raise e => Raise e
         end)
      (array_array_codecs self)
      (map fst chunk_arrays_and_specs, map snd chunk_arrays_and_specs)
  with
  | Raise e => Raise e
  | Ok (chunk_array_batch, chunk_specs) =>
      match
        ab_encode_batch (array_bytes_codec self)
          (combine chunk_array_batch chunk_specs)
      with
      | Raise e => Raise e
      | Ok chunk_bytes_batch =>
          match
            fold_result
              (fun '(chunk_bytes_batch, chunk_specs) bb_codec =>
                 match
                   bb_encode_batch bb_codec (combine chunk_bytes_batch chunk_specs)
                 with
                 | Ok chunk_bytes_batch =>
                     Ok (chunk_bytes_batch, resolve_batched bb_codec chunk_specs)
                 | Raise e => Raise e
                 end)
              (bytes_bytes_codecs self)
              (chunk_bytes_batch, resolve_batched (array_bytes_codec self) chunk_specs)
          with
          | Raise e => Raise e
          | Ok (chunk_bytes_batch, _) => Ok chunk_bytes_batch
          end
      end
  end.

(** The array object [r] is live in [w]. *)
Definition valid (w : World) (r : ndarray) : Prop := base r < length (heap w).

(** The contents of a batch of optional array objects. *)
Definition contents (w : World) (batch : list (option ndarray)) : list (option Arr) :=
  map (fmap (peek w)) batch.

(** The array object, if any, was created between [w] and [w']. *)
Definition fresh_since (w w' : World) (r : option ndarray) : Prop :=
  match r with
  | Some r => length (heap w) ≤ base r ∧ base r < length (heap w')
  | None => True
  end.

(** The calls logged by a loop whose body logs one call and may raise. *)
Fixpoint fold_trace {A B} (f : B -> A -> result B) (ev : B -> A -> Event)
    (l : list A) (acc : B) : list Event :=
  match l with
  | [] => []
  | x :: l' =>
      ev acc x
      :: match f acc x with
         | Ok acc' => fold_trace f ev l' acc'
         | Raise _ => []
         end
  end.

(** A batch of array objects with specs, read in [w]. *)
Definition with_contents (w : World) (batch : list (option ndarray * ArraySpec))
  : list (option Arr * ArraySpec) :=
  map (fun '(chunk_array, chunk_spec) => (peek w <$> chunk_array, chunk_spec)) batch.

(** What [_merge_chunk_array] writes the new slice into when the chunk
    selection is not total: a buffer of the chunk shape filled with the fill
    value when there is no existing chunk, the content of the existing chunk
    otherwise. *)
Definition merge_source (w : World) (existing_chunk_array : option ndarray)
    (chunk_spec : ArraySpec) : Arr :=
  match existing_chunk_array with
  | None =>
      arr_fill (np_empty (spec_shape chunk_spec) (spec_dtype chunk_spec))
        (spec_fill_value chunk_spec)
  | Some existing_chunk_array => peek w existing_chunk_array
  end.

(** The merged chunk array of one batch item: [w] is the world before the
    merge of the batch, [w'] the world after it. *)
Definition merged_as (w w' : World) (value : ndarray)
    (item : option ndarray * BatchItem) (chunk_array : ndarray) : Prop :=
  let '(existing_chunk_array, (_, chunk_spec, chunk_selection, out_selection)) :=
    item in
  if is_total_slice chunk_selection (spec_shape chunk_spec) then
    chunk_array = subscript value out_selection
  else
    length (heap w) ≤ base chunk_array
    ∧ base chunk_array < length (heap w')
    ∧ view chunk_array = []
    ∧ peek w' chunk_array
      = arr_setitem (merge_source w existing_chunk_array chunk_spec)
          chunk_selection (arr_getitem (peek w value) out_selection).

(** Two batches have [None] at the same positions. *)
Definition same_none {A B} (xs : list (option A)) (ys : list (option B)) : Prop :=
  Forall2 (fun x y => is_Some y ↔ is_Some x) xs ys.

(** The batch contract of the codec interface: a batch function returns a
    result for every chunk it is given, [None] exactly for the [None]
    chunks. *)
Definition honours_none {A B}
    (f : list (option A * ArraySpec) -> result (list (option B))) : Prop :=
  ∀ batch, ∃ out, f batch = Ok out ∧ same_none (map fst batch) out.

Definition decoders_honour_none (self : BatchedCodecPipeline) : Prop :=
  Forall (fun codec => honours_none (aa_decode_batch codec)) (array_array_codecs self)
  ∧ honours_none (ab_decode_batch (array_bytes_codec self))
  ∧ Forall (fun codec => honours_none (bb_decode_batch codec)) (bytes_bytes_codecs self).

Definition encoders_honour_none (self : BatchedCodecPipeline) : Prop :=
  Forall (fun codec => honours_none (aa_encode_batch codec)) (array_array_codecs self)
  ∧ honours_none (ab_encode_batch (array_bytes_codec self))
  ∧ Forall (fun codec => honours_none (bb_encode_batch codec)) (bytes_bytes_codecs self).

(** The bytes handed to [decode_batched] by the read-modify-write path:
    [None] for an item whose chunk selection is a total slice, what the
    store holds at the key otherwise. *)
Definition existing_bytes (w : World) (item : BatchItem) : option BytesLike :=
  let '(store_path, chunk_spec, chunk_selection, _) := item in
  if is_total_slice chunk_selection (spec_shape chunk_spec) then None
  else store w !! store_path.

(** The [get] issued for an item by the read-modify-write path, if any. *)
Definition existing_get (item : BatchItem) : option Event :=
  let '(store_path, chunk_spec, chunk_selection, _) := item in
  if is_total_slice chunk_selection (spec_shape chunk_spec) then None
  else Some (StoreGet store_path).

(** The spec of a batch item, and its key. *)
Definition item_spec (item : BatchItem) : ArraySpec :=
  let '(_, chunk_spec, _, _) := item in chunk_spec.

Definition item_key (item : BatchItem) : StorePath :=
  let '(store_path, _, _, _) := item in store_path.

(** Fill-value elision of one merged chunk array, read in [w]. *)
Definition elided (w : World) (item : ndarray * BatchItem) : option ndarray :=
  let '(chunk_array, (_, chunk_spec, _, _)) := item in
  if arr_all_eq (peek w chunk_array) (spec_fill_value chunk_spec)
  then None else Some chunk_array.

(** The store operation [_write_key] issues for one item, and its effect
    on the store. *)
Definition write_op (item : option BytesLike * BatchItem) : Event :=
  let '(chunk_bytes, (store_path, _, _, _)) := item in
  match chunk_bytes with
  | None => StoreDelete store_path
  | Some chunk_bytes => StoreSet store_path chunk_bytes
  end.

Definition apply_write (st : gmap string BytesLike)
    (item : option BytesLike * BatchItem) : gmap string BytesLike :=
  let '(chunk_bytes, (store_path, _, _, _)) := item in
  match chunk_bytes with
  | None => delete store_path st
  | Some chunk_bytes => <[store_path := chunk_bytes]> st
  end.

(** The statements of the read-modify-write path up to the merge. *)
Definition rmw_merged (self : BatchedCodecPipeline) (batch_info : list BatchItem)
    (value : Value) (runtime_configuration : RuntimeConfiguration)
  : M (list ndarray) :=
  let* chunk_bytes_batch :=
    rmw_chunk_bytes_batch batch_info runtime_configuration in
  let* chunk_array_batch := rmw_decode self batch_info chunk_bytes_batch in
  rmw_merge batch_info value chunk_array_batch.

(** What [read_batched] assigns into the output for one decoded chunk, as
    a change of the output buffer: [out[out_selection] =
    chunk[chunk_selection]], or the fill value when the chunk is [None].
    [path] is the view through which [out] sees its buffer. *)
Definition assign_out (path : list Sel) (buffer : Arr)
    (item : option Arr * BatchItem) : Arr :=
  let '(chunk, (_, chunk_spec, chunk_selection, out_selection)) := item in
  update_view path
    (fun a =>
       match chunk with
       | Some chunk => arr_setitem a out_selection (arr_getitem chunk chunk_selection)
       | None => arr_setitem_scalar a out_selection (spec_fill_value chunk_spec)
       end)
    buffer.

(** The same on the partial-decode path, where the codec returns the
    selected region itself. *)
Definition assign_out_partial (path : list Sel) (buffer : Arr)
    (item : option Arr * BatchItem) : Arr :=
  let '(chunk, (_, chunk_spec, _, out_selection)) := item in
  update_view path
    (fun a =>
       match chunk with
       | Some chunk => arr_setitem a out_selection chunk
       | None => arr_setitem_scalar a out_selection (spec_fill_value chunk_spec)
       end)
    buffer.


(** ** Codecs that lose nothing

    A codec is lossless when its [decode_batch], given what its
    [encode_batch] returned together with the specs [encode_batch] was
    given, returns the chunks that were encoded.  Real codecs promise this
    for chunks that fit the spec only; [good] is that condition. *)

(** The chunks of a batch that are present satisfy [good] with their
    specs, one spec per chunk. *)
Definition conforming (good : Arr -> ArraySpec -> Prop)
    (batch : list (option Arr)) (chunk_specs : list ArraySpec) : Prop :=
  Forall2
    (fun chunk chunk_spec => from_option (fun a => good a chunk_spec) True chunk)
    batch chunk_specs.

(** An array-array codec hands conforming chunks to the next stage, under
    the specs it resolves. *)
Definition aa_lossless (good : Arr -> ArraySpec -> Prop) (codec : ArrayArrayCodec)
  : Prop :=
  ∀ batch chunk_specs out,
    conforming good batch chunk_specs ->
    aa_encode_batch codec (combine batch chunk_specs) = Ok out ->
    conforming good out (map (aa_resolve_metadata codec) chunk_specs)
    ∧ aa_decode_batch codec (combine out chunk_specs) = Ok batch.

Definition ab_lossless (good : Arr -> ArraySpec -> Prop) (codec : ArrayBytesCodec)
  : Prop :=
  ∀ batch chunk_specs out,
    conforming good batch chunk_specs ->
    ab_encode_batch codec (combine batch chunk_specs) = Ok out ->
    length out = length batch
    ∧ ab_decode_batch codec (combine out chunk_specs) = Ok batch.

Definition bb_lossless (codec : BytesBytesCodec) : Prop :=
  ∀ batch chunk_specs out,
    length batch = length chunk_specs ->
    bb_encode_batch codec (combine batch chunk_specs) = Ok out ->
    length out = length batch
    ∧ bb_decode_batch codec (combine out chunk_specs) = Ok batch.

Definition lossless (good : Arr -> ArraySpec -> Prop) (self : BatchedCodecPipeline)
  : Prop :=
  Forall (aa_lossless good) (array_array_codecs self)
  ∧ ab_lossless good (array_bytes_codec self)
  ∧ Forall bb_lossless (bytes_bytes_codecs self).

(** The chunk arrays [write_batched] hands to [encode_batched]: the merged
    arrays after fill-value elision, read in [w]. *)
Definition written_chunks (w : World) (merged : list ndarray)
    (batch_info : list BatchItem) : list (option Arr) :=
  contents w (map (elided w) (combine merged batch_info)).

(** [value], as passed to [setitem] or [write_batched], is live if it is
    an array object. *)
Definition live_value (w : World) (value : Value) : Prop :=
  match value with
  | VArray a => valid w a
  | _ => True
  end.

(** A logged [get], and the key of a logged store operation. *)
Definition is_store_get (e : Event) : bool :=
  match e with
  | StoreGet _ => true
  | _ => false
  end.

Definition event_key (e : Event) : option StorePath :=
  match e with
  | StoreGet key | StoreSet key _ | StoreDelete key => Some key
  | _ => None
  end.

(** What the read-modify-write path hands to [decode_batched]: for every
    item what [existing_bytes] gives, with the chunk spec of the item. *)
Definition decode_input (w : World) (batch_info : list BatchItem)
  : list (option BytesLike * ArraySpec) :=
  map (fun item => (existing_bytes w item, item_spec item)) batch_info.

(** What the path hands to [encode_batched] after the merge, with the
    contents of the arrays: the merged arrays, [None] for those that
    [elided] drops, with the chunk specs of their items. *)
Definition encode_input (w : World) (merged : list ndarray)
    (batch_info : list BatchItem) : list (option Arr * ArraySpec) :=
  with_contents w
    (map (fun '(chunk_array, (_, chunk_spec, _, _)) => (chunk_array, chunk_spec))
       (combine (map (elided w) (combine merged batch_info)) batch_info)).

(** A batch function that may raise, and that returns [None] exactly for
    the [None] chunks whenever it returns. *)
Definition keeps_none {A B}
    (f : list (option A * ArraySpec) -> result (list (option B))) : Prop :=
  ∀ batch out, f batch = Ok out -> same_none (map fst batch) out.

Definition decoders_keep_none (self : BatchedCodecPipeline) : Prop :=
  Forall (fun codec => keeps_none (aa_decode_batch codec)) (array_array_codecs self)
  ∧ keeps_none (ab_decode_batch (array_bytes_codec self))
  ∧ Forall (fun codec => keeps_none (bb_decode_batch codec)) (bytes_bytes_codecs self).
End Reference.

Section ArrayReference.

Context {np : NumPy} {ix : Indexing} {doc : MetadataDocument}.

(** The store key of the chunk at [chunk_coords], and of the metadata
    document. *)
Definition chunk_key (self : AsyncArray) (chunk_coords : ChunkCoords) : StorePath :=
  sp_div (store_path self)
    (encode_chunk_key (chunk_key_encoding (metadata self)) chunk_coords).

Definition metadata_key (self : AsyncArray) : StorePath :=
  sp_div (store_path self) ZARR_JSON.

(** The chunk coordinates of an array of the given shape, as [resize]
    collects them. *)
Definition grid_coords (shape chunk_shape : ChunkCoords) : gset ChunkCoords :=
  list_to_set (all_chunk_coords shape chunk_shape).

(** [key] is a chunk key present in the store: a key of the store, other
    than the metadata key, that is the key of some chunk coordinate. *)
Definition chunk_key_present (self : AsyncArray) (w : World) (key : StorePath)
  : Prop :=
  key ∈ dom (store w)
  ∧ key ≠ metadata_key self
  ∧ ∃ chunk_coords, key = chunk_key self chunk_coords.

(** [key] is the key of a chunk coordinate of an array of the given shape. *)
Definition chunk_key_within (self : AsyncArray) (shape chunk_shape : ChunkCoords)
    (key : StorePath) : Prop :=
  ∃ chunk_coords,
    chunk_coords ∈ grid_coords shape chunk_shape ∧ key = chunk_key self chunk_coords.

(** The last sentence of the claim on [resize], for one array, new shape
    and world: after the call every chunk key present is the key of a chunk
    coordinate of the new shape. *)
Definition resize_leaves_new_chunks_only (self : AsyncArray) (new_shape : ChunkCoords)
    (w : World) : Prop :=
  ∀ self' w' chunk_shape,
    resize self new_shape true w = (Ok self', w') ->
    chunk_grid (metadata self) = RegularChunkGrid chunk_shape ->
    ∀ key, chunk_key_present self' w' key ->
           chunk_key_within self' new_shape chunk_shape key.


(** The last sentence of the claim on the elision of fill-value chunks,
    for one array, selection, value and world: after the [setitem] no key
    of a chunk that the indexer yields for the selection is present. *)
Definition setitem_leaves_no_chunk_key (self : AsyncArray) (selection : Selection)
    (value : Value) (w : World) : Prop :=
  ∀ chunk_shape indexer,
    chunk_grid (metadata self) = RegularChunkGrid chunk_shape ->
    BasicIndexer selection (md_shape (metadata self)) chunk_shape = Ok indexer ->
    ∀ item : ChunkCoords * Sel * Sel,
      item ∈ indexer_items indexer ->
      store (setitem self selection value w).2 !! chunk_key self item.1.1 = None.

End ArrayReference.

(** * Construction of arrays, and the synchronous [Array]

    The rest of [array.py]: [parse_array_metadata], the constructor of
    [AsyncArray], [create], [from_dict], [open], and the [Array] class that
    runs the coroutines of [AsyncArray] to completion. *)

Section Construction.

Context {np : NumPy} {ix : Indexing} {doc : MetadataDocument}.

(** Code of the repository outside the two files that [create] and [open]
    go through, and [json.loads]: taken as parameters.  What may raise
    returns a [result]. *)
Class Collaborators : Type := {
  (* what a caller may pass as store *)
  StoreLike : Type;
  (* zarr.v3.store.make_store_path *)
  make_store_path : StoreLike -> result StorePath;
  (* a JSON object as json.loads returns it *)
  Dict : Type;
  json_loads : BytesLike -> result Dict;
  (* ArrayMetadata.from_dict *)
  metadata_from_dict : Dict -> result ArrayMetadata;
  (* what a caller may pass as dtype, as fill value, as codec *)
  DTypeLike : Type;
  FillLike : Type;
  CodecLike : Type;
  (* dtype == np.dtype("bool") *)
  dtype_is_bool : DTypeLike -> bool;
  (* the Python values False and 0 *)
  py_False : FillLike;
  py_zero : FillLike;
  (* BytesCodec() *)
  BytesCodec : CodecLike;
  (* V2ChunkKeyEncoding(separator=...), DefaultChunkKeyEncoding(separator=...) *)
  V2ChunkKeyEncoding : string -> result ChunkKeyEncoding;
  DefaultChunkKeyEncoding : string -> result ChunkKeyEncoding;
  (* ArrayMetadata(shape=..., data_type=..., chunk_grid=...,
     chunk_key_encoding=..., fill_value=..., codecs=..., dimension_names=...,
     attributes=...) *)
  ArrayMetadata_new :
    ChunkCoords -> DTypeLike -> ChunkGrid -> ChunkKeyEncoding -> FillLike ->
    list CodecLike -> option (list string) -> list (string * string) ->
    result ArrayMetadata;
}.

Context {ext : Collaborators}.

(** What a caller may pass as [metadata] to the constructor of
    [AsyncArray]: an [ArrayMetadata], a [dict], or something else. *)
Inductive MetadataLike : Type :=
| MdObject (metadata : ArrayMetadata)
| MdDict (data : Dict)
| MdOther.

Definition parse_array_metadata (data : MetadataLike) : result ArrayMetadata :=
  match data with
  | MdObject metadata => Ok metadata
  | MdDict data => metadata_from_dict data
  | MdOther => Raise TypeError
  end.

(** [AsyncArray.__init__] *)
Definition AsyncArray__init__ (metadata : MetadataLike) (store_path : StorePath)
    (runtime_configuration : RuntimeConfiguration) : result AsyncArray :=
  match parse_array_metadata metadata with
  | Ok metadata_parsed =>
      Ok {| metadata := metadata_parsed;
            store_path := store_path;
            runtime_configuration := runtime_configuration |}
  | Raise e => Raise e
  end.

(** [StorePath.exists]: whether the key holds a value.  It reads the store
    and changes nothing; the log, which records [get], [set] and [delete],
    has no entry for it. *)
Definition store_exists (key : StorePath) : M bool :=
  fun w => (Ok (bool_decide (is_Some (store w !! key))), w).

(** [AsyncArray.create].  The keyword arguments with a [None] default are
    options; [runtime_configuration] is a [RuntimeConfiguration], which is
    never false, so that [runtime_configuration or RuntimeConfiguration()]
    is [runtime_configuration]; [dimension_names] is a list, which is false
    when empty. *)
Definition create (store : StoreLike) (shape : ChunkCoords) (dtype : DTypeLike)
    (chunk_shape : ChunkCoords) (fill_value : option FillLike)
    (chunk_key_encoding : string * string) (codecs : option (list CodecLike))
    (dimension_names : option (list string))
    (attributes : option (list (string * string)))
    (runtime_configuration : RuntimeConfiguration) (exists_ok : bool)
  : M AsyncArray :=
  let* store_path := lift (make_store_path store) in
  (if negb exists_ok then
     let* present := store_exists (sp_div store_path ZARR_JSON) in
     if present then raise AssertionError else ret tt
   else ret tt) ;;
  let codecs :=
    match codecs with
    | Some codecs => codecs
    | None => [BytesCodec]
    end in
  let fill_value :=
    match fill_value with
    | Some fill_value => fill_value
    | None => if dtype_is_bool dtype then py_False else py_zero
    end in
  let* chunk_key_encoding :=
    lift
      (if String.eqb chunk_key_encoding.1 "v2"
       then V2ChunkKeyEncoding chunk_key_encoding.2
       else DefaultChunkKeyEncoding chunk_key_encoding.2) in
  let* metadata :=
    lift
      (ArrayMetadata_new shape dtype (RegularChunkGrid chunk_shape)
         chunk_key_encoding fill_value codecs
         (match dimension_names with
          | Some (name :: names) => Some (name :: names)
          | _ => None
          end)
         (match attributes with
          | Some attributes => attributes
          | None => []
          end)) in
  let* array :=
    lift (AsyncArray__init__ (MdObject metadata) store_path runtime_configuration) in
  _save_metadata array ;;
  ret array.

(** [AsyncArray.from_dict] *)
Definition from_dict (store_path : StorePath) (data : Dict)
    (runtime_configuration : RuntimeConfiguration) : result AsyncArray :=
  match metadata_from_dict data with
  | Ok metadata =>
      AsyncArray__init__ (MdObject metadata) store_path runtime_configuration
  | Raise e => Raise e
  end.

(** [AsyncArray.open] *)
Definition open (store : StoreLike) (runtime_configuration : RuntimeConfiguration)
  : M AsyncArray :=
  let* store_path := lift (make_store_path store) in
  let* zarr_json_bytes := store_get (sp_div store_path ZARR_JSON) in
  match zarr_json_bytes with
  | None => raise AssertionError
  | Some zarr_json_bytes =>
      let* data := lift (json_loads zarr_json_bytes) in
      lift (from_dict store_path data runtime_configuration)
  end.

(** ** The synchronous [Array] *)

Record Array : Type := {
  _async_array : AsyncArray;
}.

(** Modelled from the spec: [zarr.v3.sync.sync] runs the coroutine to
    completion on the executor of the runtime configuration and hands back
    its result or its exception. *)
Definition sync {A} (coroutine : M A) : M A := coroutine.

(** [Array.create] *)
Definition Array_create (store : StoreLike) (shape : ChunkCoords) (dtype : DTypeLike)
    (chunk_shape : ChunkCoords) (fill_value : option FillLike)
    (chunk_key_encoding : string * string) (codecs : option (list CodecLike))
    (dimension_names : option (list string))
    (attributes : option (list (string * string)))
    (runtime_configuration : RuntimeConfiguration) (exists_ok : bool)
  : M Array :=
  let* async_array :=
    sync
      (create store shape dtype chunk_shape fill_value chunk_key_encoding codecs
         dimension_names attributes runtime_configuration exists_ok) in
  ret {| _async_array := async_array |}.

(** [Array.from_dict] *)
Definition Array_from_dict (store_path : StorePath) (data : Dict)
    (runtime_configuration : RuntimeConfiguration) : result Array :=
  match from_dict store_path data runtime_configuration with
  | Ok async_array => Ok {| _async_array := async_array |}
  | Raise e => Raise e
  end.

(** [Array.open] *)
Definition Array_open (store : StoreLike)
    (runtime_configuration : RuntimeConfiguration) : M Array :=
  let* async_array := sync (open store runtime_configuration) in
  ret {| _async_array := async_array |}.

(** [Array.__getitem__] *)
Definition Array_getitem (self : Array) (selection : Selection) : M Value :=
  sync (getitem (_async_array self) selection).

(** [Array.__setitem__] *)
Definition Array_setitem (self : Array) (selection : Selection) (value : Value)
  : M unit :=
  sync (setitem (_async_array self) selection value).

(** [Array.resize]: the flag [delete_outside_chunks] keeps its default.
    The result of the coroutine is returned as it is. *)
Definition Array_resize (self : Array) (new_shape : ChunkCoords) : M AsyncArray :=
  sync (resize (_async_array self) new_shape true).

(** [Array.update_attributes] *)
Definition Array_update_attributes (self : Array)
    (new_attributes : list (string * string)) : M AsyncArray :=
  sync (update_attributes (_async_array self) new_attributes).

(** A call of the synchronous class that replaces the metadata. *)
Inductive Update : Type :=
| Resize (new_shape : ChunkCoords)
| UpdateAttributes (new_attributes : list (string * string)).

Definition apply_update (array : AsyncArray) (update : Update) : M AsyncArray :=
  match update with
  | Resize new_shape => Array_resize {| _async_array := array |} new_shape
  | UpdateAttributes new_attributes =>
      Array_update_attributes {| _async_array := array |} new_attributes
  end.

(** Every chunk key present in the store is the key of a chunk coordinate
    of the shape of the array. *)
Definition chunk_keys_within_shape (self : AsyncArray) (w : World) : Prop :=
  ∀ chunk_shape,
    chunk_grid (metadata self) = RegularChunkGrid chunk_shape ->
    ∀ key, chunk_key_present self w key ->
           chunk_key_within self (md_shape (metadata self)) chunk_shape key.

(** The metadata document in the store is the one of the array. *)
Definition metadata_stored (self : AsyncArray) (w : World) : Prop :=
  store w !! metadata_key self = Some (to_bytes (metadata self)).

End Construction.

(** ** A concrete instance: one-dimensional integer arrays

    Used to run the model on the scenarios of the specification and to
    exhibit inputs for the theorems below. *)

Module Demo.

Inductive dtype : Type := int32 | uint8.

(** The content of a one-dimensional array: its dtype and its elements. *)
Definition arr : Type := dtype * list Z.

(** A selection is a tuple of slices [(start, stop)], one per dimension. *)
Definition sel : Type := list (nat * nat).

Definition size_of (shape : ChunkCoords) : nat := fold_right Nat.mul 1 shape.

Definition getitem1 (a : arr) (s : sel) : arr :=
  match s with
  | [] => a
  | (start, stop) :: _ => (a.1, take (stop - start) (drop start a.2))
  end.

Definition setitem1 (a : arr) (s : sel) (src : list Z) : arr :=
  match s with
  | [] => (a.1, src)
  | (start, stop) :: _ => (a.1, take start a.2 ++ src ++ drop stop a.2)
  end.

Definition span (s : sel) (a : arr) : nat :=
  match s with
  | [] => length a.2
  | (start, stop) :: _ => stop - start
  end.

#[export] Instance numpy : NumPy := {|
  Elem := Z;
  Arr := arr;
  DType := dtype;
  Sel := sel;
  ArrayLike := list Z;
  Arr_inhabited := populate (int32, []);
  np_empty shape dt := (dt, replicate (size_of shape) (-1)%Z);
  np_zeros shape dt _ := (dt, replicate (size_of shape) 0%Z);
  np_asarray l dt := (dt, l);
  arr_shape a := [length a.2];
  arr_dtype a := a.1;
  dtype_name dt := match dt with int32 => "int32" | uint8 => "uint8" end;
  arr_astype a dt := (dt, a.2);
  arr_fill a x := (a.1, replicate (length a.2) x);
  arr_getitem := getitem1;
  arr_setitem a s src := setitem1 a s src.2;
  arr_setitem_scalar a s x := setitem1 a s (replicate (span s a) x);
  arr_all_eq a x := forallb (Z.eqb x) a.2;
  arr_item a := hd 0%Z a.2;
|}.

Definition ceildiv (a b : nat) : nat := (a + b - 1) / b.

(** Modelled from the spec: [all_chunk_coords] enumerates every chunk
    coordinate, a tuple of non-negative integers bounded per dimension by
    the ceiling of [shape_i / chunk_shape_i]. *)
Fixpoint grid (counts : list nat) : list ChunkCoords :=
  match counts with
  | [] => [[]]
  | n :: counts' => flat_map (fun i => map (cons i) (grid counts')) (seq 0 n)
  end.

(** Modelled from the spec: the indexer over one dimension.  For the chunk
    [k], spanning [k*C, (k+1)*C), the chunk selection is
    [max(start, k*C) - k*C, min(stop, (k+1)*C) - k*C) and the out selection
    is [max(start, k*C) - start, min(stop, (k+1)*C) - start). *)
Definition basic_indexer (selection : nat * nat) (shape chunk_shape : ChunkCoords)
  : result Indexer :=
  let '(start, stop) := selection in
  match shape, chunk_shape with
  | [n], [c] =>
      if bool_decide (start ≤ stop ∧ stop ≤ n ∧ 0 < c) then
        let first := start / c in
        let count := if bool_decide (start < stop) then (stop - 1) / c - first + 1 else 0 in
        Ok {| indexer_shape := [stop - start];
              indexer_items :=
                map
                  (fun k =>
                     ([k],
                      [(start `max` (k * c) - k * c, stop `min` ((k + 1) * c) - k * c)],
                      [(start `max` (k * c) - start, stop `min` ((k + 1) * c) - start)]))
                  (seq first count) |}
      else Raise IndexError
  | _, _ => Raise IndexError
  end.

#[export] Instance indexing : Indexing := {|
  Selection := nat * nat;
  (* Modelled from the spec: a total slice covers [0, C_i) on every
     dimension. *)
  is_total_slice s chunk_shape :=
    bool_decide (s = map (fun c => (0, c)) chunk_shape);
  BasicIndexer := basic_indexer;
  all_chunk_coords shape chunk_shape :=
    grid (zip_with ceildiv shape chunk_shape);
  (* Modelled from the spec: composition appends a relative segment. *)
  sp_div root key := if String.eqb root "" then key else root +:+ "/" +:+ key;
|}.

Definition dec (n : nat) : string := NilEmpty.string_of_uint (Nat.to_uint n).

(** Modelled from the spec: the default chunk key encoding with separator
    [/], that is [c/i0/i1...]; a scalar array has the key [c]. *)
Definition default_encoding : ChunkKeyEncoding :=
  {| encode_chunk_key coords :=
       fold_left (fun key i => key +:+ "/" +:+ dec i) coords "c" |}.

Definition byte_of_Z (z : Z) : byte :=
  default x00 (Byte.of_N (Z.to_N (z `mod` 256))).

Definition Z_of_byte (b : byte) : Z := Z.of_N (Byte.to_N b).

(** A batch function that handles each chunk on its own and passes [None]
    through. *)
Definition per_chunk {A B} (f : A -> ArraySpec -> B)
    (batch : list (option A * ArraySpec)) : result (list (option B)) :=
  Ok (map (fun '(chunk, chunk_spec) => (fun x => f x chunk_spec) <$> chunk) batch).

(** The bytes codec on one-byte elements. *)
Definition bytes_codec : ArrayBytesCodec :=
  {| ab_name := "bytes";
     ab_resolve_metadata := id;
     ab_encode_batch := per_chunk (fun (a : arr) _ => map byte_of_Z a.2);
     ab_decode_batch :=
       per_chunk (fun (b : BytesLike) chunk_spec =>
                    (spec_dtype chunk_spec, map Z_of_byte b));
     ab_decode_partial_batched := None;
     ab_encode_partial_batched := None |}.

(** An array-array codec that stores the elements in reverse order and
    tells the next stage so by a change of dtype in the spec. *)
Definition flip_codec : ArrayArrayCodec :=
  {| aa_name := "flip";
     aa_resolve_metadata chunk_spec :=
       {| spec_shape := spec_shape chunk_spec;
          spec_dtype := uint8;
          spec_fill_value := spec_fill_value chunk_spec |};
     aa_encode_batch := per_chunk (fun (a : arr) _ => (a.1, rev a.2));
     aa_decode_batch := per_chunk (fun (a : arr) _ => (a.1, rev a.2)) |}.

(** A bytes-bytes codec that appends a marker byte. *)
Definition mark_codec : BytesBytesCodec :=
  {| bb_name := "mark";
     bb_resolve_metadata := id;
     bb_encode_batch := per_chunk (fun (b : BytesLike) _ => b ++ [xff]);
     bb_decode_batch := per_chunk (fun (b : BytesLike) _ => take (length b - 1) b) |}.

(** An array-bytes codec with both mixins: it reads and writes the chunk
    at the store path by itself. *)
Definition partial_decode_one (item : StorePath * sel * ArraySpec)
  : M (option ndarray) :=
  let '(key, chunk_selection, chunk_spec) := item in
  let* chunk_bytes := store_get key in
  match chunk_bytes with
  | None => ret None
  | Some b =>
      let* chunk := alloc ((spec_dtype chunk_spec, map Z_of_byte b) : Arr) in
      ret (Some (subscript chunk chunk_selection))
  end.

Definition partial_encode_one (item : StorePath * ndarray * sel * ArraySpec)
  : M unit :=
  let '(key, chunk_slice, chunk_selection, chunk_spec) := item in
  let* chunk_bytes := store_get key in
  let* content := load chunk_slice in
  let old : arr :=
    match chunk_bytes with
    | None =>
        (spec_dtype chunk_spec,
         replicate (size_of (spec_shape chunk_spec)) (spec_fill_value chunk_spec))
    | Some b => (spec_dtype chunk_spec, map Z_of_byte b)
    end in
  store_set key (map byte_of_Z (setitem1 old chunk_selection content.2).2).

Definition shard_codec : ArrayBytesCodec :=
  {| ab_name := "shard";
     ab_resolve_metadata := id;
     ab_encode_batch := ab_encode_batch bytes_codec;
     ab_decode_batch := ab_decode_batch bytes_codec;
     ab_decode_partial_batched := Some (mapM partial_decode_one);
     ab_encode_partial_batched :=
       Some (fun batch => mapM partial_encode_one batch ;; ret tt) |}.

(** The default codec list. *)
Definition default_pipeline : BatchedCodecPipeline :=
  {| array_array_codecs := [];
     array_bytes_codec := bytes_codec;
     bytes_bytes_codecs := [] |}.

Definition full_pipeline : BatchedCodecPipeline :=
  {| array_array_codecs := [flip_codec];
     array_bytes_codec := bytes_codec;
     bytes_bytes_codecs := [mark_codec] |}.

Definition shard_pipeline : BatchedCodecPipeline :=
  {| array_array_codecs := [];
     array_bytes_codec := shard_codec;
     bytes_bytes_codecs := [] |}.

#[export] Instance document : MetadataDocument := {|
  to_bytes md := map (fun n => byte_of_Z (Z.of_nat n)) (md_shape md);
|}.

Definition rc : RuntimeConfiguration := {| rc_order := OrderC; rc_concurrency := 10 |}.

(** An array of the given shape and chunk shape at the store path
    [a]. *)
Definition array_of (pipeline : BatchedCodecPipeline) (shape chunk_shape : ChunkCoords)
  : AsyncArray :=
  {| metadata :=
       {| md_shape := shape;
          md_dtype := uint8;
          chunk_grid := RegularChunkGrid chunk_shape;
          chunk_key_encoding := default_encoding;
          md_fill_value := 0%Z;
          md_codecs := pipeline;
          dimension_names := None;
          attributes := [] |};
     store_path := "a";
     runtime_configuration := rc |}.

(** A world with an empty store and the given array buffers. *)
Definition world_of (buffers : list arr) : World :=
  {| store := ∅; heap := buffers; log := [] |}.

(** The array object on buffer [n]. *)
Definition buf (n : nat) : ndarray := {| base := n; view := [] |}.


(** The worlds and batches of the examples. *)

(** A store holding the two chunks of an array of shape [4] filled with
    ones, and a heap with buffers for a value of ones, a value of zeros and
    an output of shape [4]. *)
Definition ones : arr := (uint8, [1; 1; 1; 1]%Z).

Definition zeros : arr := (uint8, [0; 0; 0; 0]%Z).

Definition stored : World :=
  {| store := <["a/c/0" := [x01; x01]]> (<["a/c/1" := [x01; x01]]> ∅);
     heap := [ones; zeros; zeros];
     log := [] |}.

(** The array of shape [4] with chunks of shape [2]. *)
Definition a4 (pipeline : BatchedCodecPipeline) : AsyncArray :=
  array_of pipeline [4] [2].

(** The batch of the selection [1:4] on it: the chunk [0] is covered in
    part, the chunk [1] entirely. *)
Definition batch_1_4 : list BatchItem :=
  match basic_indexer (1, 4) [4] [2] with
  | Ok indexer => batch_info_of (a4 default_pipeline) indexer
  | Raise _ => []
  end.

(** The batch of the selection [0:4]: both chunks are covered entirely. *)
Definition batch_0_4 : list BatchItem :=
  match basic_indexer (0, 4) [4] [2] with
  | Ok indexer => batch_info_of (a4 default_pipeline) indexer
  | Raise _ => []
  end.

(** The spec of a chunk of shape [2], before and after the flip codec. *)
Definition spec_int32 : ArraySpec :=
  {| spec_shape := [2]; spec_dtype := int32; spec_fill_value := 0%Z |}.

Definition spec_uint8 : ArraySpec :=
  {| spec_shape := [2]; spec_dtype := uint8; spec_fill_value := 0%Z |}.

(** The store of [stored] after a [resize] that only sets the metadata
    key. *)
Definition kept : World :=
  {| store := <["a/zarr.json" := [x02]]> (store stored);
     heap := heap stored;
     log := [StoreSet "a/zarr.json" [x02]] |}.


(** Chunks the codecs of the instance encode without loss: arrays of dtype
    [uint8], under a spec of that dtype, with elements that fit a byte. *)
Definition fits_uint8 (a : Arr) (chunk_spec : ArraySpec) : Prop :=
  arr_dtype a = uint8
  ∧ spec_dtype chunk_spec = uint8
  ∧ Forall (fun z => 0 ≤ z < 256)%Z (a : arr).2.

(** An array whose chunk grid is not regular. *)
Definition irregular : AsyncArray :=
  {| metadata :=
       {| md_shape := [4];
          md_dtype := uint8;
          chunk_grid := OtherChunkGrid;
          chunk_key_encoding := default_encoding;
          md_fill_value := 0%Z;
          md_codecs := default_pipeline;
          dimension_names := None;
          attributes := [] |};
     store_path := "a";
     runtime_configuration := rc |}.

(** The collaborators of [create] and [open] for the arrays of the
    instance.  A store is named by its path; the codec list is one
    array-bytes codec; the parser reads the shape back from the document of
    [document] and knows the rest. *)
#[export] Instance collaborators : Collaborators := {|
  StoreLike := string;
  make_store_path path := Ok path;
  Dict := list nat;
  json_loads b := Ok (map (fun x => N.to_nat (Byte.to_N x)) b);
  metadata_from_dict shape := Ok (metadata (array_of default_pipeline shape [2]));
  DTypeLike := dtype;
  FillLike := Z;
  CodecLike := ArrayBytesCodec;
  dtype_is_bool _ := false;
  py_False := 0%Z;
  py_zero := 0%Z;
  BytesCodec := bytes_codec;
  V2ChunkKeyEncoding _ := Ok default_encoding;
  DefaultChunkKeyEncoding _ := Ok default_encoding;
  ArrayMetadata_new shape dt grid encoding fill codec_list names attrs :=
    match codec_list with
    | [codec] =>
        Ok {| md_shape := shape;
              md_dtype := dt;
              chunk_grid := grid;
              chunk_key_encoding := encoding;
              md_fill_value := fill;
              md_codecs := {| array_array_codecs := [];
                              array_bytes_codec := codec;
                              bytes_bytes_codecs := [] |};
              dimension_names := names;
              attributes := attrs |}
    | _ => Raise TypeError
    end;
|}.

(** The array that [create] makes with the defaults. *)
Definition created : result AsyncArray * World :=
  create "a" [4] uint8 [2] None ("default", "/") None None None rc false
    (world_of []).
End Demo.

(** * Properties *)

Section Properties.

Context {np : NumPy} {ix : Indexing} {doc : MetadataDocument}.

(** ** Running computations *)

Lemma bind_run {W A B} (m : Eff W A) (k : A -> Eff W B) (w : W) :
  bind m k w =
  match m w with
  | (Ok a, w') => k a w'
  | (Raise e, w') => (Raise e, w')
  end.
Proof. reflexivity. Qed.

Lemma bind_ok {W A B} (m : Eff W A) (k : A -> Eff W B) (w w' : W) (a : A) :
  m w = (Ok a, w') -> bind m k w = k a w'.
Proof. intros Hm. unfold bind. now rewrite Hm. Qed.

Lemma bind_raise {W A B} (m : Eff W A) (k : A -> Eff W B) (w w' : W) (e : PyError) :
  m w = (Raise e, w') -> bind m k w = (Raise e, w').
Proof. intros Hm. unfold bind. now rewrite Hm. Qed.

(** ** [unzip2] and the spec loops *)

Lemma unzip2_fold {T U} (l : list (T * U)) (out0 : list T) (out1 : list U) :
  fold_left
    (fun '(out0, out1) '(item0, item1) => (out0 ++ [item0], out1 ++ [item1]))
    l (out0, out1)
  = (out0 ++ map fst l, out1 ++ map snd l).
Proof.
  revert out0 out1.
  induction l as [|[item0 item1] l IH]; intros out0 out1; simpl.
  - now rewrite !app_nil_r.
  - rewrite IH. now rewrite <- !app_assoc.
Qed.

Lemma unzip2_map {T U} (l : list (T * U)) : unzip2 l = (map fst l, map snd l).
Proof. unfold unzip2. now rewrite unzip2_fold. Qed.

Lemma codecs_with_spec_fold {C} `{Codec C} (codecs : list C)
    (acc : list (C * list ArraySpec)) (chunk_specs : list ArraySpec) :
  fold_left
    (fun '(codecs_with_spec, chunk_specs) codec =>
       (codecs_with_spec ++ [(codec, chunk_specs)],
        map (resolve_metadata codec) chunk_specs))
    codecs (acc, chunk_specs)
  = (acc ++ spec_chain codecs chunk_specs, resolve_all codecs chunk_specs).
Proof.
  revert acc chunk_specs.
  induction codecs as [|codec codecs IH]; intros acc chunk_specs; simpl.
  - now rewrite app_nil_r.
  - rewrite IH. now rewrite <- app_assoc.
Qed.

Lemma codecs_with_spec_loop_chain {C} `{Codec C} (codecs : list C)
    (chunk_specs : list ArraySpec) :
  codecs_with_spec_loop codecs chunk_specs
  = (spec_chain codecs chunk_specs, resolve_all codecs chunk_specs).
Proof. unfold codecs_with_spec_loop. now rewrite codecs_with_spec_fold. Qed.

(** The three parts of [_codecs_with_resolved_metadata_batched]. *)
Lemma resolved_metadata_parts (self : BatchedCodecPipeline)
    (chunk_specs : list ArraySpec) :
  _codecs_with_resolved_metadata_batched self chunk_specs
  = (spec_chain (array_array_codecs self) chunk_specs,
     (array_bytes_codec self, resolve_all (array_array_codecs self) chunk_specs),
     spec_chain (bytes_bytes_codecs self)
       (map (resolve_metadata (array_bytes_codec self))
          (resolve_all (array_array_codecs self) chunk_specs))).
Proof.
  unfold _codecs_with_resolved_metadata_batched.
  now rewrite !codecs_with_spec_loop_chain.
Qed.

Lemma spec_chain_fst {C} `{Codec C} (codecs : list C) (chunk_specs : list ArraySpec) :
  map fst (spec_chain codecs chunk_specs) = codecs.
Proof.
  revert chunk_specs. induction codecs as [|c codecs IH]; intros; simpl; [done|].
  now rewrite IH.
Qed.

Lemma spec_chain_length {C} `{Codec C} (codecs : list C) (chunk_specs : list ArraySpec) :
  length (spec_chain codecs chunk_specs) = length codecs.
Proof. now rewrite <- (spec_chain_fst codecs chunk_specs) at 2; rewrite length_map. Qed.


(** ** Array objects and the heap *)

Lemma through_app (path : list Sel) (sel : Sel) (a : Arr) :
  through (path ++ [sel]) a = arr_getitem (through path a) sel.
Proof. unfold through. now rewrite fold_left_app. Qed.

Lemma peek_subscript (w : World) (r : ndarray) (sel : Sel) :
  peek w (subscript r sel) = arr_getitem (peek w r) sel.
Proof. unfold peek, subscript; simpl. apply through_app. Qed.

(** Allocation leaves the content of live array objects alone. *)
Lemma peek_heap_app (w w' : World) (r : ndarray) (h : list Arr) :
  valid w r -> heap w' = heap w ++ h -> peek w' r = peek w r.
Proof.
  unfold valid, peek. intros Hr ->. now rewrite lookup_total_app_l.
Qed.

Lemma valid_heap_app (w w' : World) (r : ndarray) (h : list Arr) :
  valid w r -> heap w' = heap w ++ h -> valid w' r.
Proof. unfold valid. intros Hr ->. rewrite length_app. lia. Qed.

Lemma contents_length (w : World) (batch : list (option ndarray)) :
  length (contents w batch) = length batch.
Proof. unfold contents. apply length_map. Qed.

Lemma contents_heap_app (w w' : World) (batch : list (option ndarray))
    (h : list Arr) :
  Forall (fun r => from_option (valid w) True r) batch ->
  heap w' = heap w ++ h ->
  contents w' batch = contents w batch.
Proof.
  intros Hv Hh. unfold contents.
  induction Hv as [|[r|] batch Hr _ IH]; simpl; [done| |].
  - f_equal; [|exact IH]. simpl in Hr. now rewrite (peek_heap_app w w' r h).
  - now f_equal.
Qed.

Lemma mapM_load_opt (batch : list (option ndarray)) (w : World) :
  mapM load_opt batch w = (Ok (contents w batch), w).
Proof.
  induction batch as [|[r|] batch IH]; simpl; [done| |].
  - rewrite bind_run. simpl. rewrite bind_run. now rewrite IH.
  - rewrite bind_run. simpl. rewrite bind_run. now rewrite IH.
Qed.

Lemma mapM_alloc_opt (out : list (option Arr)) (w : World) :
  ∃ batch w',
    mapM alloc_opt out w = (Ok batch, w')
    ∧ store w' = store w
    ∧ log w' = log w
    ∧ heap w' = heap w ++ omap id out
    ∧ contents w' batch = out
    ∧ Forall (fresh_since w w') batch.
Proof.
  revert w. induction out as [|[a|] out IH]; intros w.
  - exists [], w. simpl. rewrite app_nil_r. repeat split; constructor.
  - set (w1 := {| store := store w; heap := heap w ++ [a]; log := log w |}).
    destruct (IH w1) as (batch & w' & Hrun & Hs & Hl & Hh & Hc & Hf).
    exists (Some {| base := length (heap w); view := [] |} :: batch), w'.
    simpl in Hh. rewrite <- app_assoc in Hh. simpl in Hh.
    split.
    { simpl. rewrite bind_run. simpl. fold w1. rewrite bind_run, Hrun. done. }
    repeat split; try done.
    + simpl. f_equal; [|exact Hc]. f_equal.
      unfold peek; simpl. rewrite Hh. now rewrite list_lookup_total_middle.
    + constructor.
      * simpl. rewrite Hh, length_app. simpl. lia.
      * eapply Forall_impl; [exact Hf|]. intros [r|]; simpl; [|done].
        rewrite length_app. simpl. lia.
  - destruct (IH w) as (batch & w' & Hrun & Hs & Hl & Hh & Hc & Hf).
    exists (None :: batch), w'. split.
    { simpl. rewrite bind_run. simpl. rewrite bind_run, Hrun. done. }
    repeat split; try done.
    + simpl. now f_equal.
    + constructor; [done|exact Hf].
Qed.

Lemma fresh_since_valid (w w' : World) (batch : list (option ndarray)) :
  Forall (fresh_since w w') batch ->
  Forall (fun r => from_option (valid w') True r) batch.
Proof.
  intros Hf. eapply Forall_impl; [exact Hf|].
  intros [r|]; simpl; [|done]. unfold valid. lia.
Qed.

Lemma fresh_since_weaken (w0 w w' w'' : World) (batch : list (option ndarray)) :
  length (heap w0) ≤ length (heap w) ->
  length (heap w') ≤ length (heap w'') ->
  Forall (fresh_since w w') batch ->
  Forall (fresh_since w0 w'') batch.
Proof.
  intros H0 H1 Hf. eapply Forall_impl; [exact Hf|].
  intros [r|]; simpl; [|done]. lia.
Qed.

(** ** Single codec calls *)

(** A call from arrays to arrays. *)
Lemma array_call_run (ev : Event)
    (f : list (option Arr * ArraySpec) -> result (list (option Arr)))
    (batch : list (option ndarray)) (chunk_specs : list ArraySpec)
    (w w' : World) (r : result (list (option ndarray))) :
  (emit ev ;;
   let* contents := mapM load_opt batch in
   let* out := lift (f (combine contents chunk_specs)) in
   mapM alloc_opt out) w = (r, w') ->
  store w' = store w
  ∧ log w' = log w ++ [ev]
  ∧ match f (combine (contents w batch) chunk_specs) with
    | Ok out =>
        ∃ batch', r = Ok batch'
          ∧ heap w' = heap w ++ omap id out
          ∧ contents w' batch' = out
          ∧ Forall (fresh_since w w') batch'
    | Raise e => r = Raise e ∧ heap w' = heap w
    end.
Proof.
  rewrite bind_run. simpl. rewrite bind_run, mapM_load_opt.
  rewrite bind_run. unfold lift, contents at 1. simpl.
  set (w1 := {| store := store w; heap := heap w; log := log w ++ [ev] |}).
  change (map (fmap (peek w1)) batch) with (contents w batch).
  destruct (f (combine (contents w batch) chunk_specs)) as [out|e].
  - destruct (mapM_alloc_opt out w1) as (batch' & w2 & Hrun & Hs & Hl & Hh & Hc & Hf).
    rewrite Hrun. intros [= <- <-]. repeat split; try done.
    exists batch'. repeat split; done.
  - intros [= <- <-]. done.
Qed.

(** A call from arrays to bytes. *)
Lemma array_bytes_call_run (ev : Event)
    (f : list (option Arr * ArraySpec) -> result (list (option BytesLike)))
    (batch : list (option ndarray)) (chunk_specs : list ArraySpec) (w : World) :
  (emit ev ;;
   let* contents := mapM load_opt batch in
   lift (f (combine contents chunk_specs))) w
  = (f (combine (contents w batch) chunk_specs),
     {| store := store w; heap := heap w; log := log w ++ [ev] |}).
Proof.
  rewrite bind_run. simpl. rewrite bind_run, mapM_load_opt. done.
Qed.

(** A call from bytes to arrays. *)
Lemma bytes_array_call_run (ev : Event)
    (f : list (option BytesLike * ArraySpec) -> result (list (option Arr)))
    (batch : list (option BytesLike)) (chunk_specs : list ArraySpec)
    (w w' : World) (r : result (list (option ndarray))) :
  (emit ev ;;
   let* out := lift (f (combine batch chunk_specs)) in
   mapM alloc_opt out) w = (r, w') ->
  store w' = store w
  ∧ log w' = log w ++ [ev]
  ∧ match f (combine batch chunk_specs) with
    | Ok out =>
        ∃ batch', r = Ok batch'
          ∧ heap w' = heap w ++ omap id out
          ∧ contents w' batch' = out
          ∧ Forall (fresh_since w w') batch'
    | Raise e => r = Raise e ∧ heap w' = heap w
    end.
Proof.
  rewrite bind_run. simpl. rewrite bind_run. unfold lift. simpl.
  set (w1 := {| store := store w; heap := heap w; log := log w ++ [ev] |}).
  destruct (f (combine batch chunk_specs)) as [out|e].
  - destruct (mapM_alloc_opt out w1) as (batch' & w2 & Hrun & Hs & Hl & Hh & Hc & Hf).
    rewrite Hrun. intros [= <- <-]. repeat split; try done.
    exists batch'. repeat split; done.
  - intros [= <- <-]. done.
Qed.

(** A call from bytes to bytes. *)
Lemma bytes_call_run (ev : Event)
    (f : list (option BytesLike * ArraySpec) -> result (list (option BytesLike)))
    (batch : list (option BytesLike)) (chunk_specs : list ArraySpec) (w : World) :
  (emit ev ;; lift (f (combine batch chunk_specs))) w
  = (f (combine batch chunk_specs),
     {| store := store w; heap := heap w; log := log w ++ [ev] |}).
Proof. rewrite bind_run. done. Qed.

(** ** The codec loops *)

Lemma world_eta (w : World) :
  {| store := store w; heap := heap w; log := log w |} = w.
Proof. now destruct w. Qed.

(** A loop whose calls do not depend on the data logs a prefix of the calls
    of the whole list, and all of them when no call raises. *)
Lemma fold_trace_const {A B} (f : B -> A -> result B) (ev : A -> Event)
    (l : list A) (acc : B) :
  fold_trace f (fun _ x => ev x) l acc `prefix_of` map ev l
  ∧ (is_ok (fold_result f l acc) -> fold_trace f (fun _ x => ev x) l acc = map ev l).
Proof.
  revert acc. induction l as [|x l IH]; intros acc; simpl.
  - split; [apply prefix_nil|done].
  - destruct (f acc x) as [acc'|e].
    + destruct (IH acc') as [Hp He]. split.
      * now apply prefix_cons.
      * intros Hok. now rewrite He.
    + split; [|done]. apply prefix_cons, prefix_nil.
Qed.

Lemma bb_decode_loop_run (codecs : list (BytesBytesCodec * list ArraySpec))
    (batch : list (option BytesLike)) (w : World) :
  foldM
    (fun chunk_bytes_batch '(bb_codec, chunk_spec_batch) =>
       bb_decode_call bb_codec chunk_bytes_batch chunk_spec_batch)
    codecs batch w
  = (fold_result
       (fun chunk_bytes_batch '(bb_codec, chunk_spec_batch) =>
          bb_decode_batch bb_codec (combine chunk_bytes_batch chunk_spec_batch))
       codecs batch,
     {| store := store w; heap := heap w;
        log := log w
               ++ fold_trace
                    (fun chunk_bytes_batch '(bb_codec, chunk_spec_batch) =>
                       bb_decode_batch bb_codec
                         (combine chunk_bytes_batch chunk_spec_batch))
                    (fun _ '(bb_codec, chunk_spec_batch) =>
                       DecodeBatch StageBB (bb_name bb_codec) chunk_spec_batch)
                    codecs batch |}).
Proof.
  revert batch w. induction codecs as [|[c s] codecs IH]; intros batch w; simpl.
  - unfold ret. now rewrite app_nil_r, world_eta.
  - rewrite bind_run. unfold bb_decode_call. rewrite bytes_call_run.
    destruct (bb_decode_batch c (combine batch s)) as [batch'|e].
    + rewrite IH. simpl. now rewrite <- app_assoc.
    + done.
Qed.

Lemma aa_decode_loop_run (codecs : list (ArrayArrayCodec * list ArraySpec)) :
  ∀ (batch : list (option ndarray)) (w0 w w' : World)
    (r : result (list (option ndarray))),
    length (heap w0) ≤ length (heap w) ->
    Forall (fresh_since w0 w) batch ->
    foldM
      (fun chunk_array_batch '(aa_codec, chunk_spec_batch) =>
         aa_decode_call aa_codec chunk_array_batch chunk_spec_batch)
      codecs batch w = (r, w') ->
    store w' = store w
    ∧ (∃ h, heap w' = heap w ++ h)
    ∧ log w' =
        log w
        ++ fold_trace
             (fun chunk_array_batch '(aa_codec, chunk_spec_batch) =>
                aa_decode_batch aa_codec
                  (combine chunk_array_batch chunk_spec_batch))
             (fun _ '(aa_codec, chunk_spec_batch) =>
                DecodeBatch StageAA (aa_name aa_codec) chunk_spec_batch)
             codecs (contents w batch)
    ∧ match
        fold_result
          (fun chunk_array_batch '(aa_codec, chunk_spec_batch) =>
             aa_decode_batch aa_codec (combine chunk_array_batch chunk_spec_batch))
          codecs (contents w batch)
      with
      | Ok out =>
          ∃ batch', r = Ok batch' ∧ contents w' batch' = out
                    ∧ Forall (fresh_since w0 w') batch'
      | Raise e => r = Raise e
      end.
Proof.
  induction codecs as [|[c s] codecs IH]; intros batch w0 w w' r Hlen Hfresh; simpl.
  - intros [= <- <-]. repeat split; try done.
    + exists []. now rewrite app_nil_r.
    + now rewrite app_nil_r.
    + exists batch. done.
  - rewrite bind_run.
    destruct (aa_decode_call c batch s w) as [r1 w1] eqn:Hcall.
    unfold aa_decode_call in Hcall.
    apply array_call_run in Hcall as (Hs1 & Hl1 & Hout).
    destruct (aa_decode_batch c (combine (contents w batch) s)) as [out|e].
    + destruct Hout as (batch1 & -> & Hh1 & Hc1 & Hf1).
      intros Hloop.
      assert (Hlen1 : length (heap w0) ≤ length (heap w1)).
      { rewrite Hh1, length_app. lia. }
      apply (IH batch1 w0 w1 w' r Hlen1) in Hloop as (Hs & (h & Hh) & Hl & Hres).
      * rewrite Hc1 in Hl, Hres. repeat split.
        -- congruence.
        -- exists (omap id out ++ h). rewrite Hh, Hh1. now rewrite app_assoc.
        -- rewrite Hl, Hl1. now rewrite <- app_assoc.
        -- exact Hres.
      * eapply fresh_since_weaken; [exact Hlen|reflexivity|exact Hf1].
    + destruct Hout as [-> Hh1]. intros [= <- <-]. repeat split; try done.
      exists []. now rewrite app_nil_r.
Qed.

(** The specs of an encode loop do not depend on the data. *)
Lemma encode_fold_specs {A C} `{Codec C}
    (enc : C -> list (option A * ArraySpec) -> result (list (option A)))
    (ev : C -> list ArraySpec -> Event)
    (codecs : list C) (batch : list (option A)) (chunk_specs : list ArraySpec) :
  let f :=
    fun '(batch, chunk_specs) codec =>
      match enc codec (combine batch chunk_specs) with
      | Ok batch' => Ok (batch', resolve_batched codec chunk_specs)
      | Raise e => Raise e
      end in
  let tr :=
    fold_trace f (fun '(_, chunk_specs) codec => ev codec chunk_specs)
      codecs (batch, chunk_specs) in
  tr `prefix_of` map (fun '(codec, specs) => ev codec specs)
                   (spec_chain codecs chunk_specs)
  ∧ ∀ out, fold_result f codecs (batch, chunk_specs) = Ok out ->
           out.2 = resolve_all codecs chunk_specs
           ∧ tr = map (fun '(codec, specs) => ev codec specs)
                    (spec_chain codecs chunk_specs).
Proof.
  simpl. revert batch chunk_specs.
  induction codecs as [|c codecs IH]; intros batch chunk_specs; simpl.
  - split; [apply prefix_nil|]. intros out [= <-]. done.
  - destruct (enc c (combine batch chunk_specs)) as [batch'|e].
    + destruct (IH batch' (resolve_batched c chunk_specs)) as [Hp He]. split.
      * now apply prefix_cons.
      * intros out Hout. destruct (He out Hout) as [-> ->]. done.
    + split; [apply prefix_cons, prefix_nil|done].
Qed.

Lemma bb_encode_loop_run (codecs : list BytesBytesCodec)
    (batch : list (option BytesLike)) (chunk_specs : list ArraySpec) (w : World) :
  foldM
    (fun '(chunk_bytes_batch, chunk_specs) bb_codec =>
       let* chunk_bytes_batch :=
         bb_encode_call bb_codec chunk_bytes_batch chunk_specs in
       ret (chunk_bytes_batch, resolve_batched bb_codec chunk_specs))
    codecs (batch, chunk_specs) w
  = (fold_result
       (fun '(chunk_bytes_batch, chunk_specs) bb_codec =>
          match bb_encode_batch bb_codec (combine chunk_bytes_batch chunk_specs) with
          | Ok chunk_bytes_batch =>
              Ok (chunk_bytes_batch, resolve_batched bb_codec chunk_specs)
          | Raise e => Raise e
          end)
       codecs (batch, chunk_specs),
     {| store := store w; heap := heap w;
        log := log w
               ++ fold_trace
                    (fun '(chunk_bytes_batch, chunk_specs) bb_codec =>
                       match
                         bb_encode_batch bb_codec
                           (combine chunk_bytes_batch chunk_specs)
                       with
                       | Ok chunk_bytes_batch =>
                           Ok (chunk_bytes_batch,
                               resolve_batched bb_codec chunk_specs)
                       | Raise e => Raise e
                       end)
                    (fun '(_, chunk_specs) bb_codec =>
                       EncodeBatch StageBB (bb_name bb_codec) chunk_specs)
                    codecs (batch, chunk_specs) |}).
Proof.
  revert batch chunk_specs w.
  induction codecs as [|c codecs IH]; intros batch chunk_specs w; simpl.
  - unfold ret. now rewrite app_nil_r, world_eta.
  - rewrite !bind_run. unfold bb_encode_call. rewrite bytes_call_run.
    destruct (bb_encode_batch c (combine batch chunk_specs)) as [batch'|e].
    + unfold ret. rewrite IH. simpl. now rewrite <- app_assoc.
    + done.
Qed.

Lemma aa_encode_loop_run (codecs : list ArrayArrayCodec) :
  ∀ (batch : list (option ndarray)) (chunk_specs : list ArraySpec) (w w' : World)
    (r : result (list (option ndarray) * list ArraySpec)),
    foldM
      (fun '(chunk_array_batch, chunk_specs) aa_codec =>
         let* chunk_array_batch :=
           aa_encode_call aa_codec chunk_array_batch chunk_specs in
         ret (chunk_array_batch, resolve_batched aa_codec chunk_specs))
      codecs (batch, chunk_specs) w = (r, w') ->
    store w' = store w
    ∧ (∃ h, heap w' = heap w ++ h)
    ∧ log w' =
        log w
        ++ fold_trace
             (fun '(chunk_array_batch, chunk_specs) aa_codec =>
                match
                  aa_encode_batch aa_codec (combine chunk_array_batch chunk_specs)
                with
                | Ok chunk_array_batch =>
                    Ok (chunk_array_batch, resolve_batched aa_codec chunk_specs)
                | Raise e => Raise e
                end)
             (fun '(_, chunk_specs) aa_codec =>
                EncodeBatch StageAA (aa_name aa_codec) chunk_specs)
             codecs (contents w batch, chunk_specs)
    ∧ match
        fold_result
          (fun '(chunk_array_batch, chunk_specs) aa_codec =>
             match
               aa_encode_batch aa_codec (combine chunk_array_batch chunk_specs)
             with
             | Ok chunk_array_batch =>
                 Ok (chunk_array_batch, resolve_batched aa_codec chunk_specs)
             | Raise e => Raise e
             end)
          codecs (contents w batch, chunk_specs)
      with
      | Ok (out, chunk_specs') =>
          ∃ batch', r = Ok (batch', chunk_specs') ∧ contents w' batch' = out
      | Raise e => r = Raise e
      end.
Proof.
  induction codecs as [|c codecs IH]; intros batch chunk_specs w w' r; simpl.
  - intros [= <- <-]. repeat split; try done.
    + exists []. now rewrite app_nil_r.
    + now rewrite app_nil_r.
    + exists batch. done.
  - rewrite !bind_run.
    destruct (aa_encode_call c batch chunk_specs w) as [r1 w1] eqn:Hcall.
    unfold aa_encode_call in Hcall.
    apply array_call_run in Hcall as (Hs1 & Hl1 & Hout).
    destruct (aa_encode_batch c (combine (contents w batch) chunk_specs))
      as [out|e].
    + destruct Hout as (batch1 & -> & Hh1 & Hc1 & Hf1).
      unfold ret at 1. intros Hloop.
      apply IH in Hloop as (Hs & (h & Hh) & Hl & Hres).
      rewrite Hc1 in Hl, Hres. repeat split.
      * congruence.
      * exists (omap id out ++ h). rewrite Hh, Hh1. now rewrite app_assoc.
      * rewrite Hl, Hl1. now rewrite <- app_assoc.
      * exact Hres.
    + destruct Hout as [-> Hh1]. intros [= <- <-]. repeat split; try done.
      exists []. now rewrite app_nil_r.
Qed.

(** ** [decode_batched] and [encode_batched] as a whole *)

(** A run of [decode_batched] leaves the store alone, adds array objects
    to the heap without touching a live one, logs the decode calls in order,
    and returns array objects holding what the codecs computed. *)
Lemma decode_batched_run (self : BatchedCodecPipeline)
    (chunk_bytes_and_specs : list (option BytesLike * ArraySpec))
    (w w' : World) (r : result (list (option ndarray))) :
  decode_batched self chunk_bytes_and_specs w = (r, w') ->
  store w' = store w
  ∧ (∃ h, heap w' = heap w ++ h)
  ∧ (∃ evs, log w' = log w ++ evs
            ∧ evs `prefix_of` decode_events self (map snd chunk_bytes_and_specs)
            ∧ (is_ok r -> evs = decode_events self (map snd chunk_bytes_and_specs)))
  ∧ match decode_values self chunk_bytes_and_specs with
    | Ok out =>
        ∃ batch, r = Ok batch ∧ contents w' batch = out
                 ∧ Forall (fresh_since w w') batch
    | Raise e => r = Raise e
    end.
Proof.
  unfold decode_batched, decode_values, decode_events.
  rewrite unzip2_map, resolved_metadata_parts. cbv beta iota zeta.
  set (specs := map snd chunk_bytes_and_specs).
  set (aa := spec_chain (array_array_codecs self) specs).
  set (s_ab := resolve_all (array_array_codecs self) specs).
  set (bb := spec_chain (bytes_bytes_codecs self) _).
  rewrite bind_run, bb_decode_loop_run.
  set (f_bb := fun chunk_bytes_batch '(bb_codec, chunk_spec_batch) =>
                 bb_decode_batch bb_codec (combine chunk_bytes_batch chunk_spec_batch)).
  set (ev_bb := fun '(bb_codec, chunk_spec_batch) =>
                  DecodeBatch StageBB (bb_name (bb_codec : BytesBytesCodec))
                    (chunk_spec_batch : list ArraySpec)).
  set (ev_aa := fun '(aa_codec, chunk_spec_batch) =>
                  DecodeBatch StageAA (aa_name (aa_codec : ArrayArrayCodec))
                    (chunk_spec_batch : list ArraySpec)).
  destruct (fold_trace_const f_bb ev_bb (rev bb) (map fst chunk_bytes_and_specs))
    as [Hp_bb He_bb].
  change (fold_trace f_bb _ (rev bb) (map fst chunk_bytes_and_specs))
    with (fold_trace f_bb (fun _ x => ev_bb x) (rev bb)
            (map fst chunk_bytes_and_specs)).
  destruct (fold_result f_bb (rev bb) (map fst chunk_bytes_and_specs))
    as [chunk_bytes_batch|e] eqn:Hbb.
  2:{ intros [= <- <-]. simpl. repeat split; try done.
      - exists []. now rewrite app_nil_r.
      - eexists. split; [reflexivity|]. split; [|done]. now apply prefix_app_r. }
  rewrite He_bb by done. simpl fst; simpl snd. rewrite bind_run.
  match goal with |- context [ab_decode_call ?c ?b ?s ?w1] =>
    destruct (ab_decode_call c b s w1) as [r1 w1'] eqn:Hab end.
  unfold ab_decode_call in Hab.
  apply bytes_array_call_run in Hab as (Hs1 & Hl1 & Hout). simpl in Hs1, Hl1, Hout.
  destruct (ab_decode_batch (array_bytes_codec self) (combine chunk_bytes_batch s_ab))
    as [out|e].
  2:{ destruct Hout as [-> Hh1]. intros [= <- <-]. repeat split; try done.
      - exists []. now rewrite app_nil_r.
      - eexists. split; [rewrite Hl1, <- app_assoc; reflexivity|].
        split; [|done]. apply prefix_app, prefix_app_r. done. }
  destruct Hout as (batch1 & -> & Hh1 & Hc1 & Hf1). intros Hloop.
  apply (aa_decode_loop_run (rev aa) batch1 w w1' w' r) in Hloop
    as (Hs & (h & Hh) & Hl & Hres).
  2:{ rewrite Hh1, length_app. lia. }
  2:{ eapply fresh_since_weaken; [| |exact Hf1]; simpl; lia. }
  rewrite Hc1 in Hl, Hres.
  destruct (fold_trace_const
              (fun chunk_array_batch '(aa_codec, chunk_spec_batch) =>
                 aa_decode_batch aa_codec
                   (combine chunk_array_batch chunk_spec_batch))
              ev_aa (rev aa) out) as [Hp_aa He_aa].
  repeat split.
  - congruence.
  - exists (omap id out ++ h). rewrite Hh, Hh1. now rewrite app_assoc.
  - eexists. split; [rewrite Hl, Hl1, <- !app_assoc; reflexivity|].
    split.
    + apply prefix_app. simpl. apply prefix_cons. exact Hp_aa.
    + intros Hok. f_equal. simpl. f_equal. apply He_aa.
      destruct (fold_result _ (rev aa) out); [done|].
      subst r. done.
  - exact Hres.
Qed.

Lemma with_contents_fst (w : World) (batch : list (option ndarray * ArraySpec)) :
  map fst (with_contents w batch) = contents w (map fst batch).
Proof.
  unfold with_contents, contents. rewrite !map_map.
  apply map_ext. now intros [a s].
Qed.

Lemma with_contents_snd (w : World) (batch : list (option ndarray * ArraySpec)) :
  map snd (with_contents w batch) = map snd batch.
Proof.
  unfold with_contents. rewrite map_map. apply map_ext. now intros [a s].
Qed.

(** A run of [encode_batched] leaves the store alone, adds array objects
    to the heap without touching a live one, logs the encode calls in order,
    and returns what the codecs computed from the contents of its input. *)
Lemma encode_batched_run (self : BatchedCodecPipeline)
    (chunk_arrays_and_specs : list (option ndarray * ArraySpec))
    (w w' : World) (r : result (list (option BytesLike))) :
  encode_batched self chunk_arrays_and_specs w = (r, w') ->
  store w' = store w
  ∧ (∃ h, heap w' = heap w ++ h)
  ∧ (∃ evs, log w' = log w ++ evs
            ∧ evs `prefix_of` encode_events self (map snd chunk_arrays_and_specs)
            ∧ (is_ok r -> evs = encode_events self (map snd chunk_arrays_and_specs)))
  ∧ r = encode_values self (with_contents w chunk_arrays_and_specs).
Proof.
  unfold encode_batched, encode_values, encode_events.
  rewrite unzip2_map, resolved_metadata_parts, with_contents_fst, with_contents_snd.
  cbv beta iota zeta.
  set (specs := map snd chunk_arrays_and_specs).
  set (batch := map fst chunk_arrays_and_specs).
  rewrite bind_run.
  match goal with |- context [foldM ?f ?l ?a w] =>
    destruct (foldM f l a w) as [r1 w1] eqn:Haa end.
  apply aa_encode_loop_run in Haa as (Hs1 & (h1 & Hh1) & Hl1 & Hres1).
  destruct (encode_fold_specs aa_encode_batch
              (fun codec chunk_specs => EncodeBatch StageAA (aa_name codec) chunk_specs)
              (array_array_codecs self) (contents w batch) specs) as [Hp_aa He_aa].
  cbv zeta in Hp_aa, He_aa.
  match type of Hres1 with match ?x with _ => _ end => destruct x as [[out specs1]|e] eqn:Hfold end.
  2:{ subst r1. intros [= <- <-]. repeat split; try done.
      - exists h1. done.
      - eexists. split; [exact Hl1|]. split; [|done]. now apply prefix_app_r. }
  destruct Hres1 as (batch1 & -> & Hc1).
  destruct (He_aa _ eq_refl) as [Hspecs1 Htr_aa]. simpl in Hspecs1. subst specs1.
  rewrite Htr_aa in Hl1.
  rewrite bind_run. unfold ab_encode_call. rewrite array_bytes_call_run, Hc1.
  destruct (ab_encode_batch (array_bytes_codec self)
              (combine out (resolve_all (array_array_codecs self) specs)))
    as [chunk_bytes_batch|e].
  2:{ intros [= <- <-]. simpl. repeat split; try done.
      - exists h1. done.
      - eexists. split; [rewrite Hl1, <- app_assoc; reflexivity|].
        split; [|done]. apply prefix_app. apply prefix_cons, prefix_nil. }
  rewrite bind_run, bb_encode_loop_run.
  destruct (encode_fold_specs bb_encode_batch
              (fun codec chunk_specs => EncodeBatch StageBB (bb_name codec) chunk_specs)
              (bytes_bytes_codecs self) chunk_bytes_batch
              (resolve_batched (array_bytes_codec self)
                 (resolve_all (array_array_codecs self) specs))) as [Hp_bb He_bb].
  cbv zeta in Hp_bb, He_bb.
  match goal with |- context [fold_result ?f ?l ?a] =>
    destruct (fold_result f l a) as [[out2 specs2]|e] eqn:Hfold2 end.
  - destruct (He_bb _ eq_refl) as [_ Htr_bb].
    unfold ret. intros [= <- <-]. simpl. repeat split; try done.
    + exists h1. done.
    + eexists. split; [rewrite Hl1, <- !app_assoc; reflexivity|].
      split.
      * apply prefix_app. simpl. apply prefix_cons. exact Hp_bb.
      * intros _. f_equal. simpl. f_equal. exact Htr_bb.
  - intros [= <- <-]. simpl. repeat split; try done.
    + exists h1. done.
    + eexists. split; [rewrite Hl1, <- !app_assoc; reflexivity|].
      split; [|done].
      apply prefix_app. simpl. apply prefix_cons. exact Hp_bb.
Qed.

(** ** Order of the codec calls and of the specs *)

(** A projection of a prefix of the expected calls is a prefix of the
    projection of the expected calls. *)
Lemma project_prefix {A B} (f : A -> option B) (evs expected : list A)
    (order : list B) :
  map f expected = map Some order ->
  evs `prefix_of` expected ->
  ∃ calls, map f evs = map Some calls
           ∧ calls `prefix_of` order
           ∧ (evs = expected -> calls = order).
Proof.
  intros Hmap [k ->]. rewrite map_app in Hmap.
  exists (take (length evs) order). split; [|split].
  - rewrite <- firstn_map, <- Hmap, take_app_length'; [done|].
    now rewrite length_map.
  - apply prefix_take.
  - intros Heq. apply (f_equal length) in Heq. rewrite length_app in Heq.
    assert (k = []) as -> by (destruct k; simpl in *; [done|lia]).
    rewrite app_nil_r in Hmap. apply (f_equal length) in Hmap as Hlen.
    rewrite !length_map in Hlen. rewrite Hlen. apply firstn_all.
Qed.

Lemma map_fst_chain {C} `{Codec C} {B} (g : C -> B) (codecs : list C)
    (chunk_specs : list ArraySpec) :
  map (fun '(codec, _) => g codec) (spec_chain codecs chunk_specs) = map g codecs.
Proof.
  revert chunk_specs. induction codecs as [|c codecs IH]; intros; simpl; [done|].
  now rewrite IH.
Qed.

Lemma encode_events_calls (self : BatchedCodecPipeline) (chunk_specs : list ArraySpec) :
  map codec_call (encode_events self chunk_specs) = map Some (encode_order self).
Proof.
  unfold encode_events, encode_order, codec_list.
  rewrite resolved_metadata_parts. cbv beta iota zeta.
  rewrite !map_app, !map_map. simpl.
  f_equal; [|f_equal].
  - rewrite <- (map_fst_chain (fun codec => Some (Encode, StageAA, aa_name codec))
                 (array_array_codecs self) chunk_specs).
    apply map_ext. now intros [c s].
  - match goal with |- map _ (spec_chain _ ?s) = _ =>
      rewrite <- (map_fst_chain (fun codec => Some (Encode, StageBB, bb_name codec))
                    (bytes_bytes_codecs self) s) end.
    apply map_ext. now intros [c s].
Qed.

Lemma decode_events_calls (self : BatchedCodecPipeline) (chunk_specs : list ArraySpec) :
  map codec_call (decode_events self chunk_specs) = map Some (decode_order self).
Proof.
  unfold decode_events, decode_order.
  rewrite resolved_metadata_parts. cbv beta iota zeta.
  rewrite !map_app, !map_map, !map_rev. simpl.
  f_equal; [|f_equal].
  - f_equal.
    match goal with |- map _ (spec_chain _ ?s) = _ =>
      rewrite <- (map_fst_chain (fun codec => Some (Decode, StageBB, bb_name codec))
                    (bytes_bytes_codecs self) s) end.
    apply map_ext. now intros [c s].
  - f_equal.
    rewrite <- (map_fst_chain (fun codec => Some (Decode, StageAA, aa_name codec))
                 (array_array_codecs self) chunk_specs).
    apply map_ext. now intros [c s].
Qed.



Lemma decode_order_reversed (self : BatchedCodecPipeline) :
  decode_order self
  = map (fun '(_, stage, codec) => (Decode, stage, codec)) (rev (encode_order self)).
Proof.
  unfold decode_order, encode_order, codec_list.
  repeat (rewrite map_app || rewrite map_rev || rewrite map_map
          || rewrite rev_app_distr).
  simpl. rewrite <- !app_assoc. simpl. reflexivity.
Qed.

(** C1. [encode_batched] calls the array-array codecs in list order, then
    the array-bytes codec, then the bytes-bytes codecs in list order, and
    nothing else; [decode_batched] calls the bytes-bytes codecs in reverse
    list order, then the array-bytes codec, then the array-array codecs in
    reverse list order, which is the encode order reversed.  A run that
    raises stops after a prefix of these calls.  Each call is given what the
    call before it returned: the result is the one of the codec functions
    composed in that order. *)
Theorem codec_application_order (self : BatchedCodecPipeline) :
  (∀ chunk_arrays_and_specs w,
     ∃ evs calls,
       log (encode_batched self chunk_arrays_and_specs w).2 = log w ++ evs
       ∧ map codec_call evs = map Some calls
       ∧ calls `prefix_of` encode_order self
       ∧ (is_ok (encode_batched self chunk_arrays_and_specs w).1 ->
          calls = encode_order self)
       ∧ (encode_batched self chunk_arrays_and_specs w).1
         = encode_values self (with_contents w chunk_arrays_and_specs))
  ∧ (∀ chunk_bytes_and_specs w,
       ∃ evs calls,
         log (decode_batched self chunk_bytes_and_specs w).2 = log w ++ evs
         ∧ map codec_call evs = map Some calls
         ∧ calls `prefix_of` decode_order self
         ∧ (is_ok (decode_batched self chunk_bytes_and_specs w).1 ->
            calls = decode_order self)
         ∧ match decode_values self chunk_bytes_and_specs with
           | Ok out =>
               ∃ batch,
                 (decode_batched self chunk_bytes_and_specs w).1 = Ok batch
                 ∧ contents (decode_batched self chunk_bytes_and_specs w).2 batch
                   = out
           | Raise e => (decode_batched self chunk_bytes_and_specs w).1 = Raise e
           end)
  ∧ encode_order self
    = map (fun codec => (Encode, StageAA, aa_name codec)) (array_array_codecs self)
      ++ [(Encode, StageAB, ab_name (array_bytes_codec self))]
      ++ map (fun codec => (Encode, StageBB, bb_name codec)) (bytes_bytes_codecs self)
  ∧ decode_order self
    = map (fun '(_, stage, codec) => (Decode, stage, codec)) (rev (encode_order self)).
Proof.
  split; [|split; [|split]].
  - intros l w.
    destruct (encode_batched self l w) as [r w'] eqn:Hrun.
    apply encode_batched_run in Hrun as (_ & _ & (evs & Hl & Hp & He) & Hr).
    destruct (project_prefix codec_call evs _ _ (encode_events_calls self (map snd l)) Hp)
      as (calls & Hc & Hpc & Hec).
    exists evs, calls. simpl. repeat split; try done.
    intros Hok. apply Hec, He, Hok.
  - intros l w.
    destruct (decode_batched self l w) as [r w'] eqn:Hrun.
    apply decode_batched_run in Hrun as (_ & _ & (evs & Hl & Hp & He) & Hr).
    destruct (project_prefix codec_call evs _ _ (decode_events_calls self (map snd l)) Hp)
      as (calls & Hc & Hpc & Hec).
    exists evs, calls. simpl.
    split; [done|]. split; [done|]. split; [done|].
    split; [intros Hok; apply Hec, He, Hok|].
    destruct (decode_values self l) as [out|e]; [|done].
    destruct Hr as (batch & -> & Hb & _). now exists batch.
  - unfold encode_order, codec_list. rewrite !map_app, !map_map. done.
  - apply decode_order_reversed.
Qed.


(** ** The merge of [write_batched] *)

Lemma merge_chunk_array_run (existing_chunk_array : option ndarray)
    (new_chunk_array_slice : ndarray) (chunk_spec : ArraySpec)
    (chunk_selection : Sel) (w : World) :
  valid w new_chunk_array_slice ->
  ∃ chunk_array w',
    _merge_chunk_array existing_chunk_array new_chunk_array_slice chunk_spec
      chunk_selection w = (Ok chunk_array, w')
    ∧ store w' = store w
    ∧ log w' = log w
    ∧ if is_total_slice chunk_selection (spec_shape chunk_spec) then
        chunk_array = new_chunk_array_slice ∧ heap w' = heap w
      else
        chunk_array = {| base := length (heap w); view := [] |}
        ∧ heap w' =
            heap w
            ++ [arr_setitem (merge_source w existing_chunk_array chunk_spec)
                  chunk_selection (peek w new_chunk_array_slice)].
Proof.
  intros Hnew. unfold _merge_chunk_array.
  destruct (is_total_slice chunk_selection (spec_shape chunk_spec)).
  { exists new_chunk_array_slice, w. done. }
  assert (Hpeek : ∀ a, (heap w ++ [a]) !!! length (heap w) = a).
  { intros a. now rewrite list_lookup_total_middle. }
  assert (Hins : ∀ a b, <[length (heap w) := b]> (heap w ++ [a]) = heap w ++ [b]).
  { intros a b. rewrite <- (Nat.add_0_r (length (heap w))).
    now rewrite insert_app_r. }
  assert (Hstay : ∀ a, through (view new_chunk_array_slice)
                         ((heap w ++ [a]) !!! base new_chunk_array_slice)
                       = peek w new_chunk_array_slice).
  { intros a. unfold peek. now rewrite lookup_total_app_l. }
  destruct existing_chunk_array as [e|];
    cbv [bind ndarray_copy ndarray_fill ndarray_setitem load alloc poke ret peek
         merge_source];
    simpl; rewrite ?Hpeek, ?Hins; simpl; rewrite ?Hpeek, ?Hins, ?Hstay.
  - eexists _, _. split; [reflexivity|]. simpl. done.
  - eexists _, _. split; [reflexivity|]. simpl. done.
Qed.

Lemma mapM_cons_ok {W A B} (f : A -> Eff W B) (x : A) (l : list A) (y : B)
    (ys : list B) (w w1 w' : W) :
  f x w = (Ok y, w1) -> mapM f l w1 = (Ok ys, w') ->
  mapM f (x :: l) w = (Ok (y :: ys), w').
Proof.
  intros Hx Hl. simpl. rewrite bind_run, Hx, bind_run, Hl. done.
Qed.

Lemma rmw_merge_loop (value : ndarray) (w0 : World)
    (items : list (option ndarray * BatchItem)) :
  valid w0 value ->
  Forall (fun item => from_option (valid w0) True item.1) items ->
  ∀ w, (∃ h, heap w = heap w0 ++ h) ->
    ∃ merged w',
      mapM
        (fun '(chunk_array, (_, chunk_spec, chunk_selection, out_selection)) =>
           let* new_chunk_array_slice := value_getitem (VArray value) out_selection in
           _merge_chunk_array chunk_array new_chunk_array_slice chunk_spec
             chunk_selection)
        items w = (Ok merged, w')
      ∧ store w' = store w
      ∧ log w' = log w
      ∧ (∃ h, heap w' = heap w ++ h)
      ∧ Forall2 (merged_as w0 w' value) items merged.
Proof.
  intros Hvalue Hitems.
  induction Hitems as [|[existing [[[key chunk_spec] chunk_selection] out_selection]]
                         items Hexisting _ IH]; intros w [h Hh].
  { exists [], w. simpl. split; [done|]. split; [done|]. split; [done|].
    split; [|constructor]. exists []. now rewrite app_nil_r. }
  simpl in Hexisting.
  assert (Hv : valid w (subscript value out_selection)).
  { unfold valid in *. simpl. rewrite Hh, length_app. lia. }
  destruct (merge_chunk_array_run existing (subscript value out_selection)
              chunk_spec chunk_selection w Hv)
    as (m & w1 & Hrun & Hs1 & Hl1 & Hm).
  assert (Hh1 : ∃ h1, heap w1 = heap w0 ++ h1).
  { destruct (is_total_slice chunk_selection (spec_shape chunk_spec)).
    - destruct Hm as [_ ->]. now exists h.
    - destruct Hm as [_ ->]. rewrite Hh, <- app_assoc. now eexists. }
  destruct (IH w1 Hh1) as (merged & w' & Hloop & Hs & Hl & (h' & Hh') & Hall).
  exists (m :: merged), w'. split.
  { apply (mapM_cons_ok _ _ _ _ _ w w1 w'); [exact Hrun|exact Hloop]. }
  split; [congruence|]. split; [congruence|]. split.
  { destruct (is_total_slice chunk_selection (spec_shape chunk_spec)).
    - destruct Hm as [_ Hm]. exists h'. now rewrite Hh', Hm.
    - destruct Hm as [_ Hm]. eexists. rewrite Hh', Hm, <- app_assoc. done. }
  constructor; [|exact Hall].
  unfold merged_as.
  destruct (is_total_slice chunk_selection (spec_shape chunk_spec)).
  { now destruct Hm as [-> _]. }
  destruct Hm as [-> Hm]. simpl.
  assert (Hlen : length (heap w0) ≤ length (heap w)).
  { rewrite Hh, length_app. lia. }
  split; [done|]. split.
  { rewrite Hh', Hm, !length_app. simpl. lia. }
  split; [done|].
  unfold peek at 1. simpl. rewrite Hh', Hm, <- app_assoc. simpl.
  rewrite list_lookup_total_middle by done.
  rewrite peek_subscript. rewrite (peek_heap_app w0 w value h Hvalue Hh).
  f_equal. destruct existing as [e|]; simpl; [|done].
  now apply (peek_heap_app w0 w e h).
Qed.

(** The merge of a batch. *)
Lemma rmw_merge_run (batch_info : list BatchItem) (value : ndarray)
    (chunk_array_batch : list (option ndarray)) (w : World) :
  valid w value ->
  Forall (fun existing => from_option (valid w) True existing) chunk_array_batch ->
  ∃ merged w',
    rmw_merge batch_info (VArray value) chunk_array_batch w = (Ok merged, w')
    ∧ store w' = store w
    ∧ log w' = log w
    ∧ (∃ h, heap w' = heap w ++ h)
    ∧ Forall2 (merged_as w w' value) (combine chunk_array_batch batch_info) merged.
Proof.
  intros Hvalue Hexisting. unfold rmw_merge.
  apply (rmw_merge_loop value w (combine chunk_array_batch batch_info) Hvalue).
  - revert batch_info.
    induction Hexisting as [|e l He _ IH]; intros [|item batch_info]; simpl;
      try constructor; [done|apply IH].
  - exists []. now rewrite app_nil_r.
Qed.

(** ** Codecs that honour the batch contract *)

Lemma same_none_refl {A} (xs : list (option A)) : same_none xs xs.
Proof. unfold same_none. induction xs; constructor; done. Qed.

Lemma same_none_trans {A B C} (xs : list (option A)) (ys : list (option B))
    (zs : list (option C)) :
  same_none xs ys -> same_none ys zs -> same_none xs zs.
Proof.
  unfold same_none. intros Hxy. revert zs.
  induction Hxy as [|x y xs ys Hxy _ IH]; intros zs Hyz; inversion Hyz; subst.
  - constructor.
  - constructor; [|now apply IH]. etransitivity; eassumption.
Qed.

Lemma same_none_length {A B} (xs : list (option A)) (ys : list (option B)) :
  same_none xs ys -> length xs = length ys.
Proof. apply Forall2_length. Qed.

Lemma same_none_fmap {A B} (f : A -> B) (xs : list (option A)) :
  same_none xs (map (fmap f) xs).
Proof.
  unfold same_none. induction xs as [|[x|] xs IH]; simpl; constructor; try done.
Qed.

Lemma same_none_fmap_l {A B} (f : A -> B) (xs : list (option A)) :
  same_none (map (fmap f) xs) xs.
Proof.
  unfold same_none. induction xs as [|[x|] xs IH]; simpl; constructor; try done.
Qed.

Lemma map_fst_combine {A B} (xs : list A) (ys : list B) :
  length xs = length ys -> map fst (combine xs ys) = xs.
Proof.
  revert ys. induction xs as [|x xs IH]; intros [|y ys]; simpl; try done.
  intros [= Hlen]. now rewrite IH.
Qed.

Lemma map_snd_combine {A B} (xs : list A) (ys : list B) :
  length xs = length ys -> map snd (combine xs ys) = ys.
Proof.
  revert ys. induction xs as [|x xs IH]; intros [|y ys]; simpl; try done.
  intros [= Hlen]. now rewrite IH.
Qed.

Lemma spec_chain_lengths {C} `{Codec C} (codecs : list C)
    (chunk_specs : list ArraySpec) :
  Forall (fun cs => length cs.2 = length chunk_specs) (spec_chain codecs chunk_specs)
  ∧ length (resolve_all codecs chunk_specs) = length chunk_specs.
Proof.
  revert chunk_specs. induction codecs as [|c codecs IH]; intros specs; simpl.
  - split; [constructor|done].
  - destruct (IH (map (resolve_metadata c) specs)) as [Hall Hlen].
    rewrite length_map in Hall, Hlen. split; [|done].
    constructor; [done|exact Hall].
Qed.

Lemma spec_chain_codecs {C} `{Codec C} (P : C -> Prop) (codecs : list C)
    (chunk_specs : list ArraySpec) :
  Forall P codecs -> Forall (fun cs => P cs.1) (spec_chain codecs chunk_specs).
Proof.
  intros HP. revert chunk_specs.
  induction HP as [|c codecs Hc _ IH]; intros specs; simpl; constructor; auto.
Qed.

(** A decode loop over codecs that honour the contract keeps the [None]
    positions of its input. *)
Lemma decode_fold_honours {C A}
    (dec : C -> list (option A * ArraySpec) -> result (list (option A)))
    (codecs : list (C * list ArraySpec)) (n : nat) :
  Forall (fun cs => honours_none (dec cs.1) ∧ length cs.2 = n) codecs ->
  ∀ batch, length batch = n ->
    ∃ out,
      fold_result
        (fun batch '(codec, chunk_spec_batch) =>
           dec codec (combine batch chunk_spec_batch))
        codecs batch = Ok out
      ∧ same_none batch out.
Proof.
  induction 1 as [|[c s] codecs [Hc Hs] _ IH]; intros batch Hlen; simpl.
  - exists batch. split; [done|apply same_none_refl].
  - simpl in Hc, Hs. destruct (Hc (combine batch s)) as (out1 & -> & Hsame1).
    rewrite map_fst_combine in Hsame1 by congruence.
    destruct (IH out1) as (out & Hout & Hsame).
    { rewrite <- (same_none_length _ _ Hsame1). done. }
    exists out. split; [done|]. eapply same_none_trans; eassumption.
Qed.

(** The same for an encode loop, which resolves the specs as it goes. *)
Lemma encode_fold_honours {C A} `{Codec C}
    (enc : C -> list (option A * ArraySpec) -> result (list (option A)))
    (codecs : list C) :
  Forall (fun codec => honours_none (enc codec)) codecs ->
  ∀ batch chunk_specs, length batch = length chunk_specs ->
    ∃ out,
      fold_result
        (fun '(batch, chunk_specs) codec =>
           match enc codec (combine batch chunk_specs) with
           | Ok batch' => Ok (batch', resolve_batched codec chunk_specs)
           | Raise e => Raise e
           end)
        codecs (batch, chunk_specs) = Ok (out, resolve_all codecs chunk_specs)
      ∧ same_none batch out.
Proof.
  induction 1 as [|c codecs Hc _ IH]; intros batch specs Hlen; simpl.
  - exists batch. split; [done|apply same_none_refl].
  - destruct (Hc (combine batch specs)) as (out1 & -> & Hsame1).
    rewrite map_fst_combine in Hsame1 by done.
    destruct (IH out1 (resolve_batched c specs)) as (out & Hout & Hsame).
    { rewrite <- (same_none_length _ _ Hsame1). unfold resolve_batched.
      now rewrite length_map. }
    exists out. split; [exact Hout|]. eapply same_none_trans; eassumption.
Qed.

Lemma Forall_rev_intro {A} (P : A -> Prop) (l : list A) :
  Forall P l -> Forall P (rev l).
Proof.
  rewrite !List.Forall_forall. intros HP x Hx. apply HP. now apply in_rev.
Qed.

Lemma decode_values_honours (self : BatchedCodecPipeline)
    (chunk_bytes_and_specs : list (option BytesLike * ArraySpec)) :
  decoders_honour_none self ->
  ∃ out, decode_values self chunk_bytes_and_specs = Ok out
         ∧ same_none (map fst chunk_bytes_and_specs) out.
Proof.
  intros (Haa & Hab & Hbb). unfold decode_values.
  rewrite resolved_metadata_parts. cbv beta iota zeta.
  set (specs := map snd chunk_bytes_and_specs).
  set (n := length chunk_bytes_and_specs).
  destruct (spec_chain_lengths (array_array_codecs self) specs) as [Hlaa Hls].
  match goal with |- context [spec_chain (bytes_bytes_codecs self) ?s] =>
    destruct (spec_chain_lengths (bytes_bytes_codecs self) s) as [Hlbb _];
    set (s_bb := s) in * end.
  assert (Hn : length specs = n) by (unfold specs, n; apply length_map).
  assert (Hn_bb : length s_bb = n).
  { unfold s_bb. now rewrite length_map, Hls. }
  destruct (decode_fold_honours bb_decode_batch
              (rev (spec_chain (bytes_bytes_codecs self) s_bb)) n)
    with (batch := map fst chunk_bytes_and_specs) as (b1 & Hb1 & Hs1).
  { apply Forall_rev_intro.
    pose proof (spec_chain_codecs _ _ s_bb Hbb) as Hc.
    rewrite List.Forall_forall in *. intros cs Hin. split; [now apply Hc|].
    rewrite (Hlbb cs Hin). done. }
  { unfold n. apply length_map. }
  rewrite Hb1. simpl.
  destruct (Hab (combine b1 (resolve_all (array_array_codecs self) specs)))
    as (a1 & -> & Hs2).
  rewrite map_fst_combine in Hs2.
  2:{ rewrite <- (same_none_length _ _ Hs1), Hls, length_map. done. }
  destruct (decode_fold_honours aa_decode_batch
              (rev (spec_chain (array_array_codecs self) specs)) n)
    with (batch := a1) as (a2 & Ha2 & Hs3).
  { apply Forall_rev_intro.
    pose proof (spec_chain_codecs _ _ specs Haa) as Hc.
    rewrite List.Forall_forall in *. intros cs Hin. split; [now apply Hc|].
    rewrite (Hlaa cs Hin). done. }
  { rewrite <- (same_none_length _ _ Hs2), <- (same_none_length _ _ Hs1).
    unfold n. apply length_map. }
  exists a2. split; [exact Ha2|].
  eapply same_none_trans; [exact Hs1|]. eapply same_none_trans; eassumption.
Qed.

Lemma encode_values_honours (self : BatchedCodecPipeline)
    (chunk_arrays_and_specs : list (option Arr * ArraySpec)) :
  encoders_honour_none self ->
  ∃ out, encode_values self chunk_arrays_and_specs = Ok out
         ∧ same_none (map fst chunk_arrays_and_specs) out.
Proof.
  intros (Haa & Hab & Hbb). unfold encode_values.
  destruct (encode_fold_honours aa_encode_batch (array_array_codecs self) Haa
              (map fst chunk_arrays_and_specs) (map snd chunk_arrays_and_specs))
    as (a1 & Ha1 & Hs1).
  { now rewrite !length_map. }
  rewrite Ha1.
  destruct (spec_chain_lengths (array_array_codecs self)
              (map snd chunk_arrays_and_specs)) as [_ Hls].
  destruct (Hab (combine a1 (resolve_all (array_array_codecs self)
                               (map snd chunk_arrays_and_specs))))
    as (b1 & -> & Hs2).
  rewrite map_fst_combine in Hs2.
  2:{ rewrite <- (same_none_length _ _ Hs1), Hls, !length_map. done. }
  destruct (encode_fold_honours bb_encode_batch (bytes_bytes_codecs self) Hbb b1
              (resolve_batched (array_bytes_codec self)
                 (resolve_all (array_array_codecs self)
                    (map snd chunk_arrays_and_specs))))
    as (b2 & Hb2 & Hs3).
  { rewrite <- (same_none_length _ _ Hs2), <- (same_none_length _ _ Hs1).
    unfold resolve_batched. rewrite !length_map, Hls, !length_map. done. }
  rewrite Hb2. exists b2. split; [done|].
  eapply same_none_trans; [exact Hs1|]. eapply same_none_trans; eassumption.
Qed.

(** ** Reading the existing chunks in [write_batched] *)

Lemma existing_bytes_store (w w' : World) (item : BatchItem) :
  store w' = store w -> existing_bytes w' item = existing_bytes w item.
Proof.
  intros Hs. destruct item as [[[key chunk_spec] chunk_selection] out_selection].
  simpl. now rewrite Hs.
Qed.

Lemma rmw_chunk_bytes_batch_run (batch_info : list BatchItem)
    (runtime_configuration : RuntimeConfiguration) (w : World) :
  rmw_chunk_bytes_batch batch_info runtime_configuration w
  = (Ok (map (existing_bytes w) batch_info),
     {| store := store w; heap := heap w;
        log := log w ++ omap existing_get batch_info |}).
Proof.
  unfold rmw_chunk_bytes_batch, concurrent_map. revert w.
  induction batch_info as [|[[[key chunk_spec] chunk_selection] out_selection]
                             batch_info IH]; intros w.
  - simpl. unfold ret. now rewrite app_nil_r, world_eta.
  - cbn [map mapM]. rewrite bind_run.
    destruct (is_total_slice chunk_selection (spec_shape chunk_spec)) eqn:Htotal.
    + cbn [_read_key ret]. rewrite bind_run, IH. cbn [ret existing_bytes omap list_omap existing_get].
      rewrite Htotal. done.
    + cbn [_read_key store_get]. rewrite bind_run, IH.
      cbn [ret store heap log existing_bytes omap list_omap existing_get].
      rewrite Htotal. rewrite <- app_assoc. simpl. unfold ret.
      rewrite (map_ext _ (existing_bytes w))
        by (intros item; now apply existing_bytes_store).
      reflexivity.
Qed.

Lemma rmw_decode_input (w : World) (batch_info : list BatchItem) :
  map (fun '(chunk_bytes, (_, chunk_spec, _, _)) => (chunk_bytes, chunk_spec))
    (combine (map (existing_bytes w) batch_info) batch_info)
  = map (fun item => (existing_bytes w item, item_spec item)) batch_info.
Proof.
  induction batch_info as [|[[[key chunk_spec] chunk_selection] out_selection]
                             batch_info IH]; [done|].
  cbn [map combine]. now rewrite IH.
Qed.

(** The first two statements of the read-modify-write path, under the
    batch contract of the decoders. *)
Lemma rmw_existing_run (self : BatchedCodecPipeline) (batch_info : list BatchItem)
    (runtime_configuration : RuntimeConfiguration) (w : World) :
  decoders_honour_none self ->
  ∃ chunk_array_batch w1 w2,
    rmw_chunk_bytes_batch batch_info runtime_configuration w
    = (Ok (map (existing_bytes w) batch_info), w1)
    ∧ store w1 = store w
    ∧ heap w1 = heap w
    ∧ log w1 = log w ++ omap existing_get batch_info
    ∧ rmw_decode self batch_info (map (existing_bytes w) batch_info) w1
      = (Ok chunk_array_batch, w2)
    ∧ store w2 = store w
    ∧ (∃ h, heap w2 = heap w ++ h)
    ∧ log w2 =
        log w1
        ++ decode_events self (map item_spec batch_info)
    ∧ decode_values self
        (map (fun item => (existing_bytes w item, item_spec item)) batch_info)
      = Ok (contents w2 chunk_array_batch)
    ∧ same_none (map (existing_bytes w) batch_info) chunk_array_batch
    ∧ Forall (fresh_since w w2) chunk_array_batch.
Proof.
  intros Hdec.
  set (w1 := {| store := store w; heap := heap w;
                log := log w ++ omap existing_get batch_info |}).
  destruct (rmw_decode self batch_info (map (existing_bytes w) batch_info) w1)
    as [r w2] eqn:Hrun.
  pose proof Hrun as Hrun'.
  unfold rmw_decode in Hrun'. rewrite rmw_decode_input in Hrun'.
  apply decode_batched_run in Hrun' as (Hs & (h & Hh) & (evs & Hl & _ & He) & Hres).
  destruct (decode_values_honours self
              (map (fun item => (existing_bytes w item, item_spec item)) batch_info)
              Hdec) as (out & Hout & Hsame).
  rewrite Hout in Hres. destruct Hres as (batch & -> & Hc & Hf).
  rewrite map_map in Hsame. simpl in Hsame.
  rewrite map_map in He. simpl in He.
  exists batch, w1, w2.
  split; [apply rmw_chunk_bytes_batch_run|].
  split; [done|]. split; [done|]. split; [done|].
  split; [exact Hrun|]. split; [exact Hs|].
  split; [now exists h|].
  split; [rewrite Hl; f_equal; now apply He|].
  split; [now rewrite Hout, Hc|].
  split; [|exact Hf].
  eapply same_none_trans; [exact Hsame|]. rewrite <- Hc.
  apply same_none_fmap_l.
Qed.

(** ** Elision, encoding and writing in [write_batched] *)

Lemma rmw_elide_run (batch_info : list BatchItem) (chunk_array_batch : list ndarray)
    (w : World) :
  rmw_elide batch_info chunk_array_batch w
  = (Ok (map (elided w) (combine chunk_array_batch batch_info)), w).
Proof.
  unfold rmw_elide.
  induction (combine chunk_array_batch batch_info)
    as [|[chunk_array [[[key chunk_spec] chunk_selection] out_selection]] l IH].
  - done.
  - cbn [mapM map]. rewrite bind_run. cbn [bind load ret].
    rewrite bind_run, IH. done.
Qed.

Lemma rmw_write_loop (l : list (option BytesLike * BatchItem)) (w : World) :
  mapM (fun '(store_path, chunk_bytes) => _write_key store_path chunk_bytes)
    (map (fun '(chunk_bytes, (store_path, _, _, _)) => (store_path, chunk_bytes)) l)
    w
  = (Ok (map (fun _ => tt) l),
     {| store := fold_left apply_write l (store w); heap := heap w;
        log := log w ++ map write_op l |}).
Proof.
  revert w.
  induction l as [|[chunk_bytes [[[key chunk_spec] chunk_selection] out_selection]]
                    l IH]; intros w.
  - simpl. unfold ret. now rewrite app_nil_r, world_eta.
  - cbn [map mapM]. rewrite bind_run.
    destruct chunk_bytes as [b|]; cbn [_write_key store_set store_delete];
      rewrite bind_run, IH; cbn [ret store heap log fold_left apply_write map write_op];
      now rewrite <- app_assoc.
Qed.

Lemma rmw_write_run (batch_info : list BatchItem)
    (chunk_bytes_batch : list (option BytesLike))
    (runtime_configuration : RuntimeConfiguration) (w : World) :
  rmw_write batch_info chunk_bytes_batch runtime_configuration w
  = (Ok tt,
     {| store := fold_left apply_write (combine chunk_bytes_batch batch_info) (store w);
        heap := heap w;
        log := log w ++ map write_op (combine chunk_bytes_batch batch_info) |}).
Proof.
  unfold rmw_write, concurrent_map. rewrite bind_run, rmw_write_loop. done.
Qed.

(** The store after the writes of a batch with distinct keys. *)
Lemma apply_write_other (l : list (option BytesLike * BatchItem))
    (st : gmap string BytesLike) (key : StorePath) :
  key ∉ map (fun item => item_key item.2) l ->
  fold_left apply_write l st !! key = st !! key.
Proof.
  revert st.
  induction l as [|[b [[[k chunk_spec] chunk_selection] out_selection]] l IH];
    intros st Hnot; [done|].
  cbn [fold_left]. rewrite IH.
  - assert (k ≠ key).
    { intros ->. apply Hnot. simpl. left. }
    destruct b; simpl.
    + now rewrite lookup_insert_ne.
    + now rewrite lookup_delete_ne.
  - intros Hin. apply Hnot. simpl. now right.
Qed.

Lemma apply_write_lookup (l : list (option BytesLike * BatchItem))
    (st : gmap string BytesLike) :
  NoDup (map (fun item => item_key item.2) l) ->
  Forall (fun item => fold_left apply_write l st !! item_key item.2 = item.1) l.
Proof.
  revert st.
  induction l as [|[b [[[k chunk_spec] chunk_selection] out_selection]] l IH];
    intros st Hnd; [constructor|].
  cbn [map] in Hnd. apply NoDup_cons in Hnd as [Hnot Hnd].
  constructor.
  - cbn [fold_left]. rewrite apply_write_other by exact Hnot.
    destruct b; simpl.
    + now rewrite lookup_insert_eq.
    + now rewrite lookup_delete_eq.
  - cbn [fold_left]. apply IH, Hnd.
Qed.

Lemma zip_items_fst {A} (xs : list A) (batch_info : list BatchItem) :
  length xs = length batch_info ->
  map fst
    (map (fun '(x, (_, chunk_spec, _, _)) => (x, chunk_spec)) (combine xs batch_info))
  = xs.
Proof.
  revert batch_info.
  induction xs as [|x xs IH];
    intros [|[[[key chunk_spec] chunk_selection] out_selection] batch_info];
    simpl; try done.
  intros [= Hlen]. now rewrite IH.
Qed.

Lemma map_snd_zip {A B} (xs : list A) (ys : list B) :
  length xs = length ys -> map snd (combine xs ys) = ys.
Proof. apply map_snd_combine. Qed.

(** The whole read-modify-write path, statement by statement, for codecs
    that honour the batch contract. *)
Lemma rmw_run (self : BatchedCodecPipeline) (batch_info : list BatchItem)
    (value : ndarray) (runtime_configuration : RuntimeConfiguration) (w : World) :
  supports_partial_encode self = false ->
  decoders_honour_none self ->
  encoders_honour_none self ->
  valid w value ->
  ∃ chunk_array_batch merged chunk_bytes_batch w2 w3 w4 w',
    rmw_merged self batch_info (VArray value) runtime_configuration w
    = (Ok merged, w3)
    ∧ store w3 = store w
    ∧ (∃ h, heap w2 = heap w ++ h)
    ∧ (∃ h, heap w3 = heap w2 ++ h)
    ∧ length chunk_array_batch = length batch_info
    ∧ Forall2 (merged_as w2 w3 value) (combine chunk_array_batch batch_info) merged
    ∧ rmw_encode self batch_info (map (elided w3) (combine merged batch_info)) w3
      = (Ok chunk_bytes_batch, w4)
    ∧ same_none (map (elided w3) (combine merged batch_info)) chunk_bytes_batch
    ∧ store w4 = store w
    ∧ write_batched self batch_info (VArray value) runtime_configuration w
      = (Ok tt, w')
    ∧ log w' = log w4 ++ map write_op (combine chunk_bytes_batch batch_info)
    ∧ store w' = fold_left apply_write (combine chunk_bytes_batch batch_info) (store w).
Proof.
  intros Hpartial Hdec Henc Hvalue.
  destruct (rmw_existing_run self batch_info runtime_configuration w Hdec)
    as (existing & w1 & w2 & Hget & Hs1 & Hh1 & Hl1 & Hdecode & Hs2 & (h2 & Hh2)
        & Hl2 & Hvalues & Hsame & Hfresh).
  assert (Hlen_e : length existing = length batch_info).
  { rewrite <- (same_none_length _ _ Hsame). apply length_map. }
  (* the contents of the existing arrays were fixed when w2 was reached, and
     [value] is still the same array *)
  assert (Hvalue2 : valid w2 value) by (eapply valid_heap_app; eassumption).
  destruct (rmw_merge_run batch_info value existing w2 Hvalue2
              (fresh_since_valid _ _ _ Hfresh))
    as (merged & w3 & Hmerge & Hs3 & Hl3 & (h3 & Hh3) & Hmerged).
  assert (Hlen_m : length merged = length batch_info).
  { rewrite <- (Forall2_length _ _ _ Hmerged), length_combine. lia. }
  destruct (rmw_encode self batch_info
              (map (elided w3) (combine merged batch_info)) w3)
    as [r w4] eqn:Hencode.
  pose proof Hencode as Hencode'. unfold rmw_encode in Hencode'.
  apply encode_batched_run in Hencode' as (Hs4 & _ & _ & Hr).
  destruct (encode_values_honours self
              (with_contents w3
                 (map (fun '(chunk_array, (_, chunk_spec, _, _)) =>
                         (chunk_array, chunk_spec))
                    (combine (map (elided w3) (combine merged batch_info))
                       batch_info))) Henc) as (bytes & Hbytes & Hsame_b).
  rewrite Hbytes in Hr. subst r.
  rewrite with_contents_fst, zip_items_fst in Hsame_b.
  2:{ rewrite length_map, length_combine. lia. }
  exists existing, merged, bytes, w2, w3, w4.
  eexists. split.
  { unfold rmw_merged. rewrite bind_run, Hget, bind_run, Hdecode. exact Hmerge. }
  split; [congruence|].
  split; [now exists h2|].
  split; [now exists h3|].
  split; [exact Hlen_e|].
  split; [exact Hmerged|].
  split; [exact Hencode|].
  split.
  { eapply same_none_trans; [|exact Hsame_b]. apply same_none_fmap. }
  split; [congruence|].
  split.
  { unfold write_batched. rewrite Hpartial.
    rewrite bind_run, Hget, bind_run, Hdecode, bind_run, Hmerge.
    rewrite bind_run, rmw_elide_run, bind_run, Hencode.
    apply rmw_write_run. }
  split; [reflexivity|].
  simpl. congruence.
Qed.

Lemma Forall_combine_Forall2 {A B} (P : B -> A -> Prop) (xs : list A) (ys : list B) :
  length xs = length ys ->
  Forall (fun p => P p.2 p.1) (combine xs ys) ->
  Forall2 P ys xs.
Proof.
  revert ys. induction xs as [|x xs IH]; intros [|y ys] Hlen Hall; simpl in *.
  - constructor.
  - discriminate.
  - discriminate.
  - inversion Hall; subst. constructor; [done|]. apply IH; [lia|done].
Qed.

(** ** [read_batched] *)

Lemma store_get_loop (keys : list StorePath) (w : World) :
  mapM store_get keys w
  = (Ok (map (fun key => store w !! key) keys),
     {| store := store w; heap := heap w; log := log w ++ map StoreGet keys |}).
Proof.
  revert w. induction keys as [|key keys IH]; intros w.
  - simpl. unfold ret. now rewrite app_nil_r, world_eta.
  - cbn [mapM map]. rewrite bind_run. cbn [store_get]. rewrite bind_run, IH.
    cbn [ret store heap log]. now rewrite <- app_assoc.
Qed.

Lemma foldM_cons_ok {W A B} (f : B -> A -> Eff W B) (x : A) (l : list A)
    (acc acc' : B) (w w1 : W) (res : result B * W) :
  f acc x w = (Ok acc', w1) -> foldM f l acc' w1 = res ->
  foldM f (x :: l) acc w = res.
Proof. intros Hx Hl. simpl. now rewrite bind_run, Hx. Qed.

(** The last loop of [read_batched]: only the buffer of [out] changes. *)
Lemma write_out_loop (out : ndarray) (items : list (option ndarray * BatchItem)) :
  ∀ w,
    valid w out ->
    Forall (fun item => from_option (fun r => base r ≠ base out) True item.1) items ->
    ∃ w',
      foldM (fun _ item => write_out out item) items tt w = (Ok tt, w')
      ∧ store w' = store w
      ∧ log w' = log w
      ∧ length (heap w') = length (heap w)
      ∧ (∀ l, l ≠ base out -> heap w' !!! l = heap w !!! l)
      ∧ heap w' !!! base out
        = fold_left (assign_out (view out))
            (map (fun item => (peek w <$> item.1, item.2)) items)
            (heap w !!! base out).
Proof.
  induction items as [|[chunk [[[key chunk_spec] chunk_selection] out_selection]]
                        items IH]; intros w Hout Hitems.
  { exists w. done. }
  apply Forall_cons in Hitems as [Hchunk Hitems]. simpl in Hchunk.
  set (f := fun a : Arr =>
              match peek w <$> chunk with
              | Some c => arr_setitem a out_selection (arr_getitem c chunk_selection)
              | None => arr_setitem_scalar a out_selection (spec_fill_value chunk_spec)
              end).
  set (w1 := {| store := store w;
                heap := <[base out := update_view (view out) f (heap w !!! base out)]>
                          (heap w);
                log := log w |}).
  assert (Hstep : write_out out
                    (chunk, (key, chunk_spec, chunk_selection, out_selection)) w
                  = (Ok tt, w1)).
  { destruct chunk as [r|]; cbn [write_out]; [|done].
    unfold ndarray_setitem. rewrite bind_run. cbn [load].
    unfold poke, w1, f. simpl. now rewrite peek_subscript. }
  assert (Hout1 : valid w1 out).
  { unfold valid, w1. simpl. now rewrite length_insert. }
  destruct (IH w1 Hout1 Hitems) as (w' & Hloop & Hs & Hl & Hlen & Hother & Hbuf).
  exists w'. split.
  { apply (foldM_cons_ok _ _ _ _ tt w w1); [exact Hstep|exact Hloop]. }
  split; [done|]. split; [done|].
  split; [rewrite Hlen; unfold w1; simpl; apply length_insert|].
  split.
  { intros l Hl'. rewrite Hother by done. unfold w1. simpl.
    now rewrite list_lookup_total_insert_ne. }
  rewrite Hbuf. cbn [map fold_left assign_out fst snd].
  unfold w1 at 2. simpl. rewrite list_lookup_total_insert_eq by exact Hout.
  fold f. f_equal.
  apply map_ext_Forall. eapply Forall_impl; [exact Hitems|].
  intros [[r|] item] Hr; simpl in *; [|done].
  do 2 f_equal. unfold peek, w1. simpl.
  now rewrite list_lookup_total_insert_ne.
Qed.

Lemma contents_zip (w : World) (batch : list (option ndarray))
    (batch_info : list BatchItem) :
  map (fun item : option ndarray * BatchItem => (peek w <$> item.1, item.2))
    (combine batch batch_info)
  = combine (contents w batch) batch_info.
Proof.
  revert batch_info. induction batch as [|r batch IH]; intros [|item batch_info];
    simpl; try done.
  now rewrite IH.
Qed.

Lemma read_decode_input (w : World) (batch_info : list BatchItem) :
  map (fun '(chunk_bytes, (_, chunk_spec, _, _)) => (chunk_bytes, chunk_spec))
    (combine
       (map (fun key => store w !! key)
          (map (fun '(store_path, _, _, _) => store_path) batch_info))
       batch_info)
  = map (fun item => (store w !! item_key item, item_spec item)) batch_info.
Proof.
  induction batch_info as [|[[[key chunk_spec] chunk_selection] out_selection]
                             batch_info IH]; [done|].
  cbn [map combine]. now rewrite IH.
Qed.

(** C6. On the full-decode path of [read_batched], for decoders that
    honour the batch contract: the call does not raise; a key absent from
    the store gives a [None] chunk, and only such a key does; the output
    buffer receives, item by item in batch order,
    [out[out_selection] = chunk[chunk_selection]] for a decoded chunk and
    [out[out_selection] = fill_value] for a [None] chunk; no other live
    array and nothing in the store changes. *)
Theorem read_batched_full (self : BatchedCodecPipeline) (batch_info : list BatchItem)
    (out : ndarray) (runtime_configuration : RuntimeConfiguration) (w : World) :
  supports_partial_decode self = false ->
  decoders_honour_none self ->
  valid w out ->
  ∃ chunks w',
    read_batched self batch_info out runtime_configuration w = (Ok tt, w')
    ∧ decode_values self
        (map (fun item => (store w !! item_key item, item_spec item)) batch_info)
      = Ok chunks
    ∧ same_none (map (fun item => store w !! item_key item) batch_info) chunks
    ∧ heap w' !!! base out
      = fold_left (assign_out (view out)) (combine chunks batch_info)
          (heap w !!! base out)
    ∧ (∀ l, l < length (heap w) -> l ≠ base out -> heap w' !!! l = heap w !!! l)
    ∧ store w' = store w.
Proof.
  intros Hpartial Hdec Hout. unfold read_batched. rewrite Hpartial.
  unfold concurrent_map. rewrite bind_run, store_get_loop, bind_run.
  rewrite read_decode_input.
  set (w1 := {| store := store w; heap := heap w; log := _ |}).
  destruct (decode_batched self _ w1) as [r w2] eqn:Hrun.
  apply decode_batched_run in Hrun as (Hs2 & (h & Hh2) & _ & Hres).
  destruct (decode_values_honours self
              (map (fun item => (store w !! item_key item, item_spec item)) batch_info)
              Hdec) as (chunks & Hchunks & Hsame).
  rewrite Hchunks in Hres. destruct Hres as (batch & -> & Hc & Hfresh).
  rewrite map_map in Hsame. simpl in Hsame.
  assert (Hout2 : valid w2 out).
  { apply (valid_heap_app w1 w2 out h); done. }
  destruct (write_out_loop out (combine batch batch_info) w2 Hout2)
    as (w' & Hloop & Hs & Hl & Hlen & Hother & Hbuf).
  { assert (Hall : Forall (from_option (fun r => base r ≠ base out) True) batch).
    { eapply Forall_impl; [exact Hfresh|]. intros [r|]; simpl; [|done].
      unfold valid in Hout. lia. }
    clear -Hall. revert batch_info.
    induction Hall as [|r batch Hr _ IH]; intros [|item batch_info]; simpl;
      try constructor; [done|apply IH]. }
  exists chunks, w'. split; [exact Hloop|]. split; [exact Hchunks|].
  split; [exact Hsame|]. split.
  { rewrite Hbuf, contents_zip, Hc, Hh2. simpl.
    now rewrite lookup_total_app_l. }
  split.
  { intros l Hl1 Hl2. rewrite Hother by done. rewrite Hh2. simpl.
    now rewrite lookup_total_app_l. }
  now rewrite Hs, Hs2.
Qed.

(** ** Reads leave the store alone *)

Lemma write_out_frame (out : ndarray) (items : list (option ndarray * BatchItem))
    (w : World) :
  ∃ w',
    foldM (fun _ item => write_out out item) items tt w = (Ok tt, w')
    ∧ store w' = store w ∧ log w' = log w.
Proof.
  revert w.
  induction items as [|[chunk [[[key chunk_spec] chunk_selection] out_selection]]
                        items IH]; intros w.
  { exists w. done. }
  destruct (write_out out (chunk, (key, chunk_spec, chunk_selection, out_selection)) w)
    as [r w1] eqn:Hstep.
  assert (r = Ok tt ∧ store w1 = store w ∧ log w1 = log w) as (-> & Hs1 & Hl1).
  { destruct chunk as [c|]; cbn in Hstep; injection Hstep as <- <-; done. }
  destruct (IH w1) as (w' & Hloop & Hs & Hl).
  exists w'. split; [|split; congruence].
  apply (foldM_cons_ok _ _ _ _ tt w w1); [exact Hstep|exact Hloop].
Qed.

Lemma write_out_partial_frame (out : ndarray)
    (items : list (option ndarray * BatchItem)) (w : World) :
  ∃ w',
    foldM (fun _ item => write_out_partial out item) items tt w = (Ok tt, w')
    ∧ store w' = store w ∧ log w' = log w.
Proof.
  revert w.
  induction items as [|[chunk [[[key chunk_spec] chunk_selection] out_selection]]
                        items IH]; intros w.
  { exists w. done. }
  destruct (write_out_partial out
              (chunk, (key, chunk_spec, chunk_selection, out_selection)) w)
    as [r w1] eqn:Hstep.
  assert (r = Ok tt ∧ store w1 = store w ∧ log w1 = log w) as (-> & Hs1 & Hl1).
  { destruct chunk as [c|]; cbn in Hstep; injection Hstep as <- <-; done. }
  destruct (IH w1) as (w' & Hloop & Hs & Hl).
  exists w'. split; [|split; congruence].
  apply (foldM_cons_ok _ _ _ _ tt w w1); [exact Hstep|exact Hloop].
Qed.

Lemma decode_events_no_write (self : BatchedCodecPipeline)
    (chunk_specs : list ArraySpec) (evs : list Event) :
  evs `prefix_of` decode_events self chunk_specs ->
  Forall (fun e => is_store_write e = false) evs ∧ omap store_op evs = [].
Proof.
  intros [k Hk]. unfold decode_events in Hk.
  rewrite resolved_metadata_parts in Hk. cbv beta iota zeta in Hk.
  assert (Hall : Forall (fun e => is_store_write e = false ∧ store_op e = None)
                   (evs ++ k)).
  { rewrite <- Hk. rewrite !Forall_app. repeat split.
    - apply List.Forall_forall. intros e Hin. apply in_map_iff in Hin.
      destruct Hin as ([c s] & <- & _). done.
    - constructor; [done|constructor].
    - apply List.Forall_forall. intros e Hin. apply in_map_iff in Hin.
      destruct Hin as ([c s] & <- & _). done. }
  apply Forall_app in Hall as [Hall _]. clear Hk. split.
  - eapply Forall_impl; [exact Hall|]. now intros e [? _].
  - induction Hall as [|e evs [_ He] _ IH]; [done|].
    cbn [omap list_omap]. now rewrite He.
Qed.

Lemma omap_store_gets (keys : list StorePath) :
  omap store_op (map StoreGet keys) = map StoreGet keys.
Proof. induction keys as [|k keys IH]; [done|]. simpl. f_equal. exact IH. Qed.

(** The world reached by [read_batched]. *)
Lemma read_batched_effects (self : BatchedCodecPipeline) (batch_info : list BatchItem)
    (out : ndarray) (runtime_configuration : RuntimeConfiguration) (w : World) :
  let w' := (read_batched self batch_info out runtime_configuration w).2 in
  (supports_partial_decode self = false ->
   store w' = store w
   ∧ ∃ evs, log w' = log w ++ evs
            ∧ Forall (fun e => is_store_write e = false) evs
            ∧ omap store_op evs = map StoreGet (map item_key batch_info))
  ∧ (supports_partial_decode self = true ->
     ∃ decode_partial,
       ab_decode_partial_batched (array_bytes_codec self) = Some decode_partial
       ∧ let w1 :=
           (decode_partial
              (map
                 (fun '(store_path, chunk_spec, chunk_selection, _) =>
                    (store_path, chunk_selection, chunk_spec))
                 batch_info)
              {| store := store w; heap := heap w;
                 log := log w
                        ++ [DecodePartialBatched (ab_name (array_bytes_codec self))
                              (map
                                 (fun '(store_path, chunk_spec, chunk_selection, _) =>
                                    (store_path, chunk_selection, chunk_spec))
                                 batch_info)] |}).2 in
         store w' = store w1 ∧ log w' = log w1).
Proof.
  cbv zeta. split; intros Hpartial; unfold read_batched; rewrite Hpartial.
  - unfold concurrent_map. rewrite bind_run, store_get_loop, bind_run.
    set (w1 := {| store := store w; heap := heap w; log := _ |}).
    match goal with |- context [decode_batched self ?l w1] =>
      destruct (decode_batched self l w1) as [r w2] eqn:Hrun end.
    apply decode_batched_run in Hrun as (Hs2 & _ & (evs & Hl2 & Hp & _) & _).
    apply decode_events_no_write in Hp as [Hnw Hops].
    assert (Hkeys : map (fun '(store_path, _, _, _) => store_path) batch_info
                    = map item_key batch_info).
    { apply map_ext. now intros [[[? ?] ?] ?]. }
    assert (Hlog : ∀ w', store w' = store w2 -> log w' = log w2 ->
              store w' = store w
              ∧ ∃ evs', log w' = log w ++ evs'
                        ∧ Forall (fun e => is_store_write e = false) evs'
                        ∧ omap store_op evs' = map StoreGet (map item_key batch_info)).
    { intros w' Hs Hl. split; [now rewrite Hs, Hs2|].
      exists (map StoreGet (map item_key batch_info) ++ evs).
      split; [rewrite Hl, Hl2; unfold w1; simpl; now rewrite Hkeys, app_assoc|].
      split.
      - apply Forall_app. split; [|exact Hnw].
        apply List.Forall_forall. intros e Hin. apply in_map_iff in Hin.
        now destruct Hin as (k & <- & _).
      - rewrite omap_app, Hops, app_nil_r. apply omap_store_gets. }
    destruct r as [batch|e]; [|now apply Hlog].
    destruct (write_out_frame out (combine batch batch_info) w2)
      as (w' & Hloop & Hs & Hl).
    rewrite Hloop. now apply Hlog.
  - unfold decode_partial_batched. rewrite Hpartial. cbn [negb].
    unfold supports_partial_decode in Hpartial.
    apply andb_true_iff in Hpartial as [_ Hsome].
    apply bool_decide_eq_true in Hsome as [decode_partial Hsome].
    rewrite Hsome. exists decode_partial. split; [done|].
    rewrite !bind_run. cbn [emit].
    match goal with |- context [decode_partial ?a ?w0] =>
      destruct (decode_partial a w0) as [r w1] eqn:Hrun end.
    destruct r as [batch|e]; [|done].
    destruct (write_out_partial_frame out (combine batch batch_info) w1)
      as (w' & Hloop & Hs & Hl).
    rewrite Hloop. done.
Qed.

(** C10. [read_batched], and hence [getitem], never calls [set] or
    [delete].  On the full-decode path the store operations of the call are
    a [get] per batch item, followed by codec calls only.  On the
    partial-decode path the pipeline issues no store operation of its own:
    after dispatching to the codec's partial decoder it only assigns into
    the output.  So the store is unchanged by a read, provided the partial
    decoder of the array-bytes codec, which does its own store traffic,
    leaves it unchanged. *)
Theorem reads_preserve_store (self : BatchedCodecPipeline) :
  (∀ decode_partial,
     ab_decode_partial_batched (array_bytes_codec self) = Some decode_partial ->
     ∀ batch w0, store (decode_partial batch w0).2 = store w0) ->
  (∀ batch_info out runtime_configuration w,
     let w' := (read_batched self batch_info out runtime_configuration w).2 in
     store w' = store w
     ∧ (supports_partial_decode self = false ->
        ∃ evs, log w' = log w ++ evs
               ∧ Forall (fun e => is_store_write e = false) evs
               ∧ omap store_op evs = map StoreGet (map item_key batch_info))
     ∧ (supports_partial_decode self = true ->
        ∃ decode_partial,
          ab_decode_partial_batched (array_bytes_codec self) = Some decode_partial
          ∧ log w' =
              log
                (decode_partial
                   (map
                      (fun '(store_path, chunk_spec, chunk_selection, _) =>
                         (store_path, chunk_selection, chunk_spec))
                      batch_info)
                   {| store := store w; heap := heap w;
                      log := log w
                             ++ [DecodePartialBatched
                                   (ab_name (array_bytes_codec self))
                                   (map
                                      (fun '(store_path, chunk_spec,
                                             chunk_selection, _) =>
                                         (store_path, chunk_selection, chunk_spec))
                                      batch_info)] |}).2))
  ∧ (∀ (array : AsyncArray) selection w,
       codecs array = self -> store (getitem array selection w).2 = store w).
Proof.
  intros Hframe.
  assert (Hread : ∀ batch_info out runtime_configuration w,
            store (read_batched self batch_info out runtime_configuration w).2
            = store w).
  { intros batch_info out rc w.
    destruct (read_batched_effects self batch_info out rc w) as [Hfull Hpart].
    cbv zeta in Hfull, Hpart.
    destruct (supports_partial_decode self) eqn:Hsup.
    - destruct (Hpart eq_refl) as (f & Hf & Hs & _). rewrite Hs.
      now rewrite (Hframe f Hf). 
    - now destruct (Hfull eq_refl) as [Hs _]. }
  split.
  - intros batch_info out rc w. cbv zeta.
    destruct (read_batched_effects self batch_info out rc w) as [Hfull Hpart].
    cbv zeta in Hfull, Hpart.
    split; [apply Hread|]. split.
    + intros Hsup. now destruct (Hfull Hsup) as [_ Hevs].
    + intros Hsup. destruct (Hpart Hsup) as (f & Hf & _ & Hl). now exists f.
  - intros array selection w <-. unfold getitem.
    destruct (chunk_grid (metadata array)) as [chunk_shape|]; [|done].
    rewrite bind_run. unfold lift at 1.
    destruct (BasicIndexer selection (md_shape (metadata array)) chunk_shape)
      as [indexer|e]; [|done].
    rewrite bind_run. cbn [alloc]. rewrite bind_run.
    match goal with |- context [read_batched ?p ?b ?o ?rc ?w0] =>
      pose proof (Hread b o rc w0) as Hs;
      destruct (read_batched p b o rc w0) as [r w1] end.
    simpl in Hs. destruct r as [[]|e]; [|done].
    rewrite bind_run. cbn [load].
    destruct (arr_shape _); done.
Qed.

(** ** The partial-encode path of [write_batched] *)

Lemma partial_batch_run (value : ndarray) (batch_info : list BatchItem) (w : World) :
  mapM
    (fun '(store_path, chunk_spec, chunk_selection, out_selection) =>
       let* new_chunk_array_slice := value_getitem (VArray value) out_selection in
       ret (store_path, new_chunk_array_slice, chunk_selection, chunk_spec))
    batch_info w
  = (Ok
       (map
          (fun '(store_path, chunk_spec, chunk_selection, out_selection) =>
             (store_path, subscript value out_selection, chunk_selection, chunk_spec))
          batch_info),
     w).
Proof.
  induction batch_info as [|[[[key chunk_spec] chunk_selection] out_selection]
                             batch_info IH]; [done|].
  cbn [map]. apply (mapM_cons_ok _ _ _ _ _ w w w); [reflexivity|exact IH].
Qed.

(** C9. When [supports_partial_encode] holds, [write_batched] is one
    dispatch to the partial encoder of the array-bytes codec, with one
    [(store_path, value[out_selection], chunk_selection, chunk_spec)] entry
    per batch item, and nothing else: the world it reaches is the one the
    codec reaches from the world in which the dispatch has been logged.
    Whatever [get], [set] or [delete] happens is the codec's; there is no
    fill-value check, so a codec that leaves the store alone leaves every
    key in place, also for a value that is all fill. *)
Theorem write_batched_partial (self : BatchedCodecPipeline)
    (batch_info : list BatchItem) (value : ndarray)
    (runtime_configuration : RuntimeConfiguration) (w : World) :
  supports_partial_encode self = true ->
  ∃ encode_partial,
    ab_encode_partial_batched (array_bytes_codec self) = Some encode_partial
    ∧ let batch :=
        map
          (fun '(store_path, chunk_spec, chunk_selection, out_selection) =>
             (store_path, subscript value out_selection, chunk_selection, chunk_spec))
          batch_info in
      let dispatch :=
        EncodePartialBatched (ab_name (array_bytes_codec self)) batch in
      let run := write_batched self batch_info (VArray value) runtime_configuration w in
      length batch = length batch_info
      ∧ run = encode_partial batch
                {| store := store w; heap := heap w; log := log w ++ [dispatch] |}
      ∧ ((∀ a w0, store (encode_partial a w0).2 = store w0) -> store run.2 = store w)
      ∧ ((∀ a w0, log (encode_partial a w0).2 = log w0) ->
         log run.2 = log w ++ [dispatch]).
Proof.
  intros Hsup. pose proof Hsup as Hsup'.
  unfold supports_partial_encode in Hsup'.
  apply andb_true_iff in Hsup' as [_ Hsome].
  apply bool_decide_eq_true in Hsome as [encode_partial Hsome].
  exists encode_partial. split; [exact Hsome|]. cbv zeta.
  assert (Hrun : write_batched self batch_info (VArray value) runtime_configuration w
                 = encode_partial
                     (map
                        (fun '(store_path, chunk_spec, chunk_selection, out_selection) =>
                           (store_path, subscript value out_selection,
                            chunk_selection, chunk_spec))
                        batch_info)
                     {| store := store w; heap := heap w;
                        log := log w
                               ++ [EncodePartialBatched
                                     (ab_name (array_bytes_codec self))
                                     (map
                                        (fun '(store_path, chunk_spec,
                                               chunk_selection, out_selection) =>
                                           (store_path,
                                            subscript value out_selection,
                                            chunk_selection, chunk_spec))
                                        batch_info)] |}).
  { unfold write_batched. rewrite Hsup, bind_run, partial_batch_run.
    unfold encode_partial_batched. rewrite Hsup, Hsome. cbn [negb].
    rewrite bind_run. done. }
  split; [apply length_map|]. split; [exact Hrun|]. split.
  - intros Hstore. now rewrite Hrun, Hstore.
  - intros Hlog. now rewrite Hrun, Hlog.
Qed.

(** ** Scalars in [write_batched] *)

(** A scalar value makes [write_batched] raise as soon as the batch has an
    item: on the partial-encode path before the dispatch, on the
    read-modify-write path after the existing chunks were read and
    decoded and before anything is written. *)
Lemma write_batched_scalar_raises (self : BatchedCodecPipeline)
    (batch_info : list BatchItem) (x : Elem)
    (runtime_configuration : RuntimeConfiguration) (w : World) :
  decoders_honour_none self ->
  batch_info ≠ [] ->
  (write_batched self batch_info (VScalar x) runtime_configuration w).1
  = Raise TypeError
  ∧ store (write_batched self batch_info (VScalar x) runtime_configuration w).2
    = store w.
Proof.
  intros Hdec Hne.
  unfold write_batched. destruct (supports_partial_encode self).
  - destruct batch_info as [|[[[key chunk_spec] chunk_selection] out_selection]
                              batch_info]; done.
  - destruct (rmw_existing_run self batch_info runtime_configuration w Hdec)
      as (existing & w1 & w2 & Hget & _ & _ & _ & Hdecode & Hs2 & _ & _ & _ & Hsame & _).
    rewrite bind_run, Hget, bind_run, Hdecode, bind_run.
    apply same_none_length in Hsame. rewrite length_map in Hsame.
    unfold rmw_merge.
    destruct batch_info as [|[[[key chunk_spec] chunk_selection] out_selection]
                              batch_info]; [done|].
    destruct existing as [|e existing]; [done|].
    cbn [combine mapM]. rewrite bind_run.
    cbn [value_getitem bind raise]. done.
Qed.

(** ** [resize] *)

Lemma delete_keys_run (self : AsyncArray) (coords : list ChunkCoords) (w : World) :
  mapM (_delete_key self)
    (map (encode_chunk_key (chunk_key_encoding (metadata self))) coords) w
  = (Ok (map (fun _ => tt) coords),
     {| store := fold_left (fun st c => delete (chunk_key self c) st) coords (store w);
        heap := heap w;
        log := log w ++ map (fun c => StoreDelete (chunk_key self c)) coords |}).
Proof.
  revert w. induction coords as [|c coords IH]; intros w.
  - simpl. unfold ret. now rewrite app_nil_r, world_eta.
  - cbn [map mapM]. rewrite bind_run. cbn [_delete_key store_delete].
    rewrite bind_run, IH. cbn [ret store heap log fold_left].
    now rewrite <- app_assoc.
Qed.

Lemma fold_delete_lookup {A} (f : A -> string) (l : list A)
    (st : gmap string BytesLike) (key : string) :
  fold_left (fun st c => delete (f c) st) l st !! key
  = if decide (key ∈ map f l) then None else st !! key.
Proof.
  revert st. induction l as [|c l IH]; intros st.
  - cbn [fold_left map]. destruct (decide (key ∈ [])) as [Hin|_]; [|done].
    now apply elem_of_nil in Hin.
  - cbn [fold_left map]. rewrite IH.
    destruct (decide (key ∈ map f l)) as [Hin|Hnot];
      destruct (decide (key ∈ f c :: map f l)) as [Hin'|Hnot']; try done.
    + exfalso. apply Hnot'. now right.
    + apply elem_of_cons in Hin' as [->|?]; [|done]. apply lookup_delete_eq.
    + apply lookup_delete_ne. intros <-. apply Hnot'. left.
Qed.

(** The run of [resize] with [delete_outside_chunks] set. *)
Lemma resize_run (self : AsyncArray) (new_shape chunk_shape : ChunkCoords) (w : World) :
  length new_shape = length (md_shape (metadata self)) ->
  chunk_grid (metadata self) = RegularChunkGrid chunk_shape ->
  let outside :=
    elements (grid_coords (md_shape (metadata self)) chunk_shape
              ∖ grid_coords new_shape chunk_shape) in
  let new_metadata := replace_shape (metadata self) new_shape in
  resize self new_shape true w
  = (Ok (replace_metadata self new_metadata),
     {| store :=
          <[metadata_key self := to_bytes new_metadata]>
            (fold_left (fun st c => delete (chunk_key self c) st) outside (store w));
        heap := heap w;
        log := log w
               ++ map (fun c => StoreDelete (chunk_key self c)) outside
               ++ [StoreSet (metadata_key self) (to_bytes new_metadata)] |}).
Proof.
  intros Hlen Hgrid. cbv zeta. unfold resize.
  rewrite Hlen, Nat.eqb_refl, Hgrid. cbn [negb].
  unfold concurrent_map, grid_coords, metadata_key.
  rewrite bind_run, bind_run, delete_keys_run. cbn [ret store_set bind].
  cbn [store heap log]. now rewrite <- app_assoc.
Qed.

(** C7 (amended). For a new shape of the same arity, [resize] with
    [delete_outside_chunks] set issues a [delete] for the key of each chunk
    coordinate of the old shape that is not one of the new shape, once each
    and for no other key, then sets the metadata key to the replaced
    metadata, and returns the array with the new shape; the array it was
    called on is a value and stays as it was.  Every other key of the store
    is left as it was.  Afterwards the chunk keys present are keys of chunk
    coordinates of the new shape, provided the chunk keys present before
    were keys of chunk coordinates of the old shape. *)
Theorem resize_deletes_outside_chunks (self : AsyncArray)
    (new_shape chunk_shape : ChunkCoords) (w : World) :
  length new_shape = length (md_shape (metadata self)) ->
  chunk_grid (metadata self) = RegularChunkGrid chunk_shape ->
  let old_chunk_coords := grid_coords (md_shape (metadata self)) chunk_shape in
  let new_chunk_coords := grid_coords new_shape chunk_shape in
  let outside := elements (old_chunk_coords ∖ new_chunk_coords) in
  let new_metadata := replace_shape (metadata self) new_shape in
  ∃ self' w',
    resize self new_shape true w = (Ok self', w')
    ∧ self' = replace_metadata self new_metadata
    ∧ shape self' = new_shape
    ∧ log w' =
        log w
        ++ map (fun c => StoreDelete (chunk_key self c)) outside
        ++ [StoreSet (metadata_key self) (to_bytes new_metadata)]
    ∧ NoDup outside
    ∧ (∀ c, c ∈ outside ↔ c ∈ old_chunk_coords ∧ c ∉ new_chunk_coords)
    ∧ store w' !! metadata_key self = Some (to_bytes new_metadata)
    ∧ (∀ key, key ≠ metadata_key self ->
              store w' !! key
              = if decide (key ∈ map (chunk_key self) outside) then None
                else store w !! key)
    ∧ ((∀ key, chunk_key_present self w key ->
               chunk_key_within self (md_shape (metadata self)) chunk_shape key) ->
       ∀ key, chunk_key_present self' w' key ->
              chunk_key_within self' new_shape chunk_shape key).
Proof.
  intros Hlen Hgrid. cbv zeta.
  set (old_chunk_coords := grid_coords (md_shape (metadata self)) chunk_shape).
  set (new_chunk_coords := grid_coords new_shape chunk_shape).
  set (outside := elements (old_chunk_coords ∖ new_chunk_coords)).
  eexists _, _. split; [apply (resize_run self new_shape chunk_shape w Hlen Hgrid)|].
  cbv zeta. fold old_chunk_coords new_chunk_coords outside. cbn [store log].
  assert (Hout : ∀ c, c ∈ outside ↔ c ∈ old_chunk_coords ∧ c ∉ new_chunk_coords).
  { intros c. unfold outside. rewrite elem_of_elements. apply elem_of_difference. }
  assert (Hother : ∀ key, key ≠ metadata_key self ->
            <[metadata_key self :=
                to_bytes (replace_shape (metadata self) new_shape)]>
              (fold_left (fun st c => delete (chunk_key self c) st) outside (store w))
            !! key
            = if decide (key ∈ map (chunk_key self) outside) then None
              else store w !! key).
  { intros key Hne. rewrite lookup_insert_ne by done. apply fold_delete_lookup. }
  split; [done|]. split; [done|]. split; [done|].
  split; [apply NoDup_elements|]. split; [exact Hout|].
  split; [apply lookup_insert_eq|]. split; [exact Hother|].
  intros Hbefore key (Hdom & Hmeta & c0 & Hc0).
  change (metadata_key (replace_metadata self (replace_shape (metadata self) new_shape)))
    with (metadata_key self) in Hmeta.
  change (chunk_key (replace_metadata self (replace_shape (metadata self) new_shape)) c0)
    with (chunk_key self c0) in Hc0.
  cbn [store] in Hdom. apply elem_of_dom in Hdom.
  rewrite (Hother key Hmeta) in Hdom.
  destruct (decide (key ∈ map (chunk_key self) outside)) as [|Hnot];
    [now destruct Hdom|].
  destruct (Hbefore key) as (c & Hc & Hkey).
  { split; [now apply elem_of_dom|]. split; [done|]. now exists c0. }
  exists c. split; [|exact Hkey].
  destruct (decide (c ∈ new_chunk_coords)) as [|Hc_new]; [done|].
  exfalso. apply Hnot. rewrite Hkey.
  apply list_elem_of_In, in_map, list_elem_of_In, Hout. done.
Qed.

(** ** Encoding, then decoding *)

Lemma fold_result_app {A B} (f : B -> A -> result B) (l1 l2 : list A) (acc : B) :
  fold_result f (l1 ++ l2) acc
  = match fold_result f l1 acc with
    | Ok acc' => fold_result f l2 acc'
    | Raise e => Raise e
    end.
Proof.
  revert acc. induction l1 as [|x l1 IH]; intros acc; simpl; [done|].
  destruct (f acc x); [apply IH|done].
Qed.

(** An encode loop over codecs whose decoders invert them, followed by the
    decode loop over the same codecs in reverse with the same specs, gives
    back the batch.  [inv] is what the loop keeps true of the batch and its
    specs. *)
Lemma encode_fold_inverse {C A} `{Codec C}
    (inv : list (option A) -> list ArraySpec -> Prop)
    (enc dec : C -> list (option A * ArraySpec) -> result (list (option A)))
    (codecs : list C) :
  Forall
    (fun codec =>
       ∀ batch chunk_specs out,
         inv batch chunk_specs ->
         enc codec (combine batch chunk_specs) = Ok out ->
         inv out (map (resolve_metadata codec) chunk_specs)
         ∧ dec codec (combine out chunk_specs) = Ok batch)
    codecs ->
  ∀ batch chunk_specs out chunk_specs',
    inv batch chunk_specs ->
    fold_result
      (fun '(batch, chunk_specs) codec =>
         match enc codec (combine batch chunk_specs) with
         | Ok batch' => Ok (batch', resolve_batched codec chunk_specs)
         | Raise e => Raise e
         end)
      codecs (batch, chunk_specs) = Ok (out, chunk_specs') ->
    chunk_specs' = resolve_all codecs chunk_specs
    ∧ inv out chunk_specs'
    ∧ fold_result
        (fun batch '(codec, chunk_spec_batch) =>
           dec codec (combine batch chunk_spec_batch))
        (rev (spec_chain codecs chunk_specs)) out
      = Ok batch.
Proof.
  induction 1 as [|c codecs Hc _ IH]; intros batch specs out specs' Hinv; simpl.
  - intros [= <- <-]. done.
  - destruct (enc c (combine batch specs)) as [batch1|e] eqn:Henc; [|done].
    intros Hfold. destruct (Hc batch specs batch1 Hinv Henc) as [Hinv1 Hdec].
    destruct (IH batch1 (resolve_batched c specs) out specs' Hinv1 Hfold)
      as (Hspecs & Hinv' & Hback).
    split; [exact Hspecs|]. split; [exact Hinv'|].
    rewrite fold_result_app. unfold resolve_batched in Hback. rewrite Hback.
    simpl. now rewrite Hdec.
Qed.

Lemma conforming_length (good : Arr -> ArraySpec -> Prop)
    (batch : list (option Arr)) (chunk_specs : list ArraySpec) :
  conforming good batch chunk_specs -> length batch = length chunk_specs.
Proof. apply Forall2_length. Qed.

(** What the codecs compute when [decode_batched] is given what
    [encode_batched] returned. *)
Lemma encode_decode_values (good : Arr -> ArraySpec -> Prop)
    (self : BatchedCodecPipeline) (batch : list (option Arr))
    (chunk_specs : list ArraySpec) (chunk_bytes_batch : list (option BytesLike)) :
  lossless good self ->
  conforming good batch chunk_specs ->
  encode_values self (combine batch chunk_specs) = Ok chunk_bytes_batch ->
  length chunk_bytes_batch = length batch
  ∧ decode_values self (combine chunk_bytes_batch chunk_specs) = Ok batch.
Proof.
  intros (Haa & Hab & Hbb) Hgood. pose proof (conforming_length _ _ _ Hgood) as Hlen.
  unfold encode_values, decode_values.
  rewrite map_fst_combine, map_snd_combine by done.
  destruct (fold_result _ (array_array_codecs self) (batch, chunk_specs))
    as [[a1 specs1]|e] eqn:Hfold_aa; [|done].
  destruct (encode_fold_inverse (conforming good) aa_encode_batch aa_decode_batch
              (array_array_codecs self))
    with (batch := batch) (chunk_specs := chunk_specs) (out := a1)
         (chunk_specs' := specs1) as (-> & Hgood1 & Hback_aa).
  { eapply Forall_impl; [exact Haa|]. intros c Hc. exact Hc. }
  { exact Hgood. }
  { exact Hfold_aa. }
  destruct (ab_encode_batch (array_bytes_codec self)
              (combine a1 (resolve_all (array_array_codecs self) chunk_specs)))
    as [b1|e] eqn:Henc_ab; [|done].
  destruct (Hab a1 _ b1 Hgood1 Henc_ab) as [Hlen_b1 Hdec_ab].
  pose proof (conforming_length _ _ _ Hgood1) as Hlen_a1.
  destruct (fold_result _ (bytes_bytes_codecs self) (b1, _))
    as [[b2 specs2]|e] eqn:Hfold_bb; [|done].
  intros [= <-].
  destruct (encode_fold_inverse
              (fun (b : list (option BytesLike)) s => length b = length s)
              bb_encode_batch bb_decode_batch (bytes_bytes_codecs self))
    with (batch := b1)
         (chunk_specs := resolve_batched (array_bytes_codec self)
                           (resolve_all (array_array_codecs self) chunk_specs))
         (out := b2) (chunk_specs' := specs2) as (-> & Hlen_b2 & Hback_bb).
  { eapply Forall_impl; [exact Hbb|]. intros c Hc b s out Hbs Henc.
    destruct (Hc b s out Hbs Henc) as [Hlo Hdec]. split; [|exact Hdec].
    rewrite length_map. congruence. }
  { unfold resolve_batched. rewrite length_map. congruence. }
  { exact Hfold_bb. }
  destruct (spec_chain_lengths (bytes_bytes_codecs self)
              (resolve_batched (array_bytes_codec self)
                 (resolve_all (array_array_codecs self) chunk_specs))) as [_ Hl_bb].
  destruct (spec_chain_lengths (array_array_codecs self) chunk_specs) as [_ Hl_aa].
  assert (Hlen_out : length b2 = length batch).
  { rewrite Hlen_b2, Hl_bb. unfold resolve_batched. rewrite length_map, Hl_aa.
    now symmetry. }
  split; [exact Hlen_out|].
  rewrite map_fst_combine, map_snd_combine by congruence.
  rewrite resolved_metadata_parts. cbv beta iota zeta.
  unfold resolve_batched in Hback_bb. rewrite Hback_bb. simpl.
  rewrite Hdec_ab. exact Hback_aa.
Qed.

Lemma with_contents_combine (w : World) (batch : list (option ndarray * ArraySpec)) :
  with_contents w batch = combine (contents w (map fst batch)) (map snd batch).
Proof. induction batch as [|[a s] batch IH]; simpl; [done|]. now rewrite IH. Qed.

(** X2. Round trip through the pipeline.  For codecs that lose nothing on
    chunks that fit their specs: when [encode_batched] returns, handing its
    result to [decode_batched] with the same chunk specs does not raise and
    returns new array objects whose contents are those of the encoded
    chunks, [None] where a chunk was [None].  This rests on
    [decode_batched] giving every codec the specs [encode_batched] gave
    it. *)
Theorem encode_then_decode (good : Arr -> ArraySpec -> Prop)
    (self : BatchedCodecPipeline)
    (chunk_arrays_and_specs : list (option ndarray * ArraySpec))
    (chunk_bytes_batch : list (option BytesLike)) (w w1 : World) :
  lossless good self ->
  conforming good (contents w (map fst chunk_arrays_and_specs))
    (map snd chunk_arrays_and_specs) ->
  encode_batched self chunk_arrays_and_specs w = (Ok chunk_bytes_batch, w1) ->
  ∃ chunk_array_batch w2,
    decode_batched self (combine chunk_bytes_batch (map snd chunk_arrays_and_specs)) w1
    = (Ok chunk_array_batch, w2)
    ∧ contents w2 chunk_array_batch = contents w (map fst chunk_arrays_and_specs)
    ∧ Forall (fresh_since w1 w2) chunk_array_batch
    ∧ store w2 = store w.
Proof.
  intros Hlossless Hgood Hencode.
  apply encode_batched_run in Hencode as (Hs1 & _ & _ & Hvalues).
  rewrite with_contents_combine in Hvalues. symmetry in Hvalues.
  destruct (encode_decode_values good self _ _ _ Hlossless Hgood Hvalues)
    as [Hlen Hback].
  destruct (decode_batched self
              (combine chunk_bytes_batch (map snd chunk_arrays_and_specs)) w1)
    as [r w2] eqn:Hdecode.
  apply decode_batched_run in Hdecode as (Hs2 & _ & _ & Hres).
  rewrite Hback in Hres. destruct Hres as (batch & -> & Hc & Hfresh).
  exists batch, w2. repeat split; try done. congruence.
Qed.

(** ** [unzip2] *)

(** X1. [unzip2] returns the first and the second components, each in
    input order and as many as there were pairs, so that zipping them gives
    the input back; applied to a zip it gives the two lists back, cut to the
    length of the shorter one as [zip] does. *)
Theorem unzip2_zip {T U} (l : list (T * U)) (xs : list T) (ys : list U) :
  unzip2 l = (map fst l, map snd l)
  ∧ combine (unzip2 l).1 (unzip2 l).2 = l
  ∧ length (unzip2 l).1 = length l
  ∧ length (unzip2 l).2 = length l
  ∧ unzip2 (combine xs ys) = (take (length ys) xs, take (length xs) ys).
Proof.
  rewrite !unzip2_map. simpl. rewrite !length_map.
  split; [done|]. split.
  { induction l as [|[x y] l IH]; simpl; [done|]. now rewrite IH. }
  split; [done|]. split; [done|].
  revert ys. induction xs as [|x xs IH]; intros [|y ys]; simpl; try done.
  specialize (IH ys). now injection IH as -> ->.
Qed.

(** ** What [write_batched] leaves alone *)

Lemma zip_keys_subset {A} (xs : list A) (batch_info : list BatchItem)
    (key : StorePath) :
  key ∈ map (fun item : A * BatchItem => item_key item.2) (combine xs batch_info) ->
  key ∈ map item_key batch_info.
Proof.
  revert batch_info. induction xs as [|x xs IH]; intros [|item batch_info]; simpl;
    try (intros Hin; now apply elem_of_nil in Hin).
  intros Hin. apply elem_of_cons in Hin as [->|Hin]; [left|right; now apply IH].
Qed.

Lemma encode_events_no_write (self : BatchedCodecPipeline)
    (chunk_specs : list ArraySpec) (evs : list Event) :
  evs `prefix_of` encode_events self chunk_specs ->
  Forall (fun e => is_store_write e = false) evs.
Proof.
  intros [k Hk]. unfold encode_events in Hk.
  rewrite resolved_metadata_parts in Hk. cbv beta iota zeta in Hk.
  assert (Hall : Forall (fun e => is_store_write e = false) (evs ++ k)).
  { rewrite <- Hk. rewrite !Forall_app. repeat split.
    - apply List.Forall_forall. intros e Hin. apply in_map_iff in Hin.
      destruct Hin as ([c s] & <- & _). done.
    - constructor; [done|constructor].
    - apply List.Forall_forall. intros e Hin. apply in_map_iff in Hin.
      destruct Hin as ([c s] & <- & _). done. }
  now apply Forall_app in Hall as [Hall _].
Qed.

Lemma existing_gets_no_write (batch_info : list BatchItem) :
  Forall (fun e => is_store_write e = false) (omap existing_get batch_info).
Proof.
  induction batch_info as [|[[[key chunk_spec] chunk_selection] out_selection]
                             batch_info IH]; [constructor|].
  cbn [omap list_omap existing_get].
  destruct (is_total_slice chunk_selection (spec_shape chunk_spec));
    [exact IH|constructor; [done|exact IH]].
Qed.

(** A value that is not an array object makes the merge raise at the
    first item; the merge of no item returns. *)
Lemma rmw_merge_not_array (batch_info : list BatchItem) (value : Value)
    (chunk_array_batch : list (option ndarray)) (w : World) :
  match value with VArray _ => False | _ => True end ->
  rmw_merge batch_info value chunk_array_batch w
  = (match combine chunk_array_batch batch_info with
     | [] => Ok []
     | _ :: _ => Raise TypeError
     end, w).
Proof.
  intros Hvalue. unfold rmw_merge.
  destruct (combine chunk_array_batch batch_info)
    as [|[existing [[[key chunk_spec] chunk_selection] out_selection]] items];
    [done|].
  destruct value; [|done|]; cbn [mapM]; rewrite bind_run; reflexivity.
Qed.

(** A run of the read-modify-write path, whatever the codecs do. *)
Lemma rmw_frame (self : BatchedCodecPipeline) (batch_info : list BatchItem)
    (value : Value) (runtime_configuration : RuntimeConfiguration)
    (w w' : World) (r : result unit) :
  supports_partial_encode self = false ->
  live_value w value ->
  write_batched self batch_info value runtime_configuration w = (r, w') ->
  (∃ h, heap w' = heap w ++ h)
  ∧ (∀ key, key ∉ map item_key batch_info -> store w' !! key = store w !! key)
  ∧ (is_ok r = false ->
     store w' = store w
     ∧ ∃ evs, log w' = log w ++ evs ∧ Forall (fun e => is_store_write e = false) evs).
Proof.
  intros Hpartial Hvalue. unfold write_batched. rewrite Hpartial.
  rewrite bind_run, rmw_chunk_bytes_batch_run, bind_run.
  set (w1 := {| store := store w; heap := heap w;
                log := log w ++ omap existing_get batch_info |}).
  destruct (rmw_decode self batch_info (map (existing_bytes w) batch_info) w1)
    as [r2 w2] eqn:Hdecode.
  unfold rmw_decode in Hdecode. rewrite rmw_decode_input in Hdecode.
  apply decode_batched_run in Hdecode
    as (Hs2 & (h2 & Hh2) & (evs2 & Hl2 & Hp2 & _) & Hres).
  apply decode_events_no_write in Hp2 as [Hnw2 _].
  pose proof (existing_gets_no_write batch_info) as Hgets.
  simpl in Hs2, Hh2, Hl2.
  destruct (decode_values self _) as [out|e].
  2:{ subst r2. intros [= <- <-]. split; [now exists h2|].
      split; [intros; now rewrite Hs2|]. intros _. split; [exact Hs2|].
      exists (omap existing_get batch_info ++ evs2).
      split; [rewrite Hl2; now rewrite app_assoc|]. now apply Forall_app. }
  destruct Hres as (existing & -> & Hc & Hfresh).
  rewrite bind_run.
  assert (Hmerge : ∃ r3 w3 h3,
            rmw_merge batch_info value existing w2 = (r3, w3)
            ∧ store w3 = store w2 ∧ log w3 = log w2 ∧ heap w3 = heap w2 ++ h3).
  { destruct value as [x|a|l].
    - eexists _, w2, []. rewrite rmw_merge_not_array by done.
      now rewrite app_nil_r.
    - destruct (rmw_merge_run batch_info a existing w2)
        as (merged & w3 & Hmerge & Hs3 & Hl3 & (h3 & Hh3) & _).
      { simpl in Hvalue. unfold valid in *. rewrite Hh2, length_app. lia. }
      { apply (fresh_since_valid _ _ _ Hfresh). }
      now exists (Ok merged), w3, h3.
    - eexists _, w2, []. rewrite rmw_merge_not_array by done.
      now rewrite app_nil_r. }
  destruct Hmerge as (r3 & w3 & h3 & Hmerge & Hs3 & Hl3 & Hh3). rewrite Hmerge.
  destruct r3 as [merged|e].
  2:{ intros [= <- <-]. split; [exists (h2 ++ h3); rewrite Hh3, Hh2; now rewrite app_assoc|].
      split; [intros; congruence|]. intros _. split; [congruence|].
      exists (omap existing_get batch_info ++ evs2).
      split; [rewrite Hl3, Hl2; now rewrite app_assoc|]. now apply Forall_app. }
  rewrite bind_run, rmw_elide_run, bind_run.
  destruct (rmw_encode self batch_info
              (map (elided w3) (combine merged batch_info)) w3)
    as [r4 w4] eqn:Hencode.
  unfold rmw_encode in Hencode.
  apply encode_batched_run in Hencode
    as (Hs4 & (h4 & Hh4) & (evs4 & Hl4 & Hp4 & _) & _).
  apply encode_events_no_write in Hp4.
  assert (Hheap : heap w4 = heap w ++ (h2 ++ h3 ++ h4)).
  { rewrite Hh4, Hh3, Hh2. now rewrite <- !app_assoc. }
  destruct r4 as [bytes|e].
  - rewrite rmw_write_run. intros [= <- <-]. cbn [store heap log].
    split; [eexists; exact Hheap|]. split; [|simpl; discriminate].
    intros key Hkey. rewrite apply_write_other.
    + congruence.
    + intros Hin. apply Hkey. eapply zip_keys_subset, Hin.
  - intros [= <- <-]. split; [eexists; exact Hheap|].
    split; [intros; congruence|]. intros _. split; [congruence|].
    exists (omap existing_get batch_info ++ evs2 ++ evs4).
    split; [rewrite Hl4, Hl3, Hl2; now rewrite <- !app_assoc|].
    rewrite !Forall_app. done.
Qed.

(** ** The read-modify-write path, stage by stage *)

(** A decode loop over codecs that return [None] exactly for [None]
    whenever they return keeps the [None] positions of its input. *)
Lemma decode_fold_keeps {C A}
    (dec : C -> list (option A * ArraySpec) -> result (list (option A)))
    (codecs : list (C * list ArraySpec)) (n : nat) :
  Forall (fun cs => keeps_none (dec cs.1) ∧ length cs.2 = n) codecs ->
  ∀ batch out, length batch = n ->
    fold_result
      (fun batch '(codec, chunk_spec_batch) =>
         dec codec (combine batch chunk_spec_batch))
      codecs batch = Ok out ->
    same_none batch out.
Proof.
  induction 1 as [|[c s] codecs [Hc Hs] _ IH]; intros batch out Hlen; simpl.
  - intros [= <-]. apply same_none_refl.
  - simpl in Hc, Hs.
    destruct (dec c (combine batch s)) as [out1|e] eqn:Hout1; [|discriminate].
    apply Hc in Hout1. rewrite map_fst_combine in Hout1 by congruence.
    intros Hout. eapply same_none_trans; [exact Hout1|].
    apply IH; [|exact Hout]. now rewrite <- (same_none_length _ _ Hout1).
Qed.

Lemma decode_values_keeps (self : BatchedCodecPipeline)
    (chunk_bytes_and_specs : list (option BytesLike * ArraySpec))
    (out : list (option Arr)) :
  decoders_keep_none self ->
  decode_values self chunk_bytes_and_specs = Ok out ->
  same_none (map fst chunk_bytes_and_specs) out.
Proof.
  intros (Haa & Hab & Hbb). unfold decode_values.
  rewrite resolved_metadata_parts. cbv beta iota zeta.
  set (specs := map snd chunk_bytes_and_specs).
  set (n := length chunk_bytes_and_specs).
  destruct (spec_chain_lengths (array_array_codecs self) specs) as [Hlaa Hls].
  match goal with |- context [spec_chain (bytes_bytes_codecs self) ?s] =>
    destruct (spec_chain_lengths (bytes_bytes_codecs self) s) as [Hlbb _];
    set (s_bb := s) in * end.
  assert (Hn : length specs = n) by (unfold specs, n; apply length_map).
  assert (Hn_bb : length s_bb = n).
  { unfold s_bb. now rewrite length_map, Hls. }
  match goal with |- context [fold_result ?f ?l ?a] =>
    destruct (fold_result f l a) as [b1|e] eqn:Hb1 end; [|discriminate].
  apply (decode_fold_keeps bb_decode_batch _ n) in Hb1 as Hs1.
  2:{ apply Forall_rev_intro.
      pose proof (spec_chain_codecs _ _ s_bb Hbb) as Hc.
      rewrite List.Forall_forall in *. intros cs Hin. split; [now apply Hc|].
      rewrite (Hlbb cs Hin). done. }
  2:{ unfold n. apply length_map. }
  simpl.
  destruct (ab_decode_batch (array_bytes_codec self) _) as [a1|e] eqn:Ha1;
    [|discriminate].
  apply Hab in Ha1 as Hs2.
  rewrite map_fst_combine in Hs2.
  2:{ rewrite <- (same_none_length _ _ Hs1), Hls, length_map. done. }
  intros Ha2.
  apply (decode_fold_keeps aa_decode_batch _ n) in Ha2 as Hs3.
  2:{ apply Forall_rev_intro.
      pose proof (spec_chain_codecs _ _ specs Haa) as Hc.
      rewrite List.Forall_forall in *. intros cs Hin. split; [now apply Hc|].
      rewrite (Hlaa cs Hin). done. }
  2:{ rewrite <- (same_none_length _ _ Hs2), <- (same_none_length _ _ Hs1).
      unfold n. apply length_map. }
  eapply same_none_trans; [exact Hs1|]. eapply same_none_trans; eassumption.
Qed.

(** Codecs that honour the batch contract return [None] exactly for
    [None] whenever they return. *)
Lemma honours_keeps_none {A B}
    (f : list (option A * ArraySpec) -> result (list (option B))) :
  honours_none f -> keeps_none f.
Proof.
  intros Hf batch out Hout. destruct (Hf batch) as (out' & Hout' & Hsame).
  congruence.
Qed.

Lemma decoders_honour_keep (self : BatchedCodecPipeline) :
  decoders_honour_none self -> decoders_keep_none self.
Proof.
  intros (Haa & Hab & Hbb). split; [|split].
  - eapply Forall_impl; [exact Haa|]. intros c. apply honours_keeps_none.
  - now apply honours_keeps_none.
  - eapply Forall_impl; [exact Hbb|]. intros c. apply honours_keeps_none.
Qed.

Lemma rmw_encode_run (self : BatchedCodecPipeline) (batch_info : list BatchItem)
    (merged : list ndarray) (w w' : World) (r : result (list (option BytesLike))) :
  rmw_encode self batch_info (map (elided w) (combine merged batch_info)) w = (r, w') ->
  r = encode_values self (encode_input w merged batch_info)
  ∧ store w' = store w
  ∧ (∃ h, heap w' = heap w ++ h)
  ∧ ∃ evs, log w' = log w ++ evs
           ∧ evs `prefix_of`
               encode_events self (map snd (encode_input w merged batch_info)).
Proof.
  unfold rmw_encode, encode_input. intros Hrun.
  apply encode_batched_run in Hrun as (Hs & Hh & (evs & Hl & Hp & _) & Hr).
  rewrite with_contents_snd.
  split; [exact Hr|]. split; [exact Hs|]. split; [exact Hh|].
  exists evs. done.
Qed.

(** A run of the read-modify-write path, statement by statement, for any
    codecs and any value: which statement raises, if one does, and the
    world that is reached. *)
Lemma rmw_stages (self : BatchedCodecPipeline) (batch_info : list BatchItem)
    (value : Value) (runtime_configuration : RuntimeConfiguration) (w : World) :
  supports_partial_encode self = false ->
  live_value w value ->
  let run := write_batched self batch_info value runtime_configuration w in
  let w1 := {| store := store w; heap := heap w;
               log := log w ++ omap existing_get batch_info |} in
  ∃ r2 w2 evs2,
    decode_batched self (decode_input w batch_info) w1 = (r2, w2)
    ∧ store w2 = store w
    ∧ (∃ h, heap w2 = heap w ++ h)
    ∧ log w2 = log w1 ++ evs2
    ∧ evs2 `prefix_of` decode_events self (map item_spec batch_info)
    ∧ match r2 with
      | Raise e =>
          decode_values self (decode_input w batch_info) = Raise e
          ∧ run = (Raise e, w2)
      | Ok chunk_array_batch =>
          decode_values self (decode_input w batch_info)
          = Ok (contents w2 chunk_array_batch)
          ∧ Forall (fresh_since w w2) chunk_array_batch
          ∧ ∃ r3 w3,
              rmw_merge batch_info value chunk_array_batch w2 = (r3, w3)
              ∧ rmw_merged self batch_info value runtime_configuration w = (r3, w3)
              ∧ store w3 = store w
              ∧ log w3 = log w2
              ∧ (∃ h, heap w3 = heap w2 ++ h)
              ∧ match r3 with
                | Raise e => run = (Raise e, w3)
                | Ok merged =>
                    ∃ w4 evs4,
                      rmw_encode self batch_info
                        (map (elided w3) (combine merged batch_info)) w3
                      = (encode_values self (encode_input w3 merged batch_info), w4)
                      ∧ store w4 = store w
                      ∧ (∃ h, heap w4 = heap w3 ++ h)
                      ∧ log w4 = log w3 ++ evs4
                      ∧ evs4 `prefix_of`
                          encode_events self
                            (map snd (encode_input w3 merged batch_info))
                      ∧ match encode_values self (encode_input w3 merged batch_info) with
                        | Raise e => run = (Raise e, w4)
                        | Ok chunk_bytes_batch =>
                            run
                            = (Ok tt,
                               {| store :=
                                    fold_left apply_write
                                      (combine chunk_bytes_batch batch_info) (store w);
                                  heap := heap w4;
                                  log :=
                                    log w4
                                    ++ map write_op
                                         (combine chunk_bytes_batch batch_info) |})
                        end
                end
      end.
Proof.
  intros Hpartial Hvalue. cbv zeta. unfold write_batched, rmw_merged.
  rewrite Hpartial.
  rewrite !bind_run, rmw_chunk_bytes_batch_run, !bind_run.
  set (w1 := {| store := store w; heap := heap w;
                log := log w ++ omap existing_get batch_info |}).
  unfold rmw_decode. rewrite rmw_decode_input.
  fold (decode_input w batch_info).
  destruct (decode_batched self (decode_input w batch_info) w1)
    as [r2 w2] eqn:Hdecode.
  pose proof Hdecode as Hdecode'.
  apply decode_batched_run in Hdecode'
    as (Hs2 & (h2 & Hh2) & (evs2 & Hl2 & Hp2 & _) & Hres).
  unfold decode_input in Hp2. rewrite map_map in Hp2. simpl in Hp2.
  change (map (fun x => item_spec x) batch_info) with (map item_spec batch_info) in Hp2.
  simpl in Hs2, Hh2.
  exists r2, w2, evs2.
  split; [done|]. split; [exact Hs2|]. split; [now exists h2|].
  split; [exact Hl2|]. split; [exact Hp2|].
  destruct (decode_values self (decode_input w batch_info)) as [out|e].
  2:{ subst r2. done. }
  destruct Hres as (existing & -> & Hc & Hfresh).
  split; [now rewrite Hc|]. split; [exact Hfresh|].
  assert (Hmerge : ∃ r3 w3 h3,
            rmw_merge batch_info value existing w2 = (r3, w3)
            ∧ store w3 = store w2 ∧ log w3 = log w2 ∧ heap w3 = heap w2 ++ h3).
  { destruct value as [x|a|l].
    - eexists _, w2, []. rewrite rmw_merge_not_array by done.
      now rewrite app_nil_r.
    - destruct (rmw_merge_run batch_info a existing w2)
        as (merged & w3 & Hmerge & Hs3 & Hl3 & (h3 & Hh3) & _).
      { simpl in Hvalue. unfold valid in *. rewrite Hh2, length_app. lia. }
      { apply (fresh_since_valid _ _ _ Hfresh). }
      now exists (Ok merged), w3, h3.
    - eexists _, w2, []. rewrite rmw_merge_not_array by done.
      now rewrite app_nil_r. }
  destruct Hmerge as (r3 & w3 & h3 & Hmerge & Hs3 & Hl3 & Hh3).
  exists r3, w3. rewrite ?bind_run, !Hmerge.
  split; [done|]. split; [done|]. split; [congruence|]. split; [exact Hl3|].
  split; [now exists h3|].
  destruct r3 as [merged|e]; [|done].
  rewrite bind_run, rmw_elide_run, bind_run.
  destruct (rmw_encode self batch_info
              (map (elided w3) (combine merged batch_info)) w3)
    as [r4 w4] eqn:Hencode.
  pose proof Hencode as Hencode'.
  apply rmw_encode_run in Hencode' as (Hr4 & Hs4 & Hh4 & (evs4 & Hl4 & Hp4)).
  exists w4, evs4. rewrite <- Hr4.
  split; [done|]. split; [congruence|]. split; [exact Hh4|].
  split; [exact Hl4|]. split; [exact Hp4|].
  destruct r4 as [bytes|e]; [|done].
  rewrite rmw_write_run. do 2 f_equal. congruence.
Qed.

Lemma decode_events_no_key (self : BatchedCodecPipeline)
    (chunk_specs : list ArraySpec) (evs : list Event) :
  evs `prefix_of` decode_events self chunk_specs ->
  Forall (fun e => event_key e = None) evs.
Proof.
  intros [k Hk]. unfold decode_events in Hk.
  rewrite resolved_metadata_parts in Hk. cbv beta iota zeta in Hk.
  assert (Hall : Forall (fun e => event_key e = None) (evs ++ k)).
  { rewrite <- Hk. rewrite !Forall_app. repeat split.
    - apply List.Forall_forall. intros e Hin. apply in_map_iff in Hin.
      destruct Hin as ([c s] & <- & _). done.
    - constructor; [done|constructor].
    - apply List.Forall_forall. intros e Hin. apply in_map_iff in Hin.
      destruct Hin as ([c s] & <- & _). done. }
  now apply Forall_app in Hall as [Hall _].
Qed.

Lemma encode_events_no_key (self : BatchedCodecPipeline)
    (chunk_specs : list ArraySpec) (evs : list Event) :
  evs `prefix_of` encode_events self chunk_specs ->
  Forall (fun e => event_key e = None) evs.
Proof.
  intros [k Hk]. unfold encode_events in Hk.
  rewrite resolved_metadata_parts in Hk. cbv beta iota zeta in Hk.
  assert (Hall : Forall (fun e => event_key e = None) (evs ++ k)).
  { rewrite <- Hk. rewrite !Forall_app. repeat split.
    - apply List.Forall_forall. intros e Hin. apply in_map_iff in Hin.
      destruct Hin as ([c s] & <- & _). done.
    - constructor; [done|constructor].
    - apply List.Forall_forall. intros e Hin. apply in_map_iff in Hin.
      destruct Hin as ([c s] & <- & _). done. }
  now apply Forall_app in Hall as [Hall _].
Qed.

Lemma no_key_no_write (evs : list Event) :
  Forall (fun e => event_key e = None) evs ->
  Forall (fun e => is_store_write e = false) evs.
Proof. intros H. eapply Forall_impl; [exact H|]. now intros []. Qed.

Lemma no_key_no_get (evs : list Event) :
  Forall (fun e => event_key e = None) evs ->
  Forall (fun e => is_store_get e = false) evs.
Proof. intros H. eapply Forall_impl; [exact H|]. now intros []. Qed.

Lemma write_ops_no_get (l : list (option BytesLike * BatchItem)) :
  Forall (fun e => is_store_get e = false) (map write_op l).
Proof.
  apply Forall_fmap, Forall_forall.
  now intros [[b|] [[[key chunk_spec] chunk_selection] out_selection]] _.
Qed.

(** The statements of the path up to the merge, from the decoding on. *)
Lemma rmw_merged_run (self : BatchedCodecPipeline) (batch_info : list BatchItem)
    (value : Value) (runtime_configuration : RuntimeConfiguration) (w : World) :
  rmw_merged self batch_info value runtime_configuration w
  = (let* chunk_array_batch := decode_batched self (decode_input w batch_info) in
     rmw_merge batch_info value chunk_array_batch)
      {| store := store w; heap := heap w;
         log := log w ++ omap existing_get batch_info |}.
Proof.
  unfold rmw_merged. rewrite bind_run, rmw_chunk_bytes_batch_run.
  unfold rmw_decode. now rewrite rmw_decode_input.
Qed.

(** [write_batched] is the rest of the path, run on what the merge
    returned. *)
Lemma write_batched_after_merge (self : BatchedCodecPipeline)
    (batch_info : list BatchItem) (value : Value)
    (runtime_configuration : RuntimeConfiguration) (w : World) :
  supports_partial_encode self = false ->
  write_batched self batch_info value runtime_configuration w
  = (let* chunk_array_batch :=
       rmw_merged self batch_info value runtime_configuration in
     let* chunk_array_batch := rmw_elide batch_info chunk_array_batch in
     let* chunk_bytes_batch := rmw_encode self batch_info chunk_array_batch in
     rmw_write batch_info chunk_bytes_batch runtime_configuration) w.
Proof.
  intros Hpartial. unfold write_batched, rmw_merged. rewrite Hpartial.
  rewrite !bind_run.
  destruct (rmw_chunk_bytes_batch batch_info runtime_configuration w)
    as [[chunk_bytes_batch|e] w1]; [|done].
  rewrite !bind_run.
  destruct (rmw_decode self batch_info chunk_bytes_batch w1)
    as [[chunk_array_batch|e] w2]; done.
Qed.

(** What a run of the path does to the store, for any codecs and any
    value. *)
Lemma rmw_effects (self : BatchedCodecPipeline) (batch_info : list BatchItem)
    (value : Value) (runtime_configuration : RuntimeConfiguration) (w : World) :
  supports_partial_encode self = false ->
  live_value w value ->
  let run := write_batched self batch_info value runtime_configuration w in
  let nothing_written :=
    store run.2 = store w
    ∧ ∃ evs, log run.2 = log w ++ evs
             ∧ Forall (fun e => is_store_write e = false) evs in
  (∀ key, key ∉ map item_key batch_info -> store run.2 !! key = store w !! key)
  ∧ (∃ calls chunk_bytes_batch,
       log run.2
       = log w ++ omap existing_get batch_info ++ calls
         ++ map write_op (combine chunk_bytes_batch batch_info)
       ∧ Forall (fun e => event_key e = None) calls
       ∧ store run.2
         = fold_left apply_write (combine chunk_bytes_batch batch_info) (store w))
  ∧ (∀ e, decode_values self (decode_input w batch_info) = Raise e ->
          run.1 = Raise e ∧ nothing_written)
  ∧ (∀ merged w3 e,
       rmw_merged self batch_info value runtime_configuration w = (Ok merged, w3) ->
       encode_values self (encode_input w3 merged batch_info) = Raise e ->
       run.1 = Raise e ∧ nothing_written).
Proof.
  intros Hpartial Hvalue.
  destruct (rmw_stages self batch_info value runtime_configuration w Hpartial Hvalue)
    as (r2 & w2 & evs2 & Hdecode & Hs2 & _ & Hl2 & Hp2 & Hcase).
  cbv zeta in Hcase |- *. cbn [log] in Hl2.
  pose proof (existing_gets_no_write batch_info) as Hgets.
  pose proof (decode_events_no_key _ _ _ Hp2) as Hk2.
  assert (Hquiet : ∀ w' calls,
            store w' = store w ->
            log w' = log w ++ omap existing_get batch_info ++ calls ->
            Forall (fun e => event_key e = None) calls ->
            store w' = store w
            ∧ ∃ evs, log w' = log w ++ evs
                     ∧ Forall (fun e => is_store_write e = false) evs).
  { intros w' calls Hs Hl Hk. split; [exact Hs|].
    exists (omap existing_get batch_info ++ calls). split; [exact Hl|].
    apply Forall_app. split; [exact Hgets|now apply no_key_no_write]. }
  assert (Hnone : ∀ w' calls,
            store w' = store w ->
            log w' = log w ++ omap existing_get batch_info ++ calls ->
            Forall (fun e => event_key e = None) calls ->
            (∀ key, key ∉ map item_key batch_info -> store w' !! key = store w !! key)
            ∧ ∃ calls chunk_bytes_batch,
                log w'
                = log w ++ omap existing_get batch_info ++ calls
                  ++ map write_op (combine chunk_bytes_batch batch_info)
                ∧ Forall (fun e => event_key e = None) calls
                ∧ store w'
                  = fold_left apply_write (combine chunk_bytes_batch batch_info)
                      (store w)).
  { intros w' calls Hs Hl Hk. split; [intros; now rewrite Hs|].
    exists calls, []. cbn [combine map fold_left]. now rewrite app_nil_r. }
  destruct r2 as [existing|e2].
  2:{ destruct Hcase as [Hvalues Hrun]. rewrite Hrun. cbn [fst snd].
      assert (Hl : log w2 = log w ++ omap existing_get batch_info ++ evs2)
        by (rewrite Hl2; now rewrite app_assoc).
      destruct (Hnone w2 evs2 Hs2 Hl Hk2) as [Hframe Hlog].
      split; [exact Hframe|]. split; [exact Hlog|]. split.
      - intros e He. split; [congruence|]. now apply (Hquiet w2 evs2).
      - intros merged w3 e Hmerged. rewrite rmw_merged_run, bind_run, Hdecode in Hmerged.
        discriminate. }
  destruct Hcase as (Hvalues & _ & r3 & w3 & _ & Hmerged & Hs3 & Hl3 & _ & Hcase).
  assert (Hl : log w3 = log w ++ omap existing_get batch_info ++ evs2)
    by (rewrite Hl3, Hl2; now rewrite app_assoc).
  destruct r3 as [merged|e3].
  2:{ rewrite Hcase. cbn [fst snd].
      destruct (Hnone w3 evs2 Hs3 Hl Hk2) as [Hframe Hlog].
      split; [exact Hframe|]. split; [exact Hlog|]. split.
      - intros e He. congruence.
      - intros merged w3' e Hmerged'. congruence. }
  destruct Hcase as (w4 & evs4 & _ & Hs4 & _ & Hl4 & Hp4 & Hcase).
  pose proof (encode_events_no_key _ _ _ Hp4) as Hk4.
  assert (Hl' : log w4 = log w ++ omap existing_get batch_info ++ (evs2 ++ evs4))
    by (rewrite Hl4, Hl; now rewrite <- !app_assoc).
  assert (Hk : Forall (fun e => event_key e = None) (evs2 ++ evs4))
    by (now apply Forall_app).
  destruct (encode_values self (encode_input w3 merged batch_info))
    as [chunk_bytes_batch|e4] eqn:Hencode.
  - rewrite Hcase. cbn [fst snd store log]. split; [|split; [|split]].
    + intros key Hkey. rewrite apply_write_other; [done|].
      intros Hin. apply Hkey. eapply zip_keys_subset, Hin.
    + exists (evs2 ++ evs4), chunk_bytes_batch.
      split; [rewrite Hl'; now rewrite <- !app_assoc|]. split; [exact Hk|done].
    + intros e He. congruence.
    + intros merged' w3' e Hmerged' He. congruence.
  - rewrite Hcase. cbn [fst snd].
    destruct (Hnone w4 (evs2 ++ evs4) Hs4 Hl' Hk) as [Hframe Hlog].
    split; [exact Hframe|]. split; [exact Hlog|]. split.
    + intros e He. congruence.
    + intros merged' w3' e Hmerged' He. split; [congruence|].
      now apply (Hquiet w4 (evs2 ++ evs4)).
Qed.

(** C3. A run of [write_batched] on the read-modify-write path, for any
    codecs whose decoders return on the existing chunks, merges the
    decoded batch with [value] and goes on with the merged arrays.  For
    every batch item the merged array of [rmw_merged] is
    [value[out_selection]] itself when the chunk selection is a total slice
    of the chunk shape; otherwise it is a new array object on a buffer of
    its own, whose content is the fill-value buffer of the chunk shape (no
    existing decoded array) or the content of the existing decoded array,
    with [value[out_selection]] assigned at the chunk selection.  The merge
    only adds to the heap: the existing decoded arrays hold afterwards what
    the decoders returned.  The run of [write_batched] is the elision, the
    encoding and the writing run on these merged arrays, and what it stores
    is what the encoders return for them. *)
Theorem rmw_merge_spec (self : BatchedCodecPipeline) (batch_info : list BatchItem)
    (value : ndarray) (runtime_configuration : RuntimeConfiguration) (w : World)
    (existing : list (option Arr)) :
  supports_partial_encode self = false ->
  valid w value ->
  decode_values self (decode_input w batch_info) = Ok existing ->
  let run := write_batched self batch_info (VArray value) runtime_configuration w in
  ∃ chunk_array_batch w2 merged w3,
    decode_batched self (decode_input w batch_info)
      {| store := store w; heap := heap w;
         log := log w ++ omap existing_get batch_info |}
    = (Ok chunk_array_batch, w2)
    ∧ contents w2 chunk_array_batch = existing
    ∧ peek w2 value = peek w value
    ∧ rmw_merged self batch_info (VArray value) runtime_configuration w
      = (Ok merged, w3)
    ∧ Forall2 (merged_as w2 w3 value) (combine chunk_array_batch batch_info) merged
    ∧ (∃ h, heap w3 = heap w2 ++ h)
    ∧ contents w3 chunk_array_batch = existing
    ∧ store w3 = store w
    ∧ run
      = (let* chunk_array_batch := rmw_elide batch_info merged in
         let* chunk_bytes_batch := rmw_encode self batch_info chunk_array_batch in
         rmw_write batch_info chunk_bytes_batch runtime_configuration) w3
    ∧ match encode_values self (encode_input w3 merged batch_info) with
      | Ok chunk_bytes_batch =>
          run.1 = Ok tt
          ∧ store run.2
            = fold_left apply_write (combine chunk_bytes_batch batch_info) (store w)
      | Raise e => run.1 = Raise e ∧ store run.2 = store w
      end.
Proof.
  intros Hpartial Hvalue Hexisting.
  destruct (rmw_stages self batch_info (VArray value) runtime_configuration w
              Hpartial Hvalue)
    as (r2 & w2 & evs2 & Hdecode & Hs2 & (h2 & Hh2) & _ & _ & Hcase).
  cbv zeta in Hcase |- *.
  destruct r2 as [chunk_array_batch|e]; [|destruct Hcase; congruence].
  destruct Hcase as (Hvalues & Hfresh & r3 & w3 & Hmerge & Hmerged & Hs3 & _
                     & (h3 & Hh3) & Hcase).
  assert (Hvalue2 : valid w2 value) by (eapply valid_heap_app; eassumption).
  destruct (rmw_merge_run batch_info value chunk_array_batch w2 Hvalue2
              (fresh_since_valid _ _ _ Hfresh))
    as (merged & w3' & Hmerge' & _ & _ & _ & Hall).
  rewrite Hmerge in Hmerge'. injection Hmerge' as -> <-.
  destruct Hcase as (w4 & evs4 & _ & Hs4 & _ & _ & _ & Hcase).
  exists chunk_array_batch, w2, merged, w3.
  split; [exact Hdecode|]. split; [congruence|].
  split; [now apply (peek_heap_app w w2 value h2)|].
  split; [exact Hmerged|]. split; [exact Hall|]. split; [now exists h3|].
  split.
  { rewrite (contents_heap_app w2 w3 chunk_array_batch h3); [congruence| |exact Hh3].
    apply (fresh_since_valid _ _ _ Hfresh). }
  split; [exact Hs3|]. split.
  { rewrite write_batched_after_merge by exact Hpartial.
    now rewrite bind_run, Hmerged. }
  destruct (encode_values self (encode_input w3 merged batch_info));
    rewrite Hcase; cbn [fst snd store]; done.
Qed.

(** C5. In a run of [write_batched] on the read-modify-write path, for
    any codecs and any value: the [get]s of the run are those of the items
    whose chunk selection is not a total slice of the chunk shape, one for
    each, in batch order, before anything else; no other [get] is issued.
    [decode_batched] is then run on [existing_bytes] of every item: [None]
    for an item whose [get] was skipped, which is also what it is given for
    an item whose key is absent from the store.  When the decoders return,
    and return [None] exactly for [None], the decoded batch has [None] at
    these positions and nowhere else. *)
Theorem rmw_existing_chunks (self : BatchedCodecPipeline)
    (batch_info : list BatchItem) (value : Value)
    (runtime_configuration : RuntimeConfiguration) (w : World) :
  supports_partial_encode self = false ->
  live_value w value ->
  let run := write_batched self batch_info value runtime_configuration w in
  let w1 := {| store := store w; heap := heap w;
               log := log w ++ omap existing_get batch_info |} in
  (∃ evs, log run.2 = log w ++ omap existing_get batch_info ++ evs
          ∧ Forall (fun e => is_store_get e = false) evs)
  ∧ (∀ store_path chunk_spec chunk_selection out_selection,
       existing_get (store_path, chunk_spec, chunk_selection, out_selection)
       = (if is_total_slice chunk_selection (spec_shape chunk_spec)
          then None else Some (StoreGet store_path))
       ∧ existing_bytes w (store_path, chunk_spec, chunk_selection, out_selection)
         = (if is_total_slice chunk_selection (spec_shape chunk_spec)
            then None else store w !! store_path))
  ∧ run
    = (let* chunk_array_batch :=
         decode_batched self
           (map (fun item => (existing_bytes w item, item_spec item)) batch_info) in
       let* chunk_array_batch := rmw_merge batch_info value chunk_array_batch in
       let* chunk_array_batch := rmw_elide batch_info chunk_array_batch in
       let* chunk_bytes_batch := rmw_encode self batch_info chunk_array_batch in
       rmw_write batch_info chunk_bytes_batch runtime_configuration) w1
  ∧ (decoders_keep_none self ->
     ∀ out,
       decode_values self
         (map (fun item => (existing_bytes w item, item_spec item)) batch_info)
       = Ok out ->
       ∃ chunk_array_batch w2,
         decode_batched self
           (map (fun item => (existing_bytes w item, item_spec item)) batch_info) w1
         = (Ok chunk_array_batch, w2)
         ∧ contents w2 chunk_array_batch = out
         ∧ same_none (map (existing_bytes w) batch_info) chunk_array_batch).
Proof.
  intros Hpartial Hvalue. cbv zeta.
  split; [|split; [|split]].
  - destruct (rmw_effects self batch_info value runtime_configuration w
                Hpartial Hvalue) as (_ & (calls & bytes & Hlog & Hcalls & _) & _).
    cbv zeta in Hlog. eexists. split; [exact Hlog|].
    apply Forall_app. split; [now apply no_key_no_get|apply write_ops_no_get].
  - done.
  - unfold write_batched. rewrite Hpartial.
    rewrite bind_run, rmw_chunk_bytes_batch_run.
    unfold rmw_decode. now rewrite rmw_decode_input.
  - intros Hkeep out Hout.
    destruct (rmw_stages self batch_info value runtime_configuration w
                Hpartial Hvalue)
      as (r2 & w2 & evs2 & Hdecode & _ & _ & _ & _ & Hcase).
    unfold decode_input in Hdecode, Hcase.
    destruct r2 as [chunk_array_batch|e]; [|destruct Hcase; congruence].
    destruct Hcase as (Hvalues & _).
    exists chunk_array_batch, w2. split; [exact Hdecode|].
    split; [congruence|].
    pose proof (decode_values_keeps self _ _ Hkeep Hout) as Hsame.
    rewrite map_map in Hsame. simpl in Hsame.
    eapply same_none_trans; [exact Hsame|].
    assert (out = contents w2 chunk_array_batch) as -> by congruence.
    apply same_none_fmap_l.
Qed.

(** C4. On the read-modify-write path of [write_batched], with an array
    for value and codecs that honour the batch contract: a merged chunk
    array for which [np.all(chunk == fill_value)] holds is replaced by
    [None] before encoding, the encoder yields [None] for it and its key is
    deleted; for every other item bytes are encoded and set at the key.
    The store operations after the merge are exactly these, in batch
    order.  With distinct keys, each key ends up absent or holding the
    encoded bytes accordingly; in particular the key of a chunk whose
    chunk selection is a total slice and for which
    [np.all(value[out_selection] == fill_value)] holds is absent
    afterwards.  A [setitem] whose value is normalised to this array and
    that dispatches this batch is this run of [write_batched]: it returns,
    and it leaves the store as described. *)
Theorem fill_value_elision (self : BatchedCodecPipeline)
    (batch_info : list BatchItem) (value : ndarray)
    (config : RuntimeConfiguration) (w : World) :
  supports_partial_encode self = false ->
  decoders_honour_none self ->
  encoders_honour_none self ->
  valid w value ->
  ∃ merged chunk_bytes_batch w3 w4 w',
    rmw_merged self batch_info (VArray value) config w
    = (Ok merged, w3)
    ∧ store w3 = store w
    ∧ rmw_elide batch_info merged w3
      = (Ok (map (elided w3) (combine merged batch_info)), w3)
    ∧ rmw_encode self batch_info (map (elided w3) (combine merged batch_info)) w3
      = (Ok chunk_bytes_batch, w4)
    ∧ Forall2
        (fun item chunk_bytes =>
           if arr_all_eq (peek w3 item.1) (spec_fill_value (item_spec item.2))
           then elided w3 item = None ∧ chunk_bytes = None
           else elided w3 item = Some item.1 ∧ is_Some chunk_bytes)
        (combine merged batch_info) chunk_bytes_batch
    ∧ write_batched self batch_info (VArray value) config w
      = (Ok tt, w')
    ∧ log w' = log w4 ++ map write_op (combine chunk_bytes_batch batch_info)
    ∧ store w' = fold_left apply_write (combine chunk_bytes_batch batch_info) (store w)
    ∧ (NoDup (map item_key batch_info) ->
       Forall2 (fun item chunk_bytes => store w' !! item_key item = chunk_bytes)
         batch_info chunk_bytes_batch
       ∧ ∀ store_path chunk_spec chunk_selection out_selection,
           (store_path, chunk_spec, chunk_selection, out_selection) ∈ batch_info ->
           is_total_slice chunk_selection (spec_shape chunk_spec) = true ->
           arr_all_eq (arr_getitem (peek w value) out_selection)
             (spec_fill_value chunk_spec) = true ->
           store w' !! store_path = None)
    ∧ (∀ (array : AsyncArray) (selection : Selection) (chunk_shape : ChunkCoords)
         (indexer : Indexer) (v : Value) (w0 : World),
         chunk_grid (metadata array) = RegularChunkGrid chunk_shape ->
         BasicIndexer selection (md_shape (metadata array)) chunk_shape = Ok indexer ->
         normalize_value array (indexer_shape indexer) v w0 = (Ok (VArray value), w) ->
         codecs array = self ->
         batch_info_of array indexer = batch_info ->
         runtime_configuration array = config ->
         setitem array selection v w0 = (Ok tt, w')).
Proof.
  intros Hpartial Hdec Henc Hvalue.
  destruct (rmw_run self batch_info value config w
              Hpartial Hdec Henc Hvalue)
    as (existing & merged & bytes & w2 & w3 & w4 & w' & Hmerged & Hs3 & (h2 & Hh2)
        & (h3 & Hh3) & Hlen_e & Has & Hencode & Hsame & Hs4 & Hrun & Hl & Hs).
  assert (Hlen_m : length merged = length batch_info).
  { rewrite <- (Forall2_length _ _ _ Has), length_combine. lia. }
  assert (Hlen_b : length bytes = length batch_info).
  { rewrite <- (same_none_length _ _ Hsame), length_map, length_combine. lia. }
  assert (Hitems :
            Forall2
              (fun item chunk_bytes =>
                 if arr_all_eq (peek w3 item.1) (spec_fill_value (item_spec item.2))
                 then elided w3 item = None ∧ chunk_bytes = None
                 else elided w3 item = Some item.1 ∧ is_Some chunk_bytes)
              (combine merged batch_info) bytes).
  { apply Forall2_fmap_l in Hsame. eapply Forall2_impl; [exact Hsame|].
    intros [m [[[key chunk_spec] chunk_selection] out_selection]] b. simpl.
    destruct (arr_all_eq (peek w3 m) (spec_fill_value chunk_spec)).
    - intros Hb. split; [done|]. destruct b; [|done].
      destruct Hb as [Hb _]. destruct Hb; [by eexists|done].
    - intros Hb. split; [done|]. apply Hb. by eexists. }
  exists merged, bytes, w3, w4, w'.
  split; [exact Hmerged|]. split; [exact Hs3|].
  split; [apply rmw_elide_run|]. split; [exact Hencode|].
  split; [exact Hitems|]. split; [exact Hrun|]. split; [exact Hl|].
  split; [exact Hs|].
  split.
  2:{ intros array selection chunk_shape indexer v w0 Hgrid Hindexer Hnorm
        Hcodecs Hbatch Hrc.
      unfold setitem. rewrite Hgrid, bind_run, Hindexer. unfold lift.
      rewrite bind_run, Hnorm, Hcodecs, Hbatch, Hrc. exact Hrun. }
  intros Hnd.
  assert (Hstore :
            Forall2 (fun item chunk_bytes => store w' !! item_key item = chunk_bytes)
              batch_info bytes).
  { apply Forall_combine_Forall2; [done|]. rewrite Hs.
    apply apply_write_lookup.
    rewrite <- (map_map snd item_key), map_snd_combine; done. }
  split; [exact Hstore|].
  intros key chunk_spec chunk_selection out_selection Hin Htotal Hfill.
  apply list_elem_of_lookup in Hin as [i Hi].
  destruct (lookup_lt_is_Some_2 merged i) as [m Hm].
  { rewrite Hlen_m. eapply lookup_lt_Some, Hi. }
  destruct (lookup_lt_is_Some_2 existing i) as [e He].
  { rewrite Hlen_e. eapply lookup_lt_Some, Hi. }
  destruct (Forall2_lookup_l _ _ _ i _ Hstore Hi) as (b & Hb & Hkey).
  simpl in Hkey. rewrite Hkey.
  assert (Hzip : combine merged batch_info !! i
                 = Some (m, (key, chunk_spec, chunk_selection, out_selection))).
  { now apply lookup_zip_Some. }
  assert (Hzip_e : combine existing batch_info !! i
                   = Some (e, (key, chunk_spec, chunk_selection, out_selection))).
  { now apply lookup_zip_Some. }
  pose proof (Forall2_lookup_lr _ _ _ i _ _ Has Hzip_e Hm) as Hmi.
  pose proof (Forall2_lookup_lr _ _ _ i _ _ Hitems Hzip Hb) as Hbi.
  simpl in Hmi, Hbi. rewrite Htotal in Hmi. subst m.
  rewrite peek_subscript in Hbi.
  rewrite (peek_heap_app w w3 value (h2 ++ h3) Hvalue) in Hbi.
  2:{ rewrite Hh3, Hh2. now rewrite app_assoc. }
  rewrite Hfill in Hbi. apply Hbi.
Qed.


(** ** Writing, then reading *)

(** The full-decode path of [read_batched] for decoders that honour the
    batch contract. *)
Lemma read_batched_run (self : BatchedCodecPipeline) (batch_info : list BatchItem)
    (out : ndarray) (runtime_configuration : RuntimeConfiguration) (w : World) :
  supports_partial_decode self = false ->
  decoders_honour_none self ->
  valid w out ->
  ∃ chunks w',
    read_batched self batch_info out runtime_configuration w = (Ok tt, w')
    ∧ decode_values self
        (map (fun item => (store w !! item_key item, item_spec item)) batch_info)
      = Ok chunks
    ∧ same_none (map (fun item => store w !! item_key item) batch_info) chunks
    ∧ heap w' !!! base out
      = fold_left (assign_out (view out)) (combine chunks batch_info)
          (heap w !!! base out)
    ∧ (∀ l, l < length (heap w) -> l ≠ base out -> heap w' !!! l = heap w !!! l)
    ∧ store w' = store w
    ∧ log w' =
        log w ++ map StoreGet (map item_key batch_info)
        ++ decode_events self (map item_spec batch_info).
Proof.
  intros Hpartial Hdec Hout. unfold read_batched. rewrite Hpartial.
  unfold concurrent_map. rewrite bind_run, store_get_loop, bind_run.
  rewrite read_decode_input.
  assert (Hkeys : map (fun '(store_path, _, _, _) => store_path) batch_info
                  = map item_key batch_info).
  { apply map_ext. now intros [[[? ?] ?] ?]. }
  rewrite Hkeys.
  set (w1 := {| store := store w; heap := heap w; log := _ |}).
  destruct (decode_batched self _ w1) as [r w2] eqn:Hrun.
  apply decode_batched_run in Hrun as (Hs2 & (h & Hh2) & (evs & Hl2 & _ & He) & Hres).
  destruct (decode_values_honours self
              (map (fun item => (store w !! item_key item, item_spec item)) batch_info)
              Hdec) as (chunks & Hchunks & Hsame).
  rewrite Hchunks in Hres. destruct Hres as (batch & -> & Hc & Hfresh).
  rewrite map_map in Hsame. simpl in Hsame.
  rewrite map_map in He. simpl in He.
  assert (Hout2 : valid w2 out).
  { apply (valid_heap_app w1 w2 out h); done. }
  destruct (write_out_loop out (combine batch batch_info) w2 Hout2)
    as (w' & Hloop & Hs & Hl & Hlen & Hother & Hbuf).
  { assert (Hall : Forall (from_option (fun r => base r ≠ base out) True) batch).
    { eapply Forall_impl; [exact Hfresh|]. intros [r|]; simpl; [|done].
      unfold valid in Hout. lia. }
    clear -Hall. revert batch_info.
    induction Hall as [|r batch Hr _ IH]; intros [|item batch_info]; simpl;
      try constructor; [done|apply IH]. }
  exists chunks, w'. split; [exact Hloop|]. split; [exact Hchunks|].
  split; [exact Hsame|]. split.
  { rewrite Hbuf, contents_zip, Hc, Hh2. simpl.
    now rewrite lookup_total_app_l. }
  split.
  { intros l Hl1 Hl2'. rewrite Hother by done. rewrite Hh2. simpl.
    now rewrite lookup_total_app_l. }
  split; [now rewrite Hs, Hs2|].
  rewrite Hl, Hl2. unfold w1. simpl. rewrite <- app_assoc. do 2 f_equal.
  now apply He.
Qed.

Lemma zip_items_snd {A} (xs : list A) (batch_info : list BatchItem) :
  length xs = length batch_info ->
  map snd
    (map (fun '(x, (_, chunk_spec, _, _)) => (x, chunk_spec)) (combine xs batch_info))
  = map item_spec batch_info.
Proof.
  revert batch_info.
  induction xs as [|x xs IH];
    intros [|[[[key chunk_spec] chunk_selection] out_selection] batch_info];
    simpl; try done.
  intros [= Hlen]. now rewrite IH.
Qed.

Lemma stored_as_zip (st : gmap string BytesLike) (batch_info : list BatchItem)
    (chunk_bytes_batch : list (option BytesLike)) :
  Forall2 (fun item chunk_bytes => st !! item_key item = chunk_bytes)
    batch_info chunk_bytes_batch ->
  map (fun item => (st !! item_key item, item_spec item)) batch_info
  = combine chunk_bytes_batch (map item_spec batch_info).
Proof.
  induction 1 as [|item b batch_info bytes Hb _ IH]; simpl; [done|].
  now rewrite Hb, IH.
Qed.

(** X3. Writing, then reading.  On the read-modify-write path with distinct
    store paths, codecs that honour the batch contract and lose nothing on
    the chunks written: a [read_batched] of the same batch after
    [write_batched] does not raise, and what it assigns into the output for
    each chunk is the slice [chunk_selection] of the merged chunk array
    that [write_batched] encoded, or the fill value where that array was
    elided because it held the fill value everywhere. *)
Theorem write_then_read (good : Arr -> ArraySpec -> Prop)
    (self : BatchedCodecPipeline) (batch_info : list BatchItem)
    (value out : ndarray) (runtime_configuration : RuntimeConfiguration)
    (w : World) :
  supports_partial_encode self = false ->
  supports_partial_decode self = false ->
  decoders_honour_none self ->
  encoders_honour_none self ->
  lossless good self ->
  NoDup (map item_key batch_info) ->
  valid w value ->
  valid w out ->
  ∃ merged w3 w',
    rmw_merged self batch_info (VArray value) runtime_configuration w
    = (Ok merged, w3)
    ∧ write_batched self batch_info (VArray value) runtime_configuration w
      = (Ok tt, w')
    ∧ (conforming good (written_chunks w3 merged batch_info)
         (map item_spec batch_info) ->
       ∃ w'',
         read_batched self batch_info out runtime_configuration w' = (Ok tt, w'')
         ∧ heap w'' !!! base out
           = fold_left (assign_out (view out))
               (combine (written_chunks w3 merged batch_info) batch_info)
               (heap w !!! base out)
         ∧ store w'' = store w').
Proof.
  intros Hpe Hpd Hdec Henc Hlossless Hnd Hvalue Hout.
  destruct (rmw_run self batch_info value runtime_configuration w
              Hpe Hdec Henc Hvalue)
    as (existing & merged & bytes & w2 & w3 & w4 & w' & Hmerged & Hs3 & _
        & _ & Hlen_e & Has & Hencode & Hsame & Hs4 & Hrun & Hl & Hs).
  exists merged, w3, w'. split; [exact Hmerged|]. split; [exact Hrun|].
  intros Hgood.
  assert (Hlen_m : length merged = length batch_info).
  { rewrite <- (Forall2_length _ _ _ Has), length_combine. lia. }
  assert (Hlen_b : length bytes = length batch_info).
  { rewrite <- (same_none_length _ _ Hsame), length_map, length_combine. lia. }
  destruct (rmw_frame self batch_info (VArray value) runtime_configuration w w'
              (Ok tt) Hpe Hvalue Hrun) as ((h & Hh) & _ & _).
  (* what was encoded *)
  unfold rmw_encode in Hencode.
  apply encode_batched_run in Hencode as (_ & _ & _ & Hvalues).
  rewrite with_contents_combine, zip_items_fst, zip_items_snd in Hvalues.
  2,3: rewrite length_map, length_combine; lia.
  symmetry in Hvalues.
  destruct (encode_decode_values good self _ _ _ Hlossless Hgood Hvalues)
    as [_ Hback].
  (* what the store holds *)
  assert (Hstore :
            Forall2 (fun item chunk_bytes => store w' !! item_key item = chunk_bytes)
              batch_info bytes).
  { apply Forall_combine_Forall2; [done|]. rewrite Hs.
    apply apply_write_lookup.
    rewrite <- (map_map snd item_key), map_snd_combine; done. }
  destruct (read_batched_run self batch_info out runtime_configuration w' Hpd Hdec)
    as (chunks & w'' & Hread & Hchunks & _ & Hbuf & _ & Hstore' & _).
  { eapply valid_heap_app; eassumption. }
  rewrite (stored_as_zip _ _ _ Hstore), Hback in Hchunks.
  injection Hchunks as <-.
  exists w''. split; [exact Hread|]. split; [|exact Hstore'].
  rewrite Hbuf, Hh. unfold valid in Hout. now rewrite lookup_total_app_l.
Qed.

(** ** An empty batch *)

(** X5. The empty batch.  On the full paths, for codecs that honour the
    batch contract, [write_batched] and [read_batched] of an empty batch
    return without a store operation, and still call every codec once, with
    an empty batch: the decoders in decode order for both, then the
    encoders in encode order for [write_batched].  [value] is not looked
    at, so a scalar, which makes any other batch raise, is accepted; no live
    array object is changed, the output included. *)
Theorem empty_batch (self : BatchedCodecPipeline) (value : Value) (out : ndarray)
    (runtime_configuration : RuntimeConfiguration) (w : World) :
  supports_partial_encode self = false ->
  supports_partial_decode self = false ->
  decoders_honour_none self ->
  encoders_honour_none self ->
  valid w out ->
  (∃ w',
     write_batched self [] value runtime_configuration w = (Ok tt, w')
     ∧ store w' = store w
     ∧ log w' = log w ++ decode_events self [] ++ encode_events self []
     ∧ ∀ r, valid w r -> peek w' r = peek w r)
  ∧ (∃ w',
       read_batched self [] out runtime_configuration w = (Ok tt, w')
       ∧ store w' = store w
       ∧ log w' = log w ++ decode_events self []
       ∧ ∀ r, valid w r -> peek w' r = peek w r).
Proof.
  intros Hpe Hpd Hdec Henc Hout. split.
  - destruct (rmw_existing_run self [] runtime_configuration w Hdec)
      as (existing & w1 & w2 & Hget & _ & _ & Hl1 & Hdecode & Hs2 & (h2 & Hh2)
          & Hl2 & _ & Hsame & _).
    apply same_none_length in Hsame. destruct existing; [|done].
    unfold write_batched. rewrite Hpe.
    rewrite bind_run, Hget, bind_run, Hdecode, bind_run.
    cbn [rmw_merge combine mapM ret]. rewrite bind_run, rmw_elide_run, bind_run.
    cbn [combine map].
    destruct (rmw_encode self [] [] w2) as [r4 w4] eqn:Hencode.
    unfold rmw_encode in Hencode. cbn [combine map] in Hencode.
    apply encode_batched_run in Hencode
      as (Hs4 & (h4 & Hh4) & (evs4 & Hl4 & _ & He4) & Hvalues).
    destruct (encode_values_honours self (with_contents w2 []) Henc)
      as (bytes & Hbytes & Hsame_b).
    rewrite Hbytes in Hvalues. subst r4.
    apply same_none_length in Hsame_b. destruct bytes; [|done].
    rewrite rmw_write_run. eexists. split; [reflexivity|].
    cbn [store heap log combine map fold_left].
    split; [congruence|]. split.
    + rewrite Hl4, Hl2, Hl1, (He4 I). cbn [omap list_omap map].
      now rewrite !app_nil_r, <- app_assoc.
    + intros r Hr. apply (peek_heap_app w _ r (h2 ++ h4)); [exact Hr|].
      cbn [heap]. rewrite Hh4, Hh2. now rewrite app_assoc.
  - destruct (read_batched_run self [] out runtime_configuration w Hpd Hdec Hout)
      as (chunks & w' & Hread & _ & _ & Hbuf & Hother & Hs & Hl).
    exists w'. split; [exact Hread|]. split; [exact Hs|]. split; [exact Hl|].
    intros r Hr. unfold peek. f_equal.
    destruct (decide (base r = base out)) as [->|Hne].
    + rewrite Hbuf. now destruct chunks.
    + now apply Hother.
Qed.

(** ** The partial-decode path of [read_batched] *)

(** The last loop of [read_batched] on the partial-decode path: only the
    buffer of [out] changes. *)
Lemma write_out_partial_loop (out : ndarray)
    (items : list (option ndarray * BatchItem)) :
  ∀ w,
    valid w out ->
    Forall (fun item => from_option (fun r => base r ≠ base out) True item.1) items ->
    ∃ w',
      foldM (fun _ item => write_out_partial out item) items tt w = (Ok tt, w')
      ∧ store w' = store w
      ∧ log w' = log w
      ∧ length (heap w') = length (heap w)
      ∧ (∀ l, l ≠ base out -> heap w' !!! l = heap w !!! l)
      ∧ heap w' !!! base out
        = fold_left (assign_out_partial (view out))
            (map (fun item => (peek w <$> item.1, item.2)) items)
            (heap w !!! base out).
Proof.
  induction items as [|[chunk [[[key chunk_spec] chunk_selection] out_selection]]
                        items IH]; intros w Hout Hitems.
  { exists w. done. }
  apply Forall_cons in Hitems as [Hchunk Hitems]. simpl in Hchunk.
  set (f := fun a : Arr =>
              match peek w <$> chunk with
              | Some c => arr_setitem a out_selection c
              | None => arr_setitem_scalar a out_selection (spec_fill_value chunk_spec)
              end).
  set (w1 := {| store := store w;
                heap := <[base out := update_view (view out) f (heap w !!! base out)]>
                          (heap w);
                log := log w |}).
  assert (Hstep : write_out_partial out
                    (chunk, (key, chunk_spec, chunk_selection, out_selection)) w
                  = (Ok tt, w1)).
  { destruct chunk as [r|]; cbn [write_out_partial]; [|done].
    unfold ndarray_setitem. rewrite bind_run. cbn [load]. done. }
  assert (Hout1 : valid w1 out).
  { unfold valid, w1. simpl. now rewrite length_insert. }
  destruct (IH w1 Hout1 Hitems) as (w' & Hloop & Hs & Hl & Hlen & Hother & Hbuf).
  exists w'. split.
  { apply (foldM_cons_ok _ _ _ _ tt w w1); [exact Hstep|exact Hloop]. }
  split; [done|]. split; [done|].
  split; [rewrite Hlen; unfold w1; simpl; apply length_insert|].
  split.
  { intros l Hl'. rewrite Hother by done. unfold w1. simpl.
    now rewrite list_lookup_total_insert_ne. }
  rewrite Hbuf. cbn [map fold_left assign_out_partial fst snd].
  unfold w1 at 2. simpl. rewrite list_lookup_total_insert_eq by exact Hout.
  fold f. f_equal.
  apply map_ext_Forall. eapply Forall_impl; [exact Hitems|].
  intros [[r|] item] Hr; simpl in *; [|done].
  do 2 f_equal. unfold peek, w1. simpl.
  now rewrite list_lookup_total_insert_ne.
Qed.

(** X6. The partial-decode path of [read_batched].  When
    [supports_partial_decode] holds, the call dispatches once to the partial
    decoder of the array-bytes codec, with one
    [(store_path, chunk_selection, chunk_spec)] entry per batch item, and an
    exception of the decoder is the exception of the call.  Otherwise the
    output receives, item by item, [out[out_selection] = chunk_array] for an
    array the decoder returned, the whole of it, since the chunk selection
    was applied by the decoder, and [out[out_selection] = fill_value] for a
    [None]; store and log stay as the decoder left them, and no array
    object but the output is changed.  The arrays returned must not share
    the buffer of the output. *)
Theorem read_batched_partial (self : BatchedCodecPipeline)
    (batch_info : list BatchItem) (out : ndarray)
    (runtime_configuration : RuntimeConfiguration) (w : World) :
  supports_partial_decode self = true ->
  ∃ decode_partial,
    ab_decode_partial_batched (array_bytes_codec self) = Some decode_partial
    ∧ let batch :=
        map
          (fun '(store_path, chunk_spec, chunk_selection, _) =>
             (store_path, chunk_selection, chunk_spec))
          batch_info in
      let dispatched :=
        {| store := store w; heap := heap w;
           log := log w
                  ++ [DecodePartialBatched (ab_name (array_bytes_codec self)) batch] |} in
      length batch = length batch_info
      ∧ match decode_partial batch dispatched with
        | (Raise e, w2) =>
            read_batched self batch_info out runtime_configuration w = (Raise e, w2)
        | (Ok chunk_array_batch, w2) =>
            valid w2 out ->
            Forall (from_option (fun r => base r ≠ base out) True) chunk_array_batch ->
            ∃ w',
              read_batched self batch_info out runtime_configuration w = (Ok tt, w')
              ∧ store w' = store w2
              ∧ log w' = log w2
              ∧ heap w' !!! base out
                = fold_left (assign_out_partial (view out))
                    (combine (contents w2 chunk_array_batch) batch_info)
                    (heap w2 !!! base out)
              ∧ ∀ l, l ≠ base out -> heap w' !!! l = heap w2 !!! l
        end.
Proof.
  intros Hsup. pose proof Hsup as Hsup'.
  unfold supports_partial_decode in Hsup'.
  apply andb_true_iff in Hsup' as [_ Hsome].
  apply bool_decide_eq_true in Hsome as [decode_partial Hsome].
  exists decode_partial. split; [exact Hsome|]. cbv zeta.
  split; [apply length_map|].
  unfold read_batched. rewrite Hsup. unfold decode_partial_batched.
  rewrite Hsup, Hsome. cbn [negb]. rewrite !bind_run. cbn [emit].
  match goal with |- context [decode_partial ?a ?w0] =>
    destruct (decode_partial a w0) as [[chunk_array_batch|e] w2] end; [|done].
  intros Hout Hfresh.
  destruct (write_out_partial_loop out (combine chunk_array_batch batch_info) w2 Hout)
    as (w' & Hloop & Hs & Hl & _ & Hother & Hbuf).
  { clear -Hfresh. revert batch_info.
    induction Hfresh as [|r batch Hr _ IH]; intros [|item batch_info]; simpl;
      try constructor; [done|apply IH]. }
  exists w'. split; [exact Hloop|]. split; [exact Hs|]. split; [exact Hl|].
  split; [|exact Hother]. now rewrite Hbuf, contents_zip.
Qed.

(** ** [getitem] *)

Lemma batch_info_of_keys (self : AsyncArray) (indexer : Indexer) :
  map item_key (batch_info_of self indexer)
  = map (fun item : ChunkCoords * Sel * Sel => chunk_key self item.1.1)
      (indexer_items indexer).
Proof.
  unfold batch_info_of. rewrite map_map. apply map_ext. now intros [[c s] o].
Qed.

Lemma batch_info_of_specs (self : AsyncArray) (indexer : Indexer) :
  Forall
    (fun item => item_spec item
                 = {| spec_shape :=
                        match chunk_grid (metadata self) with
                        | RegularChunkGrid chunk_shape => chunk_shape
                        | OtherChunkGrid => []
                        end;
                      spec_dtype := md_dtype (metadata self);
                      spec_fill_value := md_fill_value (metadata self) |})
    (batch_info_of self indexer).
Proof.
  unfold batch_info_of. apply List.Forall_forall. intros item Hin.
  apply in_map_iff in Hin as ([[c s] o] & <- & _). done.
Qed.

(** X7. [getitem] on the full-decode path, for decoders that honour the
    batch contract and a selection the indexer accepts.  The call does not
    raise.  It returns a new array object, which shares no buffer with an
    array that was live before, holding [np.zeros] of the shape of the
    selection into which, chunk by chunk in indexer order, the slice
    [chunk_selection] of the decoded chunk was assigned at [out_selection],
    or the fill value of the array when the key of the chunk is absent; for
    a selection of shape [()] it returns the element instead.  In
    particular an array none of whose chunks is stored reads as its fill
    value.  Store and live arrays are unchanged. *)
Theorem getitem_result (self : AsyncArray) (selection : Selection)
    (chunk_shape : ChunkCoords) (indexer : Indexer) (w : World) :
  chunk_grid (metadata self) = RegularChunkGrid chunk_shape ->
  BasicIndexer selection (md_shape (metadata self)) chunk_shape = Ok indexer ->
  supports_partial_decode (codecs self) = false ->
  decoders_honour_none (codecs self) ->
  let batch_info := batch_info_of self indexer in
  let out := {| base := length (heap w); view := [] |} in
  ∃ chunks v w',
    getitem self selection w = (Ok v, w')
    ∧ decode_values (codecs self)
        (map (fun item => (store w !! item_key item, item_spec item)) batch_info)
      = Ok chunks
    ∧ same_none (map (fun item => store w !! item_key item) batch_info) chunks
    ∧ peek w' out
      = fold_left (assign_out []) (combine chunks batch_info)
          (np_zeros (indexer_shape indexer) (md_dtype (metadata self))
             (rc_order (runtime_configuration self)))
    ∧ v = match arr_shape (peek w' out) with
          | _ :: _ => VArray out
          | [] => VScalar (arr_item (peek w' out))
          end
    ∧ (∀ r, valid w r -> peek w' r = peek w r)
    ∧ store w' = store w
    ∧ ((∀ item, item ∈ batch_info -> store w !! item_key item = None) ->
       peek w' out
       = fold_left
           (fun a (item : BatchItem) =>
              arr_setitem_scalar a item.2 (md_fill_value (metadata self)))
           batch_info
           (np_zeros (indexer_shape indexer) (md_dtype (metadata self))
              (rc_order (runtime_configuration self)))).
Proof.
  intros Hgrid Hindexer Hpartial Hdec. cbv zeta.
  set (zeros := np_zeros (indexer_shape indexer) (md_dtype (metadata self))
                  (rc_order (runtime_configuration self))).
  set (out := {| base := length (heap w); view := [] |}).
  set (w0 := {| store := store w; heap := heap w ++ [zeros]; log := log w |}).
  assert (Hout : valid w0 out).
  { unfold valid, w0, out. simpl. rewrite length_app. simpl. lia. }
  destruct (read_batched_run (codecs self) (batch_info_of self indexer) out
              (runtime_configuration self) w0 Hpartial Hdec Hout)
    as (chunks & w' & Hread & Hchunks & Hsame & Hbuf & Hother & Hs & _).
  assert (Hpeek : peek w' out
                  = fold_left (assign_out []) (combine chunks (batch_info_of self indexer))
                      zeros).
  { change (peek w' out) with (heap w' !!! base out). rewrite Hbuf.
    change (view out) with (@nil Sel). do 2 f_equal.
    unfold w0, out. cbn [heap base]. now rewrite list_lookup_total_middle. }
  exists chunks,
    (match arr_shape (peek w' out) with
     | _ :: _ => VArray out
     | [] => VScalar (arr_item (peek w' out))
     end), w'.
  split.
  { unfold getitem. rewrite Hgrid, bind_run, Hindexer. unfold lift at 1.
    rewrite bind_run. cbn [alloc]. fold zeros. fold out. fold w0.
    rewrite bind_run, Hread, bind_run. cbn [load].
    destruct (arr_shape (peek w' out)) eqn:Hshape; reflexivity. }
  split; [exact Hchunks|]. split; [exact Hsame|]. split; [exact Hpeek|].
  split; [reflexivity|].
  split.
  { intros r Hr. unfold peek. f_equal. unfold valid in Hr.
    rewrite Hother.
    - unfold w0. cbn [heap]. now rewrite lookup_total_app_l.
    - unfold w0. cbn [heap]. rewrite length_app. lia.
    - unfold out. cbn [base]. lia. }
  split; [exact Hs|].
  intros Habsent. rewrite Hpeek.
  pose proof (batch_info_of_specs self indexer) as Hspecs.
  rewrite Hgrid in Hspecs.
  apply Forall2_fmap_l in Hsame.
  change (store w0) with (store w) in Hsame.
  clearbody zeros. clear -Hsame Habsent Hspecs. revert Hsame Habsent Hspecs.
  generalize (batch_info_of self indexer).
  intros batch_info Hsame Habsent Hspecs. revert zeros.
  induction Hsame as [|item c batch_info chunks Hc _ IH]; intros zeros; [done|].
  apply Forall_cons in Hspecs as [Hspec Hspecs].
  assert (c = None) as ->.
  { simpl in Hc. rewrite (Habsent item) in Hc by left. destruct c; [|done].
    destruct Hc as [Hc _]. destruct Hc; [by eexists|done]. }
  cbn [combine fold_left]. rewrite IH.
  - f_equal. destruct item as [[[key chunk_spec] chunk_selection] out_selection].
    simpl in Hspec. subst chunk_spec. reflexivity.
  - intros item' Hin. apply Habsent. now right.
  - exact Hspecs.
Qed.

(** ** Preconditions of the array engine *)

(** X9. [setitem] compares the shape of the value with the shape of the
    selection; for a value without a [shape] attribute it compares the
    shape of [np.asarray(value, dtype)].  When they differ the call raises
    [AssertionError] before [write_batched] is reached: no store operation
    and no codec call was made, and no live array object was changed. *)
Theorem setitem_shape_mismatch (self : AsyncArray) (selection : Selection)
    (chunk_shape : ChunkCoords) (indexer : Indexer) (value : Value) (w : World) :
  chunk_grid (metadata self) = RegularChunkGrid chunk_shape ->
  BasicIndexer selection (md_shape (metadata self)) chunk_shape = Ok indexer ->
  match value with
  | VScalar _ => False
  | VArray a => arr_shape (peek w a) ≠ indexer_shape indexer
  | VArrayLike l =>
      arr_shape (np_asarray l (md_dtype (metadata self))) ≠ indexer_shape indexer
  end ->
  (setitem self selection value w).1 = Raise AssertionError
  ∧ store (setitem self selection value w).2 = store w
  ∧ log (setitem self selection value w).2 = log w
  ∧ ∀ r, valid w r -> peek (setitem self selection value w).2 r = peek w r.
Proof.
  intros Hgrid Hindexer Hshape. unfold setitem.
  rewrite Hgrid, bind_run, Hindexer. unfold lift. rewrite bind_run.
  destruct value as [x|a|l]; [done| |].
  - cbn [normalize_value]. rewrite bind_run. cbn [ret]. rewrite bind_run. cbn [load].
    rewrite bool_decide_eq_false_2 by exact Hshape. cbn. done.
  - cbn [normalize_value]. rewrite bind_run. cbn [alloc]. rewrite bind_run.
    cbn [load].
    match goal with |- context [peek ?w0 ?r0] =>
      assert (Hmid : peek w0 r0 = np_asarray l (md_dtype (metadata self)))
        by (unfold peek; cbn [base view heap through fold_left];
            now rewrite list_lookup_total_middle);
      rewrite !Hmid
    end.
    rewrite bool_decide_eq_false_2 by exact Hshape. cbn.
    repeat split; try done.
    intros r Hr. unfold peek. cbn [heap]. now rewrite lookup_total_app_l.
Qed.

(** ** More on [resize], and [update_attributes] *)

(** The run of [resize] with [delete_outside_chunks] unset. *)
Lemma resize_keep_run (self : AsyncArray) (new_shape chunk_shape : ChunkCoords)
    (w : World) :
  length new_shape = length (md_shape (metadata self)) ->
  chunk_grid (metadata self) = RegularChunkGrid chunk_shape ->
  let new_metadata := replace_shape (metadata self) new_shape in
  resize self new_shape false w
  = (Ok (replace_metadata self new_metadata),
     {| store := <[metadata_key self := to_bytes new_metadata]> (store w);
        heap := heap w;
        log := log w ++ [StoreSet (metadata_key self) (to_bytes new_metadata)] |}).
Proof.
  intros Hlen Hgrid. cbv zeta. unfold resize.
  rewrite Hlen, Nat.eqb_refl, Hgrid. cbn [negb]. reflexivity.
Qed.

(** X10. [resize] that deletes nothing.  With [delete_outside_chunks]
    unset, or when every chunk coordinate of the current shape is one of
    the new shape, as when the array grows or keeps its shape, [resize]
    issues one store operation, the [set] of the metadata document, and
    leaves every other key as it was: the chunks outside a smaller new
    shape stay in the store. *)
Theorem resize_metadata_only (self : AsyncArray) (new_shape chunk_shape : ChunkCoords)
    (delete_outside_chunks : bool) (w : World) :
  length new_shape = length (md_shape (metadata self)) ->
  chunk_grid (metadata self) = RegularChunkGrid chunk_shape ->
  delete_outside_chunks = false
  ∨ grid_coords (md_shape (metadata self)) chunk_shape
    ⊆ grid_coords new_shape chunk_shape ->
  let new_metadata := replace_shape (metadata self) new_shape in
  resize self new_shape delete_outside_chunks w
  = (Ok (replace_metadata self new_metadata),
     {| store := <[metadata_key self := to_bytes new_metadata]> (store w);
        heap := heap w;
        log := log w ++ [StoreSet (metadata_key self) (to_bytes new_metadata)] |}).
Proof.
  intros Hlen Hgrid Hcase. cbv zeta.
  destruct delete_outside_chunks.
  - destruct Hcase as [|Hsub]; [done|].
    rewrite (resize_run self new_shape chunk_shape w Hlen Hgrid). cbv zeta.
    apply subseteq_empty_difference_L in Hsub. rewrite Hsub, elements_empty.
    reflexivity.
  - apply (resize_keep_run self new_shape chunk_shape w Hlen Hgrid).
Qed.

(** X11. [resize] keeps the chunks of the new shape.  Whatever the flag,
    the key of a chunk coordinate of the new shape holds after the call
    what it held before, provided no other chunk coordinate of the old
    shape is encoded to the same key and the key is not the one of the
    metadata document. *)
Theorem resize_keeps_chunks_inside (self : AsyncArray)
    (new_shape chunk_shape : ChunkCoords) (delete_outside_chunks : bool)
    (chunk_coords : ChunkCoords) (w : World) :
  length new_shape = length (md_shape (metadata self)) ->
  chunk_grid (metadata self) = RegularChunkGrid chunk_shape ->
  chunk_coords ∈ grid_coords new_shape chunk_shape ->
  chunk_key self chunk_coords ≠ metadata_key self ->
  (∀ c, c ∈ grid_coords (md_shape (metadata self)) chunk_shape ->
        chunk_key self c = chunk_key self chunk_coords -> c = chunk_coords) ->
  store (resize self new_shape delete_outside_chunks w).2 !! chunk_key self chunk_coords
  = store w !! chunk_key self chunk_coords.
Proof.
  intros Hlen Hgrid Hin Hmeta Hinj.
  destruct delete_outside_chunks.
  - rewrite (resize_run self new_shape chunk_shape w Hlen Hgrid). cbv zeta.
    cbn [snd store]. rewrite lookup_insert_ne by done.
    rewrite fold_delete_lookup.
    destruct (decide (chunk_key self chunk_coords ∈ _)) as [Hdel|]; [|done].
    exfalso. apply list_elem_of_In, in_map_iff in Hdel as (c & Hkey & Hc).
    apply list_elem_of_In, elem_of_elements, elem_of_difference in Hc as [Hold Hnew].
    apply Hnew. now rewrite (Hinj c Hold Hkey).
  - rewrite (resize_keep_run self new_shape chunk_shape w Hlen Hgrid). cbv zeta.
    cbn [snd store]. now rewrite lookup_insert_ne.
Qed.

Lemma update_attributes_run (self : AsyncArray)
    (new_attributes : list (string * string)) (w : World) :
  let new_metadata := replace_attributes (metadata self) new_attributes in
  update_attributes self new_attributes w
  = (Ok (replace_metadata self new_metadata),
     {| store := <[metadata_key self := to_bytes new_metadata]> (store w);
        heap := heap w;
        log := log w ++ [StoreSet (metadata_key self) (to_bytes new_metadata)] |}).
Proof. reflexivity. Qed.

(** X12. [update_attributes] and [resize] commute.  [update_attributes]
    sets the metadata document to the metadata with the new attributes and
    touches nothing else: shape, chunk grid, codecs and every chunk key stay.
    When [resize] passes its checks, calling the two in either order returns
    the same array and leaves the same store, whose metadata document is
    the one of the array returned. *)
Theorem update_attributes_resize_commute (self : AsyncArray)
    (new_attributes : list (string * string))
    (new_shape chunk_shape : ChunkCoords) (delete_outside_chunks : bool)
    (w : World) :
  length new_shape = length (md_shape (metadata self)) ->
  chunk_grid (metadata self) = RegularChunkGrid chunk_shape ->
  let attributes_first :=
    (let* array := update_attributes self new_attributes in
     resize array new_shape delete_outside_chunks) w in
  let resize_first :=
    (let* array := resize self new_shape delete_outside_chunks in
     update_attributes array new_attributes) w in
  (∃ array w1,
     update_attributes self new_attributes w = (Ok array, w1)
     ∧ attributes (metadata array) = new_attributes
     ∧ shape array = shape self
     ∧ chunk_grid (metadata array) = chunk_grid (metadata self)
     ∧ codecs array = codecs self
     ∧ log w1
       = log w ++ [StoreSet (metadata_key self) (to_bytes (metadata array))]
     ∧ ∀ key, key ≠ metadata_key self -> store w1 !! key = store w !! key)
  ∧ ∃ array,
      attributes_first.1 = Ok array
      ∧ resize_first.1 = Ok array
      ∧ shape array = new_shape
      ∧ attributes (metadata array) = new_attributes
      ∧ store attributes_first.2 = store resize_first.2
      ∧ store resize_first.2 !! metadata_key array = Some (to_bytes (metadata array)).
Proof.
  intros Hlen Hgrid. cbv zeta. split.
  - eexists _, _. split; [apply update_attributes_run|]. cbv zeta.
    cbn [store log]. repeat split; try done.
    intros key Hkey. now rewrite lookup_insert_ne.
  - exists (replace_metadata self
              (replace_attributes (replace_shape (metadata self) new_shape)
                 new_attributes)).
    rewrite !bind_run, update_attributes_run. cbv zeta.
    set (self_a := replace_metadata self
                     (replace_attributes (metadata self) new_attributes)).
    assert (Hlen_a : length new_shape = length (md_shape (metadata self_a))) by done.
    assert (Hgrid_a : chunk_grid (metadata self_a) = RegularChunkGrid chunk_shape)
      by done.
    destruct delete_outside_chunks.
    + rewrite (resize_run self_a new_shape chunk_shape _ Hlen_a Hgrid_a).
      rewrite (resize_run self new_shape chunk_shape w Hlen Hgrid). cbv zeta.
      rewrite update_attributes_run. cbv zeta. cbn [fst snd store].
      split; [done|]. split; [done|]. split; [done|]. split; [done|].
      split; [|apply lookup_insert_eq].
      apply map_eq. intros key.
      change (metadata_key (replace_metadata self _)) with (metadata_key self).
      change (metadata_key self_a) with (metadata_key self).
      destruct (decide (key = metadata_key self)) as [->|Hne].
      * now rewrite !lookup_insert_eq.
      * rewrite !lookup_insert_ne by done.
        change (md_shape (metadata self_a)) with (md_shape (metadata self)).
        rewrite !(fold_delete_lookup (chunk_key self)).
        change (chunk_key self_a) with (chunk_key self).
        rewrite !(fold_delete_lookup (chunk_key self)).
        destruct (decide (key ∈ _)); [done|]. now rewrite lookup_insert_ne.
    + rewrite (resize_keep_run self_a new_shape chunk_shape _ Hlen_a Hgrid_a).
      rewrite (resize_keep_run self new_shape chunk_shape w Hlen Hgrid). cbv zeta.
      rewrite update_attributes_run. cbv zeta. cbn [fst snd store].
      split; [done|]. split; [done|]. split; [done|]. split; [done|].
      split; [|apply lookup_insert_eq].
      change (metadata_key (replace_metadata self _)) with (metadata_key self).
      change (metadata_key self_a) with (metadata_key self).
      now rewrite !insert_insert_eq.
Qed.

(** ** What [setitem] leaves alone *)

(** The normalisation of the value allocates at most two arrays and does
    nothing else; what it returns is a scalar or a live array object. *)
Lemma normalize_value_run (self : AsyncArray) (sel_shape : ChunkCoords)
    (value : Value) (w w0 : World) (r : result Value) :
  live_value w value ->
  normalize_value self sel_shape value w = (r, w0) ->
  store w0 = store w
  ∧ log w0 = log w
  ∧ (∃ h, heap w0 = heap w ++ h)
  ∧ match r with
    | Ok (VArrayLike _) => False
    | Ok value' => live_value w0 value'
    | Raise _ => True
    end.
Proof.
  intros Hlive. destruct value as [x|a|l].
  - intros [= <- <-]. repeat split; try done. exists []. now rewrite app_nil_r.
  - cbn [normalize_value]. rewrite bind_run. cbn [ret]. rewrite bind_run. cbn [load].
    destruct (negb (bool_decide (arr_shape (peek w a) = sel_shape))).
    { intros [= <- <-]. repeat split; try done. exists []. now rewrite app_nil_r. }
    destruct (negb (String.eqb _ _)).
    + rewrite bind_run. cbn [alloc ret]. intros [= <- <-]. cbn [store heap log].
      repeat split; try done; [now eexists|].
      unfold live_value, valid. cbn [base heap]. rewrite length_app. simpl. lia.
    + intros [= <- <-]. repeat split; try done. exists []. now rewrite app_nil_r.
  - cbn [normalize_value]. rewrite bind_run. cbn [alloc]. rewrite bind_run.
    cbn [load].
    match goal with |- context [negb (bool_decide ?P)] =>
      destruct (negb (bool_decide P)) end.
    { intros [= <- <-]. cbn [store heap log]. repeat split; try done. now eexists. }
    destruct (negb (String.eqb _ _)).
    + rewrite bind_run. cbn [alloc ret]. intros [= <- <-]. cbn [store heap log].
      repeat split; try done.
      * eexists. rewrite <- app_assoc. reflexivity.
      * unfold live_value, valid. cbn [base heap]. rewrite !length_app. simpl. lia.
    + intros [= <- <-]. cbn [store heap log]. repeat split; try done; [now eexists|].
      unfold live_value, valid. cbn [base heap]. rewrite length_app. simpl. lia.
Qed.

Lemma existing_gets_keys (batch_info : list BatchItem) :
  Forall
    (fun e => is_store_get e = true
              ∧ ∃ key, event_key e = Some key ∧ key ∈ map item_key batch_info)
    (omap existing_get batch_info).
Proof.
  induction batch_info as [|[[[key chunk_spec] chunk_selection] out_selection]
                             batch_info IH]; [constructor|].
  assert (Hrest :
            Forall
              (fun e => is_store_get e = true
                        ∧ ∃ k, event_key e = Some k
                               ∧ k ∈ map item_key
                                       ((key, chunk_spec, chunk_selection, out_selection)
                                        :: batch_info))
              (omap existing_get batch_info)).
  { eapply Forall_impl; [exact IH|]. intros e (Hget & k & Hk & Hin).
    split; [exact Hget|]. exists k. split; [exact Hk|]. now right. }
  cbn [omap list_omap existing_get].
  destruct (is_total_slice chunk_selection (spec_shape chunk_spec));
    [exact Hrest|].
  constructor; [|exact Hrest].
  split; [done|]. exists key. split; [done|]. left.
Qed.

Lemma write_ops_keys (batch_info : list BatchItem)
    (chunk_bytes_batch : list (option BytesLike)) :
  Forall
    (fun e => is_store_write e = true
              ∧ ∃ key, event_key e = Some key ∧ key ∈ map item_key batch_info)
    (map write_op (combine chunk_bytes_batch batch_info)).
Proof.
  apply Forall_fmap, Forall_forall.
  intros [b [[[key chunk_spec] chunk_selection] out_selection]] Hin.
  assert (Hkey : key ∈ map item_key batch_info).
  { apply (zip_keys_subset chunk_bytes_batch).
    apply (list_elem_of_fmap_2 (fun item : option BytesLike * BatchItem => item_key item.2))
      in Hin. exact Hin. }
  destruct b; (split; [done|]); exists key; done.
Qed.

(** X13. The store operations of a [setitem] on the read-modify-write
    path, for any codecs and any value.  Every store operation of the call
    is a [get], a [set] or a [delete] at the key of a chunk that the
    indexer yields for the selection, with the [get]s first, then codec
    calls only, then the [set]s and [delete]s: the metadata document and
    the chunks outside the selection are neither read nor written, and
    their keys hold afterwards what they held before. *)
Theorem setitem_frame (self : AsyncArray) (selection : Selection)
    (chunk_shape : ChunkCoords) (indexer : Indexer) (value : Value) (w : World) :
  chunk_grid (metadata self) = RegularChunkGrid chunk_shape ->
  BasicIndexer selection (md_shape (metadata self)) chunk_shape = Ok indexer ->
  supports_partial_encode (codecs self) = false ->
  live_value w value ->
  let run := setitem self selection value w in
  let keys :=
    map (fun item : ChunkCoords * Sel * Sel => chunk_key self item.1.1)
      (indexer_items indexer) in
  (∀ key, key ∉ keys -> store run.2 !! key = store w !! key)
  ∧ ∃ gets calls writes,
      log run.2 = log w ++ gets ++ calls ++ writes
      ∧ Forall
          (fun e => is_store_get e = true
                    ∧ ∃ key, event_key e = Some key ∧ key ∈ keys) gets
      ∧ Forall (fun e => event_key e = None) calls
      ∧ Forall
          (fun e => is_store_write e = true
                    ∧ ∃ key, event_key e = Some key ∧ key ∈ keys) writes.
Proof.
  intros Hgrid Hindexer Hpartial Hlive. cbv zeta. unfold setitem.
  rewrite Hgrid, bind_run, Hindexer. unfold lift. rewrite bind_run.
  destruct (normalize_value self (indexer_shape indexer) value w) as [r0 w0] eqn:Hnorm.
  apply normalize_value_run in Hnorm as (Hs0 & Hl0 & _ & Hr0); [|exact Hlive].
  destruct r0 as [value'|e].
  2:{ cbn [fst snd]. split; [intros; now rewrite Hs0|].
      exists [], [], []. rewrite Hl0, app_nil_r. repeat split; constructor. }
  assert (Hlive' : live_value w0 value') by (now destruct value').
  destruct (rmw_effects (codecs self) (batch_info_of self indexer) value'
              (runtime_configuration self) w0 Hpartial Hlive')
    as (Hkeys & (calls & bytes & Hlog & Hcalls & _) & _).
  cbv zeta in Hkeys, Hlog. rewrite batch_info_of_keys in Hkeys.
  split.
  - intros key Hkey. now rewrite Hkeys, Hs0.
  - exists (omap existing_get (batch_info_of self indexer)), calls,
      (map write_op (combine bytes (batch_info_of self indexer))).
    split; [now rewrite Hlog, Hl0|].
    rewrite <- batch_info_of_keys.
    split; [apply existing_gets_keys|]. split; [exact Hcalls|apply write_ops_keys].
Qed.

End Properties.

(** * Properties of construction and of the synchronous class *)

Section ConstructionProperties.

Context {np : NumPy} {ix : Indexing} {doc : MetadataDocument} {ext : Collaborators}.

(** The run of [create], collaborator by collaborator. *)
Lemma create_run (store_like : StoreLike) (shape : ChunkCoords)
    (dtype : DTypeLike) (chunk_shape : ChunkCoords) (fill_value : option FillLike)
    (key_encoding : string * string) (codec_list : option (list CodecLike))
    (names : option (list string)) (attrs : option (list (string * string)))
    (config : RuntimeConfiguration) (exists_ok : bool) (w : World) :
  create store_like shape dtype chunk_shape fill_value key_encoding codec_list
    names attrs config exists_ok w
  = match make_store_path store_like with
    | Raise e => (Raise e, w)
    | Ok path =>
        if negb exists_ok
           && bool_decide (is_Some (store w !! sp_div path ZARR_JSON))
        then (Raise AssertionError, w)
        else
          match
            (if String.eqb key_encoding.1 "v2"
             then V2ChunkKeyEncoding key_encoding.2
             else DefaultChunkKeyEncoding key_encoding.2)
          with
          | Raise e => (Raise e, w)
          | Ok encoding =>
              match
                ArrayMetadata_new shape dtype (RegularChunkGrid chunk_shape) encoding
                  (match fill_value with
                   | Some fill_value => fill_value
                   | None => if dtype_is_bool dtype then py_False else py_zero
                   end)
                  (match codec_list with
                   | Some codecs => codecs
                   | None => [BytesCodec]
                   end)
                  (match names with
                   | Some (name :: names) => Some (name :: names)
                   | _ => None
                   end)
                  (match attrs with
                   | Some attributes => attributes
                   | None => []
                   end)
              with
              | Raise e => (Raise e, w)
              | Ok md =>
                  (Ok {| metadata := md; store_path := path;
                         runtime_configuration := config |},
                   {| store := <[sp_div path ZARR_JSON := to_bytes md]> (store w);
                      heap := heap w;
                      log := log w ++ [StoreSet (sp_div path ZARR_JSON) (to_bytes md)] |})
              end
          end
    end.
Proof.
  unfold create. rewrite bind_run. unfold lift at 1.
  destruct (make_store_path store_like) as [path|e]; [|done].
  rewrite bind_run.
  assert (Hcheck :
            (if negb exists_ok then
               let* present := store_exists (sp_div path ZARR_JSON) in
               if present then raise AssertionError else ret tt
             else ret tt) w
            = (if negb exists_ok
                  && bool_decide (is_Some (store w !! sp_div path ZARR_JSON))
               then Raise AssertionError else Ok tt, w)).
  { destruct exists_ok; cbn [negb andb]; [done|].
    rewrite bind_run. cbn [store_exists].
    destruct (bool_decide (is_Some (store w !! sp_div path ZARR_JSON))); done. }
  rewrite Hcheck. clear Hcheck.
  destruct (negb exists_ok && bool_decide (is_Some (store w !! sp_div path ZARR_JSON)));
    [done|].
  rewrite bind_run. unfold lift at 1.
  destruct (if String.eqb key_encoding.1 "v2"
            then V2ChunkKeyEncoding key_encoding.2
            else DefaultChunkKeyEncoding key_encoding.2) as [encoding|e]; [|done].
  rewrite bind_run. unfold lift at 1.
  destruct (ArrayMetadata_new _ _ _ _ _ _ _ _) as [md|e]; [|done].
  reflexivity.
Qed.

(** What [create] returns and leaves. *)
Lemma create_ok (store_like : StoreLike) (shape : ChunkCoords)
    (dtype : DTypeLike) (chunk_shape : ChunkCoords) (fill_value : option FillLike)
    (key_encoding : string * string) (codec_list : option (list CodecLike))
    (names : option (list string)) (attrs : option (list (string * string)))
    (config : RuntimeConfiguration) (exists_ok : bool) (w w1 : World)
    (array : AsyncArray) :
  create store_like shape dtype chunk_shape fill_value key_encoding codec_list
    names attrs config exists_ok w = (Ok array, w1) ->
  make_store_path store_like = Ok (store_path array)
  ∧ runtime_configuration array = config
  ∧ (exists_ok = false -> store w !! metadata_key array = None)
  ∧ w1 = {| store := <[metadata_key array := to_bytes (metadata array)]> (store w);
            heap := heap w;
            log := log w
                   ++ [StoreSet (metadata_key array) (to_bytes (metadata array))] |}.
Proof.
  rewrite create_run.
  destruct (make_store_path store_like) as [path|e]; [|done].
  destruct (negb exists_ok && bool_decide (is_Some (store w !! sp_div path ZARR_JSON)))
    eqn:Hconflict; [done|].
  destruct (if String.eqb key_encoding.1 "v2"
            then V2ChunkKeyEncoding key_encoding.2
            else DefaultChunkKeyEncoding key_encoding.2) as [encoding|e]; [|done].
  destruct (ArrayMetadata_new _ _ _ _ _ _ _ _) as [md|e]; [|done].
  intros [= <- <-]. cbn [store_path runtime_configuration metadata].
  split; [done|]. split; [done|]. split; [|done].
  intros ->. cbn [negb andb] in Hconflict.
  apply bool_decide_eq_false in Hconflict. unfold metadata_key. cbn [store_path].
  destruct (store w !! sp_div path ZARR_JSON); [|done].
  exfalso. apply Hconflict. by eexists.
Qed.

(** X14. [create].  With [exists_ok] unset, [create] on a store that holds
    a metadata document at the path raises [AssertionError].  Whenever
    [create] raises, by this check or in a collaborator, nothing was
    written.  When it returns, the array it returns is at the store path
    made from the store given and has the runtime configuration given;
    exactly one store operation was issued, the [set] of the metadata
    document of that array, and every other key is as it was: chunks that
    were in the store stay there, which with [exists_ok] set can be those
    of an earlier array. *)
Theorem create_effects (store_like : StoreLike) (shape : ChunkCoords)
    (dtype : DTypeLike) (chunk_shape : ChunkCoords) (fill_value : option FillLike)
    (key_encoding : string * string) (codec_list : option (list CodecLike))
    (names : option (list string)) (attrs : option (list (string * string)))
    (config : RuntimeConfiguration) (exists_ok : bool) (w : World) :
  let run :=
    create store_like shape dtype chunk_shape fill_value key_encoding codec_list
      names attrs config exists_ok w in
  (∀ path,
     make_store_path store_like = Ok path ->
     exists_ok = false ->
     is_Some (store w !! sp_div path ZARR_JSON) ->
     run = (Raise AssertionError, w))
  ∧ (is_ok run.1 = false -> run.2 = w)
  ∧ (∀ array,
       run.1 = Ok array ->
       make_store_path store_like = Ok (store_path array)
       ∧ runtime_configuration array = config
       ∧ (exists_ok = false -> store w !! metadata_key array = None)
       ∧ run.2
         = {| store := <[metadata_key array := to_bytes (metadata array)]> (store w);
              heap := heap w;
              log := log w
                     ++ [StoreSet (metadata_key array) (to_bytes (metadata array))] |}).
Proof.
  cbv zeta. split; [|split].
  - intros path Hpath -> Hsome. rewrite create_run, Hpath. cbn [negb andb].
    now rewrite bool_decide_eq_true_2.
  - rewrite create_run.
    destruct (make_store_path store_like) as [path|e]; [|done].
    destruct (negb exists_ok && _); [done|].
    destruct (if String.eqb key_encoding.1 "v2" then _ else _); [|done].
    destruct (ArrayMetadata_new _ _ _ _ _ _ _ _); done.
  - intros array Hok.
    destruct (create store_like shape dtype chunk_shape fill_value key_encoding
                codec_list names attrs config exists_ok w) as [r w1] eqn:Hrun.
    cbn [fst snd] in *. subst r. now apply create_ok in Hrun.
Qed.

(** The run of [open] on a store that holds the document of [array]. *)
Lemma open_run (store_like : StoreLike) (array : AsyncArray) (data : Dict)
    (w : World) :
  make_store_path store_like = Ok (store_path array) ->
  metadata_stored array w ->
  json_loads (to_bytes (metadata array)) = Ok data ->
  metadata_from_dict data = Ok (metadata array) ->
  open store_like (runtime_configuration array) w
  = (Ok array,
     {| store := store w; heap := heap w;
        log := log w ++ [StoreGet (metadata_key array)] |}).
Proof.
  intros Hpath Hstored Hloads Hdict. unfold open.
  rewrite bind_run, Hpath. unfold lift at 1. rewrite bind_run. cbn [store_get].
  unfold metadata_stored, metadata_key in Hstored. rewrite Hstored.
  rewrite bind_run. unfold lift. rewrite Hloads.
  unfold from_dict. rewrite Hdict. now destruct array.
Qed.

(** X15. [open].  [open] issues one store operation, the [get] of the
    metadata document, and changes neither the store nor an array object.
    When the document is absent it raises [AssertionError].  When the
    store holds the metadata document of an array at the store path made
    from the store given, and the parser maps that document to the metadata
    it was written from, [open] returns that array, with the runtime
    configuration given. *)
Theorem open_returns_stored (store_like : StoreLike) (config : RuntimeConfiguration)
    (w : World) :
  (∀ path,
     make_store_path store_like = Ok path ->
     let w1 := {| store := store w; heap := heap w;
                  log := log w ++ [StoreGet (sp_div path ZARR_JSON)] |} in
     (open store_like config w).2 = w1
     ∧ (store w !! sp_div path ZARR_JSON = None ->
        open store_like config w = (Raise AssertionError, w1))
     ∧ ∀ array data,
         store_path array = path ->
         runtime_configuration array = config ->
         metadata_stored array w ->
         json_loads (to_bytes (metadata array)) = Ok data ->
         metadata_from_dict data = Ok (metadata array) ->
         open store_like config w = (Ok array, w1))
  ∧ (∀ e, make_store_path store_like = Raise e ->
          open store_like config w = (Raise e, w)).
Proof.
  split.
  - intros path Hpath. cbv zeta. split; [|split].
    + unfold open.
      rewrite bind_run, Hpath. unfold lift at 1. rewrite bind_run. cbn [store_get].
      destruct (store w !! sp_div path ZARR_JSON) as [b|]; [|done].
      rewrite bind_run. unfold lift.
      destruct (json_loads b); [|done]. now destruct (from_dict _ _ _).
    + intros Hnone. unfold open.
      rewrite bind_run, Hpath. unfold lift at 1. rewrite bind_run. cbn [store_get].
      now rewrite Hnone.
    + intros array data <- <- Hstored Hloads Hdict.
      now apply open_run with (data := data).
  - intros e Hpath. unfold open. rewrite bind_run, Hpath. reflexivity.
Qed.

(** X16. An array can be opened again.  After [create], [resize] or
    [update_attributes] has returned an array, [open] of the store the
    array is at, with its runtime configuration, returns that array,
    provided the parser maps the metadata document of the array to the
    metadata it was written from.  Nothing but the metadata document was
    read for it. *)
Theorem reopen (store_like : StoreLike) (array : AsyncArray) (data : Dict)
    (w w1 : World) :
  make_store_path store_like = Ok (store_path array) ->
  json_loads (to_bytes (metadata array)) = Ok data ->
  metadata_from_dict data = Ok (metadata array) ->
  (∃ shape dtype chunk_shape fill_value key_encoding codec_list names attrs exists_ok,
     create store_like shape dtype chunk_shape fill_value key_encoding codec_list
       names attrs (runtime_configuration array) exists_ok w = (Ok array, w1))
  ∨ (∃ self new_shape delete_outside_chunks,
       resize self new_shape delete_outside_chunks w = (Ok array, w1))
  ∨ (∃ self new_attributes,
       update_attributes self new_attributes w = (Ok array, w1)) ->
  open store_like (runtime_configuration array) w1
  = (Ok array,
     {| store := store w1; heap := heap w1;
        log := log w1 ++ [StoreGet (metadata_key array)] |}).
Proof.
  intros Hpath Hloads Hdict Hmade.
  apply open_run with (data := data); try done.
  destruct Hmade as [Hcreate|[Hresize|Hupdate]].
  - destruct Hcreate as (shape & dtype & chunk_shape & fill_value & key_encoding
                         & codec_list & names & attrs & exists_ok & Hrun).
    apply create_ok in Hrun as (_ & _ & _ & ->).
    unfold metadata_stored. cbn [store]. apply lookup_insert_eq.
  - destruct Hresize as (self & new_shape & flag & Hrun).
    unfold resize in Hrun.
    destruct (negb (length new_shape =? length (md_shape (metadata self))));
      [done|].
    destruct (chunk_grid (metadata self)) as [chunk_shape|]; [|done].
    rewrite !bind_run in Hrun.
    destruct flag.
    + unfold concurrent_map in Hrun. rewrite bind_run, delete_keys_run in Hrun.
      cbn in Hrun. injection Hrun as <- <-.
      unfold metadata_stored. cbn [store]. apply lookup_insert_eq.
    + cbn in Hrun. injection Hrun as <- <-.
      unfold metadata_stored. cbn [store]. apply lookup_insert_eq.
  - destruct Hupdate as (self & new_attributes & Hrun).
    rewrite update_attributes_run in Hrun. cbv zeta in Hrun.
    injection Hrun as <- <-.
    unfold metadata_stored. cbn [store]. apply lookup_insert_eq.
Qed.

(** ** The synchronous class *)

(** A run of [Array.resize] that returns. *)
Lemma Array_resize_ok (array array' : AsyncArray) (new_shape : ChunkCoords)
    (w w' : World) :
  Array_resize {| _async_array := array |} new_shape w = (Ok array', w') ->
  ∃ chunk_shape,
    length new_shape = length (md_shape (metadata array))
    ∧ chunk_grid (metadata array) = RegularChunkGrid chunk_shape
    ∧ resize array new_shape true w = (Ok array', w').
Proof.
  unfold Array_resize, sync. cbn [_async_array]. intros Hrun.
  pose proof Hrun as Hrun'. unfold resize in Hrun'.
  destruct (Nat.eqb_spec (length new_shape) (length (md_shape (metadata array))))
    as [Hlen|]; [|done].
  destruct (chunk_grid (metadata array)) as [chunk_shape|]; [|done].
  now exists chunk_shape.
Qed.

Lemma resize_keeps_within (self self' : AsyncArray)
    (new_shape chunk_shape : ChunkCoords) (w w' : World) :
  length new_shape = length (md_shape (metadata self)) ->
  chunk_grid (metadata self) = RegularChunkGrid chunk_shape ->
  resize self new_shape true w = (Ok self', w') ->
  chunk_keys_within_shape self w ->
  chunk_keys_within_shape self' w'.
Proof.
  intros Hlen Hgrid Hrun Hbefore.
  rewrite (resize_run self new_shape chunk_shape w Hlen Hgrid) in Hrun.
  cbv zeta in Hrun. injection Hrun as <- <-.
  intros chunk_shape' Hgrid' key (Hdom & Hmeta & c0 & Hc0).
  cbn [metadata replace_metadata replace_shape chunk_grid md_shape] in *.
  rewrite Hgrid in Hgrid'. injection Hgrid' as <-.
  change (metadata_key (replace_metadata self (replace_shape (metadata self) new_shape)))
    with (metadata_key self) in Hmeta.
  change (chunk_key (replace_metadata self (replace_shape (metadata self) new_shape)) c0)
    with (chunk_key self c0) in Hc0.
  cbn [store] in Hdom. apply elem_of_dom in Hdom.
  rewrite lookup_insert_ne in Hdom by done.
  rewrite fold_delete_lookup in Hdom.
  destruct (decide (key ∈ _)) as [|Hnot]; [now destruct Hdom|].
  destruct (Hbefore chunk_shape Hgrid key) as (c & Hc & Hkey).
  { split; [now apply elem_of_dom|]. split; [done|]. now exists c0. }
  exists c. split; [|exact Hkey].
  destruct (decide (c ∈ grid_coords new_shape chunk_shape)) as [|Hc_new]; [done|].
  exfalso. apply Hnot. rewrite Hkey.
  apply list_elem_of_In, in_map, list_elem_of_In, elem_of_elements,
    elem_of_difference.
  done.
Qed.

Lemma update_attributes_keeps_within (self self' : AsyncArray)
    (new_attributes : list (string * string)) (w w' : World) :
  update_attributes self new_attributes w = (Ok self', w') ->
  chunk_keys_within_shape self w ->
  chunk_keys_within_shape self' w'.
Proof.
  rewrite update_attributes_run. cbv zeta. intros [= <- <-] Hbefore.
  intros chunk_shape Hgrid key (Hdom & Hmeta & c0 & Hc0).
  cbn [metadata replace_metadata replace_attributes chunk_grid md_shape] in *.
  change (metadata_key (replace_metadata self _)) with (metadata_key self) in Hmeta.
  change (chunk_key (replace_metadata self _) c0) with (chunk_key self c0) in Hc0.
  cbn [store] in Hdom. apply elem_of_dom in Hdom.
  rewrite lookup_insert_ne in Hdom by done.
  destruct (Hbefore chunk_shape Hgrid key) as (c & Hc & Hkey).
  { split; [now apply elem_of_dom|]. split; [done|]. now exists c0. }
  now exists c.
Qed.

(** One call of the synchronous class. *)
Lemma apply_update_ok (array array' : AsyncArray) (update : Update) (w w' : World) :
  apply_update array update w = (Ok array', w') ->
  chunk_keys_within_shape array w ->
  chunk_keys_within_shape array' w'
  ∧ metadata_stored array' w'
  ∧ store_path array' = store_path array
  ∧ chunk_grid (metadata array') = chunk_grid (metadata array)
  ∧ codecs array' = codecs array.
Proof.
  destruct update as [new_shape|new_attributes]; cbn [apply_update]; intros Hrun Hin.
  - apply Array_resize_ok in Hrun as (chunk_shape & Hlen & Hgrid & Hrun).
    split; [eapply resize_keeps_within; eassumption|].
    rewrite (resize_run array new_shape chunk_shape w Hlen Hgrid) in Hrun.
    cbv zeta in Hrun. injection Hrun as <- <-.
    split; [apply lookup_insert_eq|done].
  - unfold Array_update_attributes, sync in Hrun. cbn [_async_array] in Hrun.
    split; [eapply update_attributes_keeps_within; eassumption|].
    rewrite update_attributes_run in Hrun. cbv zeta in Hrun.
    injection Hrun as <- <-.
    split; [apply lookup_insert_eq|done].
Qed.

(** X17. The synchronous class keeps the store tidy.  [Array.resize] calls
    [resize] with [delete_outside_chunks] at its default, set, and
    [Array.update_attributes] calls [update_attributes].  Over any sequence
    of such calls, each on the array the call before returned, that does
    not raise: if every chunk key in the store was a key of a chunk
    coordinate of the shape of the array before, this holds of the last
    array and the store after; the metadata document in the store is the
    one of the last array; store path, chunk grid and codecs are those of
    the first array. *)
Theorem updates_keep_chunk_keys_within_shape (updates : list Update)
    (array array' : AsyncArray) (w w' : World) :
  chunk_keys_within_shape array w ->
  foldM apply_update updates array w = (Ok array', w') ->
  chunk_keys_within_shape array' w'
  ∧ (updates ≠ [] -> metadata_stored array' w')
  ∧ store_path array' = store_path array
  ∧ chunk_grid (metadata array') = chunk_grid (metadata array)
  ∧ codecs array' = codecs array.
Proof.
  revert array w. induction updates as [|update updates IH]; intros array w Hin.
  - intros [= <- <-]. done.
  - cbn [foldM]. rewrite bind_run.
    destruct (apply_update array update w) as [[array1|e] w1] eqn:Hstep; [|done].
    intros Hrest.
    destruct (apply_update_ok _ _ _ _ _ Hstep Hin) as (Hin1 & Hst1 & Hp1 & Hg1 & Hc1).
    destruct (IH array1 w1 Hin1 Hrest) as (Hin' & Hst' & Hp' & Hg' & Hc').
    split; [exact Hin'|]. split; [|repeat split; congruence].
    intros _. destruct updates as [|update' updates'].
    + injection Hrest as <- <-. exact Hst1.
    + now apply Hst'.
Qed.

End ConstructionProperties.

(** * The concrete instance *)

Import Demo.

(** The codecs of the instance honour the batch contract. *)
Lemma per_chunk_honours {A B} (f : A -> ArraySpec -> B) :
  honours_none (Demo.per_chunk f).
Proof.
  intros batch. eexists. split; [reflexivity|].
  unfold same_none. induction batch as [|[[x|] s] batch IH]; simpl; constructor;
    try done.
Qed.

Lemma demo_decoders_honour : decoders_honour_none Demo.full_pipeline.
Proof.
  split; [|split]; simpl.
  - repeat constructor. apply per_chunk_honours.
  - apply per_chunk_honours.
  - repeat constructor. apply per_chunk_honours.
Qed.

Lemma demo_encoders_honour : encoders_honour_none Demo.full_pipeline.
Proof.
  split; [|split]; simpl.
  - repeat constructor. apply per_chunk_honours.
  - apply per_chunk_honours.
  - repeat constructor. apply per_chunk_honours.
Qed.

Lemma demo_default_decoders_honour : decoders_honour_none Demo.default_pipeline.
Proof.
  split; [|split]; simpl; [constructor| |constructor]. apply per_chunk_honours.
Qed.

Lemma demo_default_encoders_honour : encoders_honour_none Demo.default_pipeline.
Proof.
  split; [|split]; simpl; [constructor| |constructor]. apply per_chunk_honours.
Qed.

(** The partial decoder of the shard codec only reads the store. *)
Lemma demo_partial_decode_store (batch : list (StorePath * Demo.sel * ArraySpec))
    (w : World) :
  store (mapM Demo.partial_decode_one batch w).2 = store w.
Proof.
  revert w. induction batch as [|[[key chunk_selection] chunk_spec] batch IH];
    intros w; [done|].
  cbn [mapM]. rewrite bind_run.
  destruct (Demo.partial_decode_one (key, chunk_selection, chunk_spec) w)
    as [r w1] eqn:Hone.
  assert (Hs1 : store w1 = store w).
  { unfold Demo.partial_decode_one in Hone. rewrite bind_run in Hone.
    cbn [store_get] in Hone. destruct (store w !! key); cbn in Hone;
      injection Hone as <- <-; done. }
  destruct r as [chunk|e]; [|done].
  rewrite bind_run. specialize (IH w1).
  destruct (mapM Demo.partial_decode_one batch w1) as [[chunks|e] w2];
    simpl in *; congruence.
Qed.

(** Scenarios of the specification, run on the model. *)

(** S4: writing [10, 20, 30, 40, 50] to an array of shape [5] with
    chunks of shape [2], then reading [1:4], gives [20, 30, 40]. *)
Example scenario_partial_read :
  let array := Demo.array_of Demo.default_pipeline [5] [2] in
  let w1 := (setitem array (0, 5) (VArrayLike [10; 20; 30; 40; 50]%Z)
               (Demo.world_of [])).2 in
  match getitem array (1, 4) w1 with
  | (Ok (VArray out), w2) => peek w2 out = (Demo.uint8, [20; 30; 40]%Z)
  | _ => False
  end.
Proof. vm_compute. reflexivity. Qed.

(** S3 in one dimension: writing ones at [1:3] of an empty array of shape
    [4] writes both chunks, and the array reads back [0, 1, 1, 0]; with the
    three-stage pipeline as with the default one. *)
Example scenario_partial_write :
  let array := Demo.array_of Demo.full_pipeline [4] [2] in
  let w1 := (setitem array (1, 3) (VArrayLike [1; 1]%Z) (Demo.world_of [])).2 in
  dom (store w1) = {["a/c/0"; "a/c/1"]}
  ∧ match getitem array (0, 4) w1 with
    | (Ok (VArray out), w2) => peek w2 out = (Demo.uint8, [0; 1; 1; 0]%Z)
    | _ => False
    end.
Proof. split; vm_compute; reflexivity. Qed.

(** ** The theorems at concrete inputs *)

Lemma batch_0_4_items :
  batch_0_4
  = [("a/c/0", spec_uint8, [(0, 2)], [(0, 2)]);
     ("a/c/1", spec_uint8, [(0, 2)], [(2, 4)])].
Proof. reflexivity. Qed.

Lemma batch_1_4_items :
  batch_1_4
  = [("a/c/0", spec_uint8, [(1, 2)], [(0, 1)]);
     ("a/c/1", spec_uint8, [(0, 2)], [(1, 3)])].
Proof. reflexivity. Qed.

(** C1 on the three-stage pipeline: a run of [encode_batched] that does not
    raise calls flip, bytes and mark, in this order. *)
Lemma codec_application_order_witness :
  ∃ evs,
    log (encode_batched full_pipeline [(Some (buf 0), spec_int32)] stored).2
    = log stored ++ evs
    ∧ map codec_call evs
      = map Some
          [(Encode, StageAA, "flip"); (Encode, StageAB, "bytes");
           (Encode, StageBB, "mark")].
Proof.
  destruct (codec_application_order full_pipeline) as (Hencode & _ & _ & _).
  destruct (Hencode [(Some (buf 0), spec_int32)] stored)
    as (evs & calls & Hlog & Hcalls & _ & Hok & _).
  assert (Hrun : is_ok (encode_batched full_pipeline
                          [(Some (buf 0), spec_int32)] stored).1)
    by (vm_compute; exact I).
  exists evs. split; [exact Hlog|]. rewrite Hcalls, (Hok Hrun). reflexivity.
Defined.


(** C3 on the batch of the selection [1:4] of the stored array of ones,
    written with zeros: the chunk [0] is covered in part and merged into a
    copy of the decoded chunk, the chunk [1] is covered entirely. *)
Lemma rmw_merge_spec_witness :
  supports_partial_encode default_pipeline = false
  ∧ valid stored (buf 1)
  ∧ decode_values default_pipeline (decode_input stored batch_1_4)
    = Ok [Some (uint8, [1; 1]%Z); None]
  ∧ ∃ chunk_array_batch w2 merged w3,
      rmw_merged default_pipeline batch_1_4 (VArray (buf 1)) rc stored
      = (Ok merged, w3)
      ∧ Forall2 (merged_as w2 w3 (buf 1)) (combine chunk_array_batch batch_1_4) merged
      ∧ contents w3 chunk_array_batch = [Some (uint8, [1; 1]%Z); None]
      ∧ map (peek w3) merged = [(uint8, [1; 0]%Z); (uint8, [0; 0]%Z)].
Proof.
  assert (H2 : valid stored (buf 1)) by (unfold valid; simpl; lia).
  assert (H3 : decode_values default_pipeline (decode_input stored batch_1_4)
               = Ok [Some (uint8, [1; 1]%Z); None]) by reflexivity.
  split; [reflexivity|]. split; [exact H2|]. split; [exact H3|].
  destruct (rmw_merge_spec default_pipeline batch_1_4 (buf 1) rc stored _
              eq_refl H2 H3)
    as (chunk_array_batch & w2 & merged & w3 & _ & _ & _ & Hmerged & Hall & _
        & Hkept & _).
  exists chunk_array_batch, w2, merged, w3.
  split; [exact Hmerged|]. split; [exact Hall|]. split; [exact Hkept|].
  vm_compute in Hmerged. injection Hmerged as <- <-. reflexivity.
Defined.

(** C4: scenario S2.  Writing zeros over the whole array whose two chunks
    are stored deletes both keys, through [write_batched] and through
    [setitem]. *)
Lemma fill_value_elision_witness :
  supports_partial_encode full_pipeline = false
  ∧ decoders_honour_none full_pipeline
  ∧ encoders_honour_none full_pipeline
  ∧ valid stored (buf 1)
  ∧ ∃ w',
      write_batched full_pipeline batch_0_4 (VArray (buf 1)) rc stored = (Ok tt, w')
      ∧ setitem (a4 full_pipeline) (0, 4) (VArray (buf 1)) stored = (Ok tt, w')
      ∧ store w' !! "a/c/0" = None
      ∧ store w' !! "a/c/1" = None.
Proof.
  assert (H4 : valid stored (buf 1)) by (unfold valid; simpl; lia).
  split; [reflexivity|]. split; [exact demo_decoders_honour|].
  split; [exact demo_encoders_honour|]. split; [exact H4|].
  destruct (fill_value_elision full_pipeline batch_0_4 (buf 1) rc stored
              eq_refl demo_decoders_honour demo_encoders_honour H4)
    as (merged & bytes & w3 & w4 & w' & _ & _ & _ & _ & _ & Hrun & _ & _ & Hkeys
        & Hsetitem).
  assert (Hnd : NoDup (map item_key batch_0_4)).
  { apply (bool_decide_unpack _). vm_compute. exact I. }
  destruct (Hkeys Hnd) as [_ Habsent].
  exists w'. split; [exact Hrun|]. split.
  { apply (Hsetitem (a4 full_pipeline) (0, 4) [2] _ (VArray (buf 1)) stored
             eq_refl eq_refl eq_refl eq_refl eq_refl eq_refl). }
  split.
  - apply (Habsent "a/c/0" spec_uint8 [(0, 2)] [(0, 2)]);
      [|reflexivity|reflexivity].
    rewrite batch_0_4_items. left.
  - apply (Habsent "a/c/1" spec_uint8 [(0, 2)] [(2, 4)]);
      [|reflexivity|reflexivity].
    rewrite batch_0_4_items. right. left.
Defined.


(** C6: reading [1:4] of the stored array of ones into a buffer of
    zeros. *)
Lemma read_batched_full_witness :
  supports_partial_decode default_pipeline = false
  ∧ decoders_honour_none default_pipeline
  ∧ valid stored (buf 2)
  ∧ ∃ w',
      read_batched default_pipeline batch_1_4 (buf 2) rc stored = (Ok tt, w')
      ∧ heap w' !!! 2 = (uint8, [1; 1; 1; 0]%Z)
      ∧ store w' = store stored.
Proof.
  assert (H3 : valid stored (buf 2)) by (unfold valid; simpl; lia).
  split; [reflexivity|]. split; [exact demo_default_decoders_honour|].
  split; [exact H3|].
  destruct (read_batched_full default_pipeline batch_1_4 (buf 2) rc stored
              eq_refl demo_default_decoders_honour H3)
    as (chunks & w' & Hrun & Hchunks & _ & Hout & _ & Hstore).
  exists w'. split; [exact Hrun|]. split; [|exact Hstore].
  assert (Hc : chunks = [Some (uint8, [1; 1]%Z); Some (uint8, [1; 1]%Z)]).
  { vm_compute in Hchunks. now injection Hchunks as <-. }
  rewrite Hc in Hout. exact Hout.
Defined.

(** C7 (amended): scenario S6 in one dimension.  Shrinking the stored
    array from [4] to [2] deletes the key of the chunk [1] and keeps the
    chunk [0]. *)
Lemma resize_deletes_outside_chunks_witness :
  length [2] = length (md_shape (metadata (a4 default_pipeline)))
  ∧ chunk_grid (metadata (a4 default_pipeline)) = RegularChunkGrid [2]
  ∧ ∃ self' w',
      resize (a4 default_pipeline) [2] true stored = (Ok self', w')
      ∧ shape self' = [2]
      ∧ log w' = [StoreDelete "a/c/1"; StoreSet "a/zarr.json" [x02]]
      ∧ store w' !! "a/c/1" = None
      ∧ store w' !! "a/c/0" = Some [x01; x01].
Proof.
  split; [reflexivity|]. split; [reflexivity|].
  destruct (resize_deletes_outside_chunks (a4 default_pipeline) [2] [2] stored
              eq_refl eq_refl)
    as (self' & w' & Hrun & _ & Hshape & Hlog & _ & _ & _ & Hother & _).
  exists self', w'. split; [exact Hrun|]. split; [exact Hshape|].
  split; [exact Hlog|]. split.
  - etransitivity; [apply Hother; discriminate|reflexivity].
  - etransitivity; [apply Hother; discriminate|reflexivity].
Defined.

(** C7, as stated, fails.  The array of shape [4] holds both of its
    chunks; [resize] to [2] with [delete_outside_chunks] unset keeps the
    key of the chunk [1]; a later [resize] to [1] with the flag set deletes
    the keys of the old shape [2] that are outside the new one, which are
    none, and the key of the chunk [1] is still present. *)
Lemma resize_keeps_stray_chunk_key :
  resize (a4 default_pipeline) [2] false stored
  = (Ok (array_of default_pipeline [2] [2]), kept)
  ∧ ¬ resize_leaves_new_chunks_only (array_of default_pipeline [2] [2]) [1] kept.
Proof.
  split; [reflexivity|].
  intros Hclaim.
  assert (Hrun : resize (array_of default_pipeline [2] [2]) [1] true kept
                 = (Ok (array_of default_pipeline [1] [2]),
                    (resize (array_of default_pipeline [2] [2]) [1] true kept).2))
    by (vm_compute; reflexivity).
  destruct (Hclaim _ _ [2] Hrun eq_refl "a/c/1") as (c & Hc & Hkey).
  { split; [|split].
    - apply elem_of_dom. exists [x01; x01]. reflexivity.
    - discriminate.
    - exists [1]. reflexivity. }
  unfold grid_coords in Hc. apply elem_of_list_to_set in Hc.
  change (all_chunk_coords [1] [2]) with [[0]] in Hc.
  apply list_elem_of_singleton in Hc. subst c. discriminate.
Qed.

(** C8 at a concrete input: [setitem] lets the scalar through its
    normalisation unchanged, and the dispatched [write_batched] raises
    [TypeError] when it evaluates [value[out_selection]]; nothing is
    written. *)
Theorem setitem_scalar_raises :
  normalize_value (a4 default_pipeline) [4] (VScalar 1%Z) (world_of [])
  = (Ok (VScalar 1%Z), world_of [])
  ∧ (setitem (a4 default_pipeline) (0, 4) (VScalar 1%Z) (world_of [])).1
    = Raise TypeError
  ∧ store (setitem (a4 default_pipeline) (0, 4) (VScalar 1%Z) (world_of [])).2 = ∅
  ∧ (setitem (a4 shard_pipeline) (0, 4) (VScalar 1%Z) (world_of [])).1
    = Raise TypeError.
Proof. repeat split; vm_compute; reflexivity. Qed.

(** C9 on the pipeline of the shard codec. *)
Lemma write_batched_partial_witness :
  supports_partial_encode shard_pipeline = true
  ∧ ∃ encode_partial,
      ab_encode_partial_batched (array_bytes_codec shard_pipeline)
      = Some encode_partial
      ∧ write_batched shard_pipeline batch_0_4 (VArray (buf 1)) rc stored
        = encode_partial
            [("a/c/0", subscript (buf 1) [(0, 2)], [(0, 2)], spec_uint8);
             ("a/c/1", subscript (buf 1) [(2, 4)], [(0, 2)], spec_uint8)]
            {| store := store stored; heap := heap stored;
               log :=
                 [EncodePartialBatched "shard"
                    [("a/c/0", subscript (buf 1) [(0, 2)], [(0, 2)], spec_uint8);
                     ("a/c/1", subscript (buf 1) [(2, 4)], [(0, 2)], spec_uint8)]] |}.
Proof.
  split; [reflexivity|].
  destruct (write_batched_partial shard_pipeline batch_0_4 (buf 1) rc stored eq_refl)
    as (encode_partial & Hsome & _ & Hrun & _).
  exists encode_partial. split; [exact Hsome|exact Hrun].
Defined.

(** C10 on the pipeline of the shard codec, whose partial decoder only
    reads. *)
Lemma reads_preserve_store_witness :
  (∀ decode_partial,
     ab_decode_partial_batched (array_bytes_codec shard_pipeline)
     = Some decode_partial ->
     ∀ batch w0, store (decode_partial batch w0).2 = store w0)
  ∧ store (getitem (a4 shard_pipeline) (0, 4) stored).2 = store stored
  ∧ store (read_batched shard_pipeline batch_1_4 (buf 2) rc stored).2 = store stored.
Proof.
  assert (Hframe : ∀ decode_partial,
            ab_decode_partial_batched (array_bytes_codec shard_pipeline)
            = Some decode_partial ->
            ∀ batch w0, store (decode_partial batch w0).2 = store w0).
  { intros decode_partial [= <-]. exact demo_partial_decode_store. }
  split; [exact Hframe|].
  destruct (reads_preserve_store shard_pipeline Hframe) as [Hread Hget].
  split.
  - exact (Hget (a4 shard_pipeline) (0, 4) stored eq_refl).
  - exact (proj1 (Hread batch_1_4 (buf 2) rc stored)).
Defined.

(** C4, as stated, fails.  The array of shape [4] holds both of its
    chunks, of ones, and its fill value is zero.  A [setitem] of zeros at
    [1:3] returns, and the keys of both chunks it covers are still present:
    each chunk keeps a one.  A [setitem] of the scalar zero at [0:4], which
    covers both chunks entirely, raises [TypeError], and both keys are
    still present. *)
Lemma setitem_all_fill_keeps_chunk_keys :
  md_fill_value (metadata (a4 default_pipeline)) = 0%Z
  ∧ supports_partial_encode (codecs (a4 default_pipeline)) = false
  ∧ (setitem (a4 default_pipeline) (1, 3) (VArrayLike [0; 0]%Z) stored).1 = Ok tt
  ∧ ¬ setitem_leaves_no_chunk_key (a4 default_pipeline) (1, 3)
        (VArrayLike [0; 0]%Z) stored
  ∧ (setitem (a4 default_pipeline) (0, 4) (VScalar 0%Z) stored).1 = Raise TypeError
  ∧ ¬ setitem_leaves_no_chunk_key (a4 default_pipeline) (0, 4) (VScalar 0%Z) stored.
Proof.
  split; [reflexivity|]. split; [reflexivity|].
  split; [vm_compute; reflexivity|]. split; [|split; [vm_compute; reflexivity|]].
  - intros Hclaim.
    assert (Hin : ([0], [(1, 2)], [(0, 1)])
                  ∈ [([0], [(1, 2)], [(0, 1)]); ([1], [(0, 1)], [(1, 2)])])
      by left.
    pose proof (Hclaim [2] _ eq_refl eq_refl _ Hin) as Habsent.
    vm_compute in Habsent. discriminate Habsent.
  - intros Hclaim.
    assert (Hin : ([0], [(0, 2)], [(0, 2)])
                  ∈ [([0], [(0, 2)], [(0, 2)]); ([1], [(0, 2)], [(2, 4)])])
      by left.
    pose proof (Hclaim [2] _ eq_refl eq_refl _ Hin) as Habsent.
    vm_compute in Habsent. discriminate Habsent.
Qed.

(** C5 on the batch of the selection [1:4]: one [get], for the chunk
    covered in part, and no other. *)
Lemma rmw_existing_chunks_witness :
  supports_partial_encode default_pipeline = false
  ∧ live_value stored (VArray (buf 1))
  ∧ ∃ evs,
      log (write_batched default_pipeline batch_1_4 (VArray (buf 1)) rc stored).2
      = [StoreGet "a/c/0"] ++ evs
      ∧ Forall (fun e => is_store_get e = false) evs.
Proof.
  assert (H2 : live_value stored (VArray (buf 1)))
    by (unfold live_value, valid; simpl; lia).
  split; [reflexivity|]. split; [exact H2|].
  destruct (rmw_existing_chunks default_pipeline batch_1_4 (VArray (buf 1)) rc stored
              eq_refl H2) as ((evs & Hlog & Hevs) & _).
  exists evs. split; [exact Hlog|exact Hevs].
Defined.

(** ** The codecs of the instance lose nothing *)

Lemma Z_of_byte_of_Z (z : Z) : (0 ≤ z < 256)%Z -> Z_of_byte (byte_of_Z z) = z.
Proof.
  intros Hz. unfold Z_of_byte, byte_of_Z.
  rewrite Z.mod_small by exact Hz.
  destruct (Byte.of_N (Z.to_N z)) as [b|] eqn:Hb; simpl.
  - apply Byte.to_of_N in Hb. rewrite Hb. lia.
  - apply Byte.of_N_None_iff in Hb. lia.
Qed.

(** A codec of the instance whose decoder inverts its encoder chunk by
    chunk is lossless on a batch. *)
Lemma per_chunk_inverse {A B} (f : A -> ArraySpec -> B) (g : B -> ArraySpec -> A)
    (P : A -> ArraySpec -> Prop) (Q : B -> ArraySpec -> Prop)
    (batch : list (option A)) (chunk_specs : list ArraySpec)
    (out : list (option B)) :
  (∀ a s, P a s -> g (f a s) s = a ∧ Q (f a s) s) ->
  Forall2 (fun chunk s => from_option (fun a => P a s) True chunk) batch chunk_specs ->
  per_chunk f (combine batch chunk_specs) = Ok out ->
  length out = length batch
  ∧ Forall2 (fun chunk s => from_option (fun b => Q b s) True chunk) out chunk_specs
  ∧ per_chunk g (combine out chunk_specs) = Ok batch.
Proof.
  intros Hinv Hall [= <-]. unfold per_chunk.
  induction Hall as [|chunk s batch specs Hc _ (IH1 & IH2 & IH3)]; simpl.
  - repeat split. constructor.
  - injection IH3 as IH3. rewrite IH3.
    destruct chunk as [a|]; simpl in *.
    + destruct (Hinv a s Hc) as [-> HQ]. repeat split; [lia|].
      constructor; done.
    + repeat split; [lia|]. constructor; done.
Qed.

Lemma flip_lossless : aa_lossless fits_uint8 flip_codec.
Proof.
  intros batch specs out Hgood Henc.
  destruct (per_chunk_inverse (fun (a : arr) _ => (a.1, rev a.2))
              (fun (a : arr) _ => (a.1, rev a.2)) fits_uint8
              (fun a s => fits_uint8 a (aa_resolve_metadata flip_codec s))
              batch specs out) as (_ & Hout & Hdec); [|exact Hgood|exact Henc|].
  - intros [dt l] s (Hdt & Hs & Hl). simpl in *. split.
    + now rewrite rev_involutive.
    + repeat split; try done. simpl. apply Forall_rev_intro. exact Hl.
  - split; [|exact Hdec]. unfold conforming. now apply Forall2_fmap_r.
Qed.

Lemma bytes_lossless : ab_lossless fits_uint8 bytes_codec.
Proof.
  intros batch specs out Hgood Henc.
  destruct (per_chunk_inverse (fun (a : arr) _ => map byte_of_Z a.2)
              (fun (b : BytesLike) chunk_spec => (spec_dtype chunk_spec, map Z_of_byte b))
              fits_uint8 (fun _ _ => True) batch specs out)
    as (Hlen & _ & Hdec); [|exact Hgood|exact Henc|done].
  intros [dt l] s (Hdt & Hs & Hl). simpl in *. split; [|done].
  rewrite Hs, Hdt. f_equal. rewrite map_map.
  clear -Hl. induction Hl as [|z l Hz _ IH]; simpl; [done|].
  now rewrite Z_of_byte_of_Z, IH.
Qed.

Lemma mark_lossless : bb_lossless mark_codec.
Proof.
  intros batch specs out Hlen Henc.
  destruct (per_chunk_inverse (fun (b : BytesLike) (_ : ArraySpec) => b ++ [xff])
              (fun (b : BytesLike) (_ : ArraySpec) => take (length b - 1) b)
              (fun _ _ => True) (fun _ _ => True) batch specs out)
    as (Hlen' & _ & Hdec); [| |exact Henc|done].
  - intros b s _. split; [|done]. rewrite length_app. simpl.
    replace (length b + 1 - 1) with (length b) by lia.
    now rewrite take_app_length.
  - clear -Hlen. revert specs Hlen.
    induction batch as [|c batch IH]; intros [|s specs] Hlen; simpl in *;
      try done; constructor; [now destruct c|]. apply IH. lia.
Qed.

Lemma demo_lossless : lossless fits_uint8 full_pipeline.
Proof.
  split; [|split]; simpl.
  - constructor; [exact flip_lossless|constructor].
  - exact bytes_lossless.
  - constructor; [exact mark_lossless|constructor].
Qed.

(** ** Further theorems at concrete inputs *)

Lemma ones_fit : fits_uint8 ones spec_uint8.
Proof. repeat split. repeat constructor; lia. Qed.

(** X2 on the three-stage pipeline: the array of ones comes back. *)
Lemma encode_then_decode_witness :
  lossless fits_uint8 full_pipeline
  ∧ conforming fits_uint8 (contents stored [Some (buf 0)]) [spec_uint8]
  ∧ ∃ chunk_bytes_batch w1 chunk_array_batch w2,
      encode_batched full_pipeline [(Some (buf 0), spec_uint8)] stored
      = (Ok chunk_bytes_batch, w1)
      ∧ decode_batched full_pipeline (combine chunk_bytes_batch [spec_uint8]) w1
        = (Ok chunk_array_batch, w2)
      ∧ contents w2 chunk_array_batch = [Some ones].
Proof.
  assert (Hgood : conforming fits_uint8 (contents stored [Some (buf 0)]) [spec_uint8]).
  { constructor; [exact ones_fit|constructor]. }
  split; [exact demo_lossless|]. split; [exact Hgood|].
  destruct (encode_batched full_pipeline [(Some (buf 0), spec_uint8)] stored)
    as [[bytes|e] w1] eqn:Hrun; [|vm_compute in Hrun; discriminate].
  destruct (encode_then_decode fits_uint8 full_pipeline [(Some (buf 0), spec_uint8)]
              bytes stored w1 demo_lossless Hgood Hrun)
    as (arrays & w2 & Hdecode & Hcontents & _).
  exists bytes, w1, arrays, w2. split; [reflexivity|]. split; [exact Hdecode|].
  exact Hcontents.
Defined.

(** X3: writing ones at [1:4] and reading [1:4] back into a buffer of
    zeros, through the three-stage pipeline. *)
Lemma write_then_read_witness :
  supports_partial_encode full_pipeline = false
  ∧ supports_partial_decode full_pipeline = false
  ∧ NoDup (map item_key batch_1_4)
  ∧ valid stored (buf 0)
  ∧ valid stored (buf 2)
  ∧ ∃ w' w'',
      write_batched full_pipeline batch_1_4 (VArray (buf 0)) rc stored = (Ok tt, w')
      ∧ read_batched full_pipeline batch_1_4 (buf 2) rc w' = (Ok tt, w'')
      ∧ heap w'' !!! 2 = (uint8, [1; 1; 1; 0]%Z).
Proof.
  assert (Hnd : NoDup (map item_key batch_1_4)).
  { apply (bool_decide_unpack _). vm_compute. exact I. }
  assert (H0 : valid stored (buf 0)) by (unfold valid; simpl; lia).
  assert (H2 : valid stored (buf 2)) by (unfold valid; simpl; lia).
  split; [reflexivity|]. split; [reflexivity|]. split; [exact Hnd|].
  split; [exact H0|]. split; [exact H2|].
  destruct (write_then_read fits_uint8 full_pipeline batch_1_4 (buf 0) (buf 2) rc stored
              eq_refl eq_refl demo_decoders_honour demo_encoders_honour demo_lossless
              Hnd H0 H2)
    as (merged & w3 & w' & Hmerged & Hwrite & Hread).
  assert (Hwritten : written_chunks w3 merged batch_1_4
                     = [Some (uint8, [1; 1]%Z); Some (uint8, [1; 1]%Z)]).
  { vm_compute in Hmerged. injection Hmerged as <- <-. vm_compute. reflexivity. }
  rewrite Hwritten in Hread.
  destruct Hread as (w'' & Hread & Hout & _).
  { repeat constructor; simpl; lia. }
  exists w', w''. split; [exact Hwrite|]. split; [exact Hread|]. exact Hout.
Defined.

(** X5 on the three-stage pipeline, with a scalar for value. *)
Lemma empty_batch_witness :
  supports_partial_encode full_pipeline = false
  ∧ supports_partial_decode full_pipeline = false
  ∧ valid stored (buf 2)
  ∧ ∃ w',
      write_batched full_pipeline [] (VScalar 1%Z) rc stored = (Ok tt, w')
      ∧ store w' = store stored
      ∧ map codec_call (log w')
        = map Some
            [(Decode, StageBB, "mark"); (Decode, StageAB, "bytes");
             (Decode, StageAA, "flip"); (Encode, StageAA, "flip");
             (Encode, StageAB, "bytes"); (Encode, StageBB, "mark")].
Proof.
  assert (H2 : valid stored (buf 2)) by (unfold valid; simpl; lia).
  split; [reflexivity|]. split; [reflexivity|]. split; [exact H2|].
  destruct (empty_batch full_pipeline (@VScalar numpy 1%Z) (buf 2) rc stored
              eq_refl eq_refl
              demo_decoders_honour demo_encoders_honour H2)
    as [(w' & Hrun & Hstore & Hlog & _) _].
  exists w'. split; [exact Hrun|]. split; [exact Hstore|].
  rewrite Hlog. reflexivity.
Defined.

(** X6 on the pipeline of the shard codec: reading [1:4] of the stored
    array of ones into a buffer of zeros. *)
Lemma read_batched_partial_witness :
  supports_partial_decode shard_pipeline = true
  ∧ ∃ w',
      read_batched shard_pipeline batch_1_4 (buf 2) rc stored = (Ok tt, w')
      ∧ heap w' !!! 2 = (uint8, [1; 1; 1; 0]%Z)
      ∧ store w' = store stored.
Proof.
  split; [reflexivity|].
  destruct (read_batched_partial shard_pipeline batch_1_4 (buf 2) rc stored eq_refl)
    as (decode_partial & Hsome & _ & Hrun).
  injection Hsome as <-.
  match type of Hrun with match ?x with _ => _ end =>
    destruct x as [[chunks|e] w2] eqn:Hdecode end;
    [|vm_compute in Hdecode; discriminate].
  vm_compute in Hdecode. injection Hdecode as <- <-.
  destruct Hrun as (w' & Hread & Hstore & _ & Hout & _).
  { unfold valid. simpl. lia. }
  { repeat constructor; simpl; lia. }
  exists w'. split; [exact Hread|]. split; [|exact Hstore].
  etransitivity; [exact Hout|reflexivity].
Defined.

(** X7: reading [1:4] of the stored array of ones, and reading an array
    none of whose chunks is stored. *)
Lemma getitem_result_witness :
  chunk_grid (metadata (a4 default_pipeline)) = RegularChunkGrid [2]
  ∧ is_ok (BasicIndexer (1, 4) (md_shape (metadata (a4 default_pipeline))) [2]) = true
  ∧ supports_partial_decode (codecs (a4 default_pipeline)) = false
  ∧ decoders_honour_none (codecs (a4 default_pipeline))
  ∧ (∃ w',
       getitem (a4 default_pipeline) (1, 4) stored = (Ok (VArray (buf 3)), w')
       ∧ peek w' (buf 3) = (uint8, [1; 1; 1]%Z))
  ∧ ∃ w',
      getitem (a4 default_pipeline) (1, 4) (world_of []) = (Ok (VArray (buf 0)), w')
      ∧ peek w' (buf 0) = (uint8, [0; 0; 0]%Z).
Proof.
  split; [reflexivity|]. split; [reflexivity|]. split; [reflexivity|].
  split; [exact demo_default_decoders_honour|]. split.
  - destruct (getitem_result (ix := indexing) (a4 default_pipeline) (1, 4) [2] _ stored
                eq_refl eq_refl eq_refl demo_default_decoders_honour)
      as (chunks & v & w' & Hrun & Hchunks & _ & Hpeek & Hv & _).
    assert (Hc : chunks = [Some (uint8, [1; 1]%Z); Some (uint8, [1; 1]%Z)]).
    { vm_compute in Hchunks. now injection Hchunks as <-. }
    subst chunks.
    assert (Hout : peek w' (buf 3) = (uint8, [1; 1; 1]%Z)).
    { etransitivity; [exact Hpeek|reflexivity]. }
    exists w'. split; [|exact Hout].
    rewrite Hrun, Hv. change {| base := length (heap stored); view := [] |} with (buf 3).
    now rewrite Hout.
  - destruct (getitem_result (ix := indexing) (a4 default_pipeline) (1, 4) [2] _ (world_of [])
                eq_refl eq_refl eq_refl demo_default_decoders_honour)
      as (chunks & v & w' & Hrun & _ & _ & _ & Hv & _ & _ & Hfill).
    assert (Hout : peek w' (buf 0) = (uint8, [0; 0; 0]%Z)).
    { etransitivity; [apply Hfill|reflexivity]. intros item _. reflexivity. }
    exists w'. split; [|exact Hout].
    rewrite Hrun, Hv.
    change {| base := length (heap (world_of [])); view := [] |} with (buf 0).
    now rewrite Hout.
Defined.

(** X9: a list of two elements for a selection of four. *)
Lemma setitem_shape_mismatch_witness :
  chunk_grid (metadata (a4 default_pipeline)) = RegularChunkGrid [2]
  ∧ is_ok (BasicIndexer (0, 4) (md_shape (metadata (a4 default_pipeline))) [2]) = true
  ∧ (setitem (a4 default_pipeline) (0, 4) (VArrayLike [1; 2]%Z) stored).1
    = Raise AssertionError
  ∧ store (setitem (a4 default_pipeline) (0, 4) (VArrayLike [1; 2]%Z) stored).2
    = store stored.
Proof.
  split; [reflexivity|]. split; [reflexivity|].
  destruct (setitem_shape_mismatch (ix := indexing) (a4 default_pipeline) (0, 4) [2] _
              (@VArrayLike numpy [1; 2]%Z) stored eq_refl eq_refl)
    as (Hraise & Hstore & _).
  { simpl. discriminate. }
  split; [exact Hraise|exact Hstore].
Defined.

(** X10: shrinking the stored array from [4] to [2] with the flag unset
    keeps the chunk [1]. *)
Lemma resize_metadata_only_witness :
  length [2] = length (md_shape (metadata (a4 default_pipeline)))
  ∧ chunk_grid (metadata (a4 default_pipeline)) = RegularChunkGrid [2]
  ∧ ∃ self' w',
      resize (a4 default_pipeline) [2] false stored = (Ok self', w')
      ∧ log w' = [StoreSet "a/zarr.json" [x02]]
      ∧ store w' !! "a/c/1" = Some [x01; x01].
Proof.
  split; [reflexivity|]. split; [reflexivity|].
  pose proof (resize_metadata_only (a4 default_pipeline) [2] [2] false stored
                eq_refl eq_refl (or_introl eq_refl)) as Hrun.
  cbv zeta in Hrun. eexists _, _. split; [exact Hrun|]. split; reflexivity.
Defined.

(** X11: shrinking the stored array from [4] to [2] keeps the chunk
    [0]. *)
Lemma resize_keeps_chunks_inside_witness :
  length [2] = length (md_shape (metadata (a4 default_pipeline)))
  ∧ chunk_grid (metadata (a4 default_pipeline)) = RegularChunkGrid [2]
  ∧ [0] ∈ grid_coords [2] [2]
  ∧ store (resize (a4 default_pipeline) [2] true stored).2 !! "a/c/0"
    = Some [x01; x01].
Proof.
  assert (Hin : [0] ∈ grid_coords [2] [2]).
  { apply (bool_decide_unpack _). vm_compute. exact I. }
  split; [reflexivity|]. split; [reflexivity|]. split; [exact Hin|].
  etransitivity;
    [apply (resize_keeps_chunks_inside (a4 default_pipeline) [2] [2] true [0] stored
              eq_refl eq_refl Hin)|reflexivity].
  - discriminate.
  - intros c Hc Hkey. unfold grid_coords in Hc. apply elem_of_list_to_set in Hc.
    change (all_chunk_coords (md_shape (metadata (a4 default_pipeline))) [2])
      with [[0]; [1]] in Hc.
    apply elem_of_cons in Hc as [->|Hc]; [reflexivity|].
    apply list_elem_of_singleton in Hc. subst c. discriminate.
Defined.

(** X12: new attributes and the new shape [2], in either order. *)
Lemma update_attributes_resize_commute_witness :
  length [2] = length (md_shape (metadata (a4 default_pipeline)))
  ∧ chunk_grid (metadata (a4 default_pipeline)) = RegularChunkGrid [2]
  ∧ ∃ array,
      ((let* array := update_attributes (a4 default_pipeline) [("unit", "m")] in
        resize array [2] true) stored).1 = Ok array
      ∧ ((let* array := resize (a4 default_pipeline) [2] true in
          update_attributes array [("unit", "m")]) stored).1 = Ok array
      ∧ shape array = [2]
      ∧ attributes (metadata array) = [("unit", "m")].
Proof.
  split; [reflexivity|]. split; [reflexivity|].
  destruct (update_attributes_resize_commute (a4 default_pipeline) [("unit", "m")]
              [2] [2] true stored eq_refl eq_refl)
    as (_ & array & H1 & H2 & Hshape & Hattrs & _).
  exists array. repeat split; assumption.
Defined.

(** X16: the array that [create] made with the defaults is opened
    again. *)
Lemma reopen_witness :
  created.1 = Ok (a4 default_pipeline)
  ∧ make_store_path "a" = Ok (store_path (a4 default_pipeline))
  ∧ json_loads (to_bytes (metadata (a4 default_pipeline))) = Ok [4]
  ∧ metadata_from_dict [4] = Ok (metadata (a4 default_pipeline))
  ∧ (open "a" rc created.2).1 = Ok (a4 default_pipeline).
Proof.
  assert (Hcreated : created = (Ok (a4 default_pipeline), created.2)) by reflexivity.
  assert (Hpath : make_store_path "a" = Ok (store_path (a4 default_pipeline)))
    by reflexivity.
  assert (Hloads : json_loads (to_bytes (metadata (a4 default_pipeline))) = Ok [4])
    by reflexivity.
  assert (Hdict : metadata_from_dict [4] = Ok (metadata (a4 default_pipeline)))
    by reflexivity.
  split; [reflexivity|]. split; [exact Hpath|]. split; [exact Hloads|].
  split; [exact Hdict|].
  rewrite (reopen (ext := collaborators) "a" (a4 default_pipeline) [4] (world_of [])
             created.2 Hpath Hloads Hdict).
  - reflexivity.
  - left. exists [4], uint8, [2], None, ("default", "/"), None, None, None, false.
    exact Hcreated.
Defined.

Lemma stored_within_shape : chunk_keys_within_shape (a4 default_pipeline) stored.
Proof.
  intros chunk_shape [= <-] key (Hdom & _ & _).
  apply elem_of_dom in Hdom as [b Hb]. cbn [store stored] in Hb.
  apply lookup_insert_Some in Hb as [[<- _]|[_ Hb]].
  { exists [0]. split; [|reflexivity].
    apply (bool_decide_unpack _). vm_compute. exact I. }
  apply lookup_insert_Some in Hb as [[<- _]|[_ Hb]]; [|done].
  exists [1]. split; [|reflexivity].
  apply (bool_decide_unpack _). vm_compute. exact I.
Qed.

(** X17: shrinking the stored array to [2], then new attributes. *)
Lemma updates_keep_chunk_keys_within_shape_witness :
  chunk_keys_within_shape (a4 default_pipeline) stored
  ∧ ∃ array' w',
      foldM apply_update [Resize [2]; UpdateAttributes [("unit", "m")]]
        (a4 default_pipeline) stored = (Ok array', w')
      ∧ chunk_keys_within_shape array' w'
      ∧ metadata_stored array' w'
      ∧ shape array' = [2]
      ∧ dom (store w') = {["a/c/0"; "a/zarr.json"]}.
Proof.
  split; [exact stored_within_shape|].
  destruct (foldM apply_update [Resize [2]; UpdateAttributes [("unit", "m")]]
              (a4 default_pipeline) stored) as [[array'|e] w'] eqn:Hrun;
    [|vm_compute in Hrun; discriminate].
  destruct (updates_keep_chunk_keys_within_shape _ _ _ _ _ stored_within_shape Hrun)
    as (Hin & Hstored & _).
  exists array', w'. split; [reflexivity|]. split; [exact Hin|].
  split; [now apply Hstored|].
  vm_compute in Hrun. injection Hrun as <- <-. split; vm_compute; reflexivity.
Defined.


(** X13: a write at [0:2] leaves the chunk [1] alone. *)
Lemma setitem_frame_witness :
  chunk_grid (metadata (a4 default_pipeline)) = RegularChunkGrid [2]
  ∧ is_ok (BasicIndexer (0, 2) (md_shape (metadata (a4 default_pipeline))) [2]) = true
  ∧ supports_partial_encode (codecs (a4 default_pipeline)) = false
  ∧ store (setitem (a4 default_pipeline) (0, 2) (VArrayLike [5; 6]%Z) stored).2
    !! "a/c/1" = Some [x01; x01].
Proof.
  split; [reflexivity|]. split; [reflexivity|]. split; [reflexivity|].
  destruct (setitem_frame (ix := indexing) (a4 default_pipeline) (0, 2) [2] _
              (@VArrayLike numpy [5; 6]%Z) stored eq_refl eq_refl eq_refl I)
    as (Hkeys & _).
  rewrite Hkeys; [reflexivity|].
  apply (bool_decide_unpack _). vm_compute. exact I.
Defined.
